(** * i18n-center: the versioned translation store and its translator

    A shallow embedding of the backend services of i18n-center
    ([services/translation_service.go], [services/openai_service.go],
    [handlers/translation_handler.go], [handlers/import_handler.go],
    [handlers/export_handler.go], [cache/cache.go],
    [database/database.go], [models/models.go]) and the properties of
    the two-slot store, the cache-aside reads, the placeholder-preserving
    translator, the routes and the array column of the models.

    Go strings are byte strings: they are modelled by [string] (a list of
    8-bit [ascii]).  Maps ([map[string]interface{}], the result map of the
    bulk read, the cache) are stdpp's [gmap].  The database is a list of
    rows; every database operation may fail, as decided by a schedule of
    faults carried by the state. *)

From Stdlib Require Import Ascii String.
From stdpp Require Import gmap strings pretty list.

(** ** Go's [strings] package, on byte strings *)

Module strings.

(** [strings.HasPrefix s p]. *)
Fixpoint HasPrefix (s p : string) : bool :=
  match p, s with
  | EmptyString, _ => true
  | String _ _, EmptyString => false
  | String a p', String b s' => if Ascii.eqb a b then HasPrefix s' p' else false
  end.

(** [s[n:]], for [n] at most the length of [s]. *)
Fixpoint drop (n : nat) (s : string) : string :=
  match n, s with
  | O, _ => s
  | S _, EmptyString => EmptyString
  | S n', String _ s' => drop n' s'
  end.

(** [strings.Contains s substr]: some suffix of [s] starts with [substr]. *)
Fixpoint Contains (s substr : string) : bool :=
  HasPrefix s substr ||
  match s with
  | EmptyString => false
  | String _ s' => Contains s' substr
  end.

(** [strings.Replace s old new 1]: the first (leftmost) occurrence of
    [old] in [s] is replaced by [new]; [s] is returned unchanged when
    [old] does not occur. *)
Fixpoint Replace1 (s old new : string) : string :=
  if HasPrefix s old then new +:+ drop (String.length old) s
  else match s with
       | EmptyString => EmptyString
       | String c s' => String c (Replace1 s' old new)
       end.

(** The UTF-8 encodings of the code points with Unicode's White_Space
    property, which is what [unicode.IsSpace] tests: U+0009..U+000D,
    U+0020, U+0085, U+00A0, U+1680, U+2000..U+200A, U+2028, U+2029,
    U+202F, U+205F, U+3000. *)
Definition bytes (l : list nat) : string :=
  foldr (fun n s => String (ascii_of_nat n) s) EmptyString l.

Definition white_space : list string :=
  map bytes
    [ [9]; [10]; [11]; [12]; [13]; [32];
      [194; 133]; [194; 160];
      [225; 154; 128];
      [226; 128; 128]; [226; 128; 129]; [226; 128; 130]; [226; 128; 131];
      [226; 128; 132]; [226; 128; 133]; [226; 128; 134]; [226; 128; 135];
      [226; 128; 136]; [226; 128; 137]; [226; 128; 138];
      [226; 128; 168]; [226; 128; 169]; [226; 128; 175];
      [226; 129; 159];
      [227; 128; 128] ].

(** The first entry of [table] that [s] starts with. *)
Definition leading (table : list string) (s : string) : option string :=
  List.find (HasPrefix s) table.

(** [strings.TrimLeftFunc s unicode.IsSpace]; a step removes one code
    point, that is at least one byte, so [String.length s] steps are
    enough. *)
Fixpoint trim_left (table : list string) (fuel : nat) (s : string) : string :=
  match fuel with
  | O => s
  | S fuel' =>
      match leading table s with
      | Some sp => trim_left table fuel' (drop (String.length sp) s)
      | None => s
      end
  end.

Definition rev (s : string) : string :=
  string_of_list_ascii (List.rev (list_ascii_of_string s)).

(** [strings.TrimSpace s]: leading and trailing white space removed. *)
Definition TrimSpace (s : string) : string :=
  let s1 := trim_left white_space (String.length s) s in
  rev (trim_left (map rev white_space) (String.length s1) (rev s1)).

(** [s[:n]], for [n] at most the length of [s]. *)
Fixpoint take (n : nat) (s : string) : string :=
  match n, s with
  | O, _ => EmptyString
  | S _, EmptyString => EmptyString
  | S n', String c s' => String c (take n' s')
  end.

(** [strings.Join elems sep]. *)
Fixpoint Join (elems : list string) (sep : string) : string :=
  match elems with
  | [] => EmptyString
  | e :: rest =>
      match rest with
      | [] => e
      | _ :: _ => e +:+ sep +:+ Join rest sep
      end
  end.

(** [strings.Split s sep] for a separator that is not empty: the pieces
    between the leftmost occurrences of [sep] that do not overlap.
    [split_from skip s] is the list of the pieces of [s] once [skip] more
    bytes, the rest of a separator, are passed over; its head is the
    piece that starts there. *)
Fixpoint split_from (sep : string) (skip : nat) (s : string) : list string :=
  match s with
  | EmptyString => [EmptyString]
  | String c s' =>
      match skip with
      | S skip' => split_from sep skip' s'
      | O =>
          if HasPrefix s sep
          then EmptyString :: split_from sep (String.length sep - 1) s'
          else match split_from sep 0 s' with
               | piece :: pieces => String c piece :: pieces
               | [] => [String c EmptyString]
               end
      end
  end.

Definition Split (s sep : string) : list string := split_from sep 0 s.

(** [strings.ReplaceAll s old new] for an [old] that is not empty: the
    leftmost occurrences of [old] that do not overlap are replaced. *)
Fixpoint replace_from (old new : string) (skip : nat) (s : string) : string :=
  match s with
  | EmptyString => EmptyString
  | String c s' =>
      match skip with
      | S skip' => replace_from old new skip' s'
      | O =>
          if HasPrefix s old
          then new +:+ replace_from old new (String.length old - 1) s'
          else String c (replace_from old new 0 s')
      end
  end.

Definition ReplaceAll (s old new : string) : string := replace_from old new 0 s.

Definition HasSuffix (s suffix : string) : bool :=
  HasPrefix (rev s) (rev suffix).

Definition TrimPrefix (s prefix : string) : string :=
  if HasPrefix s prefix then drop (String.length prefix) s else s.

Definition TrimSuffix (s suffix : string) : string :=
  if HasSuffix s suffix then take (String.length s - String.length suffix) s else s.

End strings.

(** ** Go's [regexp], for the one pattern the service compiles *)

Module regexp.

Definition lbracket : ascii := "["%char.
Definition rbracket : ascii := "]"%char.

(** The pattern [\[([^\]]+)\]] tried at one position, the opening
    bracket being already consumed: [t] is what follows it and [acc] the
    bytes of the class [[^\]]] read so far.  The class is greedy but
    cannot cross a closing bracket, so the match ends at the first [']']
    and exists only when at least one byte precedes it.  The result is the
    captured group and the text after the match.  [FindAllStringSubmatch]
    runs this loop in place, so that it recurses on a part of its
    argument. *)
Fixpoint match_group (acc t : string) : option (string * string) :=
  match t with
  | EmptyString => None
  | String d t' =>
      if Ascii.eqb d rbracket
      then match acc with
           | EmptyString => None
           | String _ _ => Some (acc, t')
           end
      else match_group (acc +:+ String d EmptyString) t'
  end.

(** [regexp.MustCompile(`\[([^\]]+)\]`).FindAllStringSubmatch(s, -1)]:
    the leftmost match, then the matches of the text after it; a
    position where the pattern does not match is skipped.  Each match is
    the pair of [match[0]] (the whole match) and [match[1]] (the group). *)
Fixpoint FindAllStringSubmatch (s : string) : list (string * string) :=
  match s with
  | EmptyString => []
  | String c r =>
      if Ascii.eqb c lbracket
      then (fix group (acc t : string) {struct t} : list (string * string) :=
              match t with
              | EmptyString => FindAllStringSubmatch r
              | String d t' =>
                  if Ascii.eqb d rbracket
                  then match acc with
                       | EmptyString => FindAllStringSubmatch r
                       | String _ _ =>
                           (String lbracket (acc +:+ String rbracket EmptyString), acc)
                             :: FindAllStringSubmatch t'
                       end
                  else group (acc +:+ String d EmptyString) t'
              end) EmptyString r
      else FindAllStringSubmatch r
  end.

End regexp.

(** ** services/translation_service.go: template values *)

(** [fmt.Sprintf("[%s]", value)]. *)
Definition placeholder_of (value : string) : string :=
  String regexp.lbracket (value +:+ String regexp.rbracket EmptyString).

(** [ExtractTemplateValues]: the captured group of every match. *)
Definition ExtractTemplateValues (text : string) : list string :=
  map snd (regexp.FindAllStringSubmatch text).

(** One iteration of the loop of [PreserveTemplateValues], for the
    template value [value] at index [i]. *)
Definition preserve_step (i : nat) (value : string) (result : string) : string :=
  let placeholder := placeholder_of value in
  if negb (strings.Contains result placeholder) then
    let matches := regexp.FindAllStringSubmatch result in
    match matches !! i with
    | Some m => strings.Replace1 result (fst m) placeholder
    | None => result
    end
  else result.

(** [for i, value := range templateValues], from index [i] on. *)
Fixpoint preserve_loop (i : nat) (templateValues : list string) (result : string) : string :=
  match templateValues with
  | [] => result
  | value :: rest => preserve_loop (S i) rest (preserve_step i value result)
  end.

Definition PreserveTemplateValues (text translatedText : string) : string :=
  let templateValues := ExtractTemplateValues text in
  match templateValues with
  | [] => translatedText
  | _ :: _ => preserve_loop 0 templateValues translatedText
  end.

(** ** Errors *)

(** The [error] values the services produce.  [ErrDriver] stands for any
    failure of the entity store other than [gorm.ErrRecordNotFound];
    [Errorf prefix e] is [fmt.Errorf(prefix + ": %w", e)]. *)
Inductive error : Type :=
  | ErrRecordNotFound
  | ErrDriver
  | ErrNew (msg : string)
  | Errorf (prefix : string) (e : error).

(** [err.Error()]. *)
Fixpoint Error (e : error) : string :=
  match e with
  | ErrRecordNotFound => "record not found"
  | ErrDriver => "driver: bad connection"
  | ErrNew msg => msg
  | Errorf prefix e' => prefix +:+ ": " +:+ Error e'
  end.

(** A Go result [(value, error)]: [inl err] when the error is not nil. *)
Definition Result (A : Type) : Type := (error + A)%type.

(** ** Payloads: [models.JSONB], that is [map[string]interface{}] *)

(** The dynamic values [encoding/json] decodes into an [interface{}].
    A number is a [float64] there; no code of the services computes with
    one, so [JNum] only has to carry it. *)
#[warnings="-register-all"]
Inductive JSON : Type :=
  | JNull
  | JBool (b : bool)
  | JNum (n : Z)
  | JStr (s : string)
  | JArr (l : list JSON)
  | JObj (m : gmap string JSON).

Abbreviation JSONB := (gmap string JSON) (only parsing).

(** ** services/openai_service.go *)

(** What the HTTP exchange with the chat-completions endpoint ends in:
    a transport or decoding error, a status other than 200 with its body,
    or a decoded response with the contents of its choices. *)
Inductive Reply : Type :=
  | ReplyError (e : error)
  | ReplyStatus (body : string)
  | ReplyChoices (contents : list string).

Record OpenAIService : Type := { APIKey : string }.

Definition NewOpenAIService (apiKey : string) : OpenAIService :=
  {| APIKey := apiKey |}.

(** The prompt of [Translate]. *)
Definition prompt (text sourceLang targetLang : string) : string :=
  "Translate the following text from " +:+ sourceLang +:+ " to " +:+ targetLang +:+ ". "
  +:+ "IMPORTANT: Do NOT translate anything inside square brackets []. "
  +:+ "Preserve all template values exactly as they are. "
  +:+ "Only translate the text outside the brackets."
  +:+ String (ascii_of_nat 10) (String (ascii_of_nat 10) "Text to translate: ")
  +:+ text.

Section Engine.

(** The external translation engine: the reply to a request made with
    the bearer key and the user prompt. *)
Variable engine : string -> string -> Reply.

Definition Translate (s : OpenAIService) (text sourceLang targetLang : string)
  : Result string :=
  if String.eqb (APIKey s) "" then inl (ErrNew "OpenAI API key not configured")
  else
    match engine (APIKey s) (prompt text sourceLang targetLang) with
    | ReplyError e => inl e
    | ReplyStatus body => inl (ErrNew ("OpenAI API error: " +:+ body))
    | ReplyChoices [] => inl (ErrNew "no translation returned")
    | ReplyChoices (content :: _) =>
        let translated := strings.TrimSpace content in
        inr (PreserveTemplateValues text translated)
    end.

(** The body of [TranslateJSON], by recursion on the value that holds
    the map: [for key, value := range data] with the type switch on
    [value].  An error stops the loop; Go ranges over a map in an
    unspecified order, here the order of [map_fold]. *)
Fixpoint TranslateJSON_rec (s : OpenAIService) (sourceLang targetLang : string)
    (v : JSON) {struct v} : Result JSONB :=
  match v with
  | JObj data =>
      map_fold
        (fun key value (acc : Result JSONB) =>
           match acc with
           | inl e => inl e
           | inr result =>
               match value with
               | JStr v' =>
                   match Translate s v' sourceLang targetLang with
                   | inl err => inl (Errorf ("error translating key " +:+ key) err)
                   | inr translated => inr (<[key := JStr translated]> result)
                   end
               | JObj _ =>
                   match TranslateJSON_rec s sourceLang targetLang value with
                   | inl err => inl err
                   | inr translated => inr (<[key := JObj translated]> result)
                   end
               | _ => inr (<[key := value]> result)
               end
           end)
        (inr ∅) data
  | _ => inr ∅
  end.

Definition TranslateJSON (s : OpenAIService) (data : JSONB)
    (sourceLang targetLang : string) : Result JSONB :=
  TranslateJSON_rec s sourceLang targetLang (JObj data).

End Engine.

(** ** models/models.go *)

(** [uuid.UUID]: sixteen bytes, read as a number; [uuid.Nil] is zero.
    [uuid.String] is the canonical text of the identifier; what the code
    relies on is that it is one-to-one, so the decimal rendering stands for
    the hexadecimal one. *)
Abbreviation UUID := N (only parsing).

Module uuid.
Definition Nil : UUID := 0%N.
Definition String (u : UUID) : string := pretty u.
End uuid.

Abbreviation DeploymentStage := string (only parsing).

Definition StageDraft : DeploymentStage := "draft".
Definition StageStaging : DeploymentStage := "staging".
Definition StageProduction : DeploymentStage := "production".

(** A row of [translation_versions].  [DeletedAt] is [gorm.DeletedAt]:
    [true] for a soft-deleted row, which no query sees.  The time stamps
    are left out. *)
Record TranslationVersion : Type := {
  ID : UUID;
  ComponentID : UUID;
  Locale : string;
  Stage : DeploymentStage;
  Version : Z;
  Data : JSONB;
  IsActive : bool;
  CreatedBy : UUID;
  UpdatedBy : UUID;
  DeletedAt : bool
}.

(** The zero value of the struct, [var t models.TranslationVersion]. *)
Definition zero_TranslationVersion : TranslationVersion :=
  {| ID := uuid.Nil; ComponentID := uuid.Nil; Locale := ""; Stage := "";
     Version := 0%Z; Data := ∅; IsActive := false;
     CreatedBy := uuid.Nil; UpdatedBy := uuid.Nil; DeletedAt := false |}.

Definition with_ID (id : UUID) (t : TranslationVersion) : TranslationVersion :=
  {| ID := id; ComponentID := ComponentID t; Locale := Locale t; Stage := Stage t;
     Version := Version t; Data := Data t; IsActive := IsActive t;
     CreatedBy := CreatedBy t; UpdatedBy := UpdatedBy t; DeletedAt := DeletedAt t |}.

Definition with_Data (data : JSONB) (t : TranslationVersion) : TranslationVersion :=
  {| ID := ID t; ComponentID := ComponentID t; Locale := Locale t; Stage := Stage t;
     Version := Version t; Data := data; IsActive := IsActive t;
     CreatedBy := CreatedBy t; UpdatedBy := UpdatedBy t; DeletedAt := DeletedAt t |}.

Definition with_UpdatedBy (u : UUID) (t : TranslationVersion) : TranslationVersion :=
  {| ID := ID t; ComponentID := ComponentID t; Locale := Locale t; Stage := Stage t;
     Version := Version t; Data := Data t; IsActive := IsActive t;
     CreatedBy := CreatedBy t; UpdatedBy := u; DeletedAt := DeletedAt t |}.

Definition with_DeletedAt (d : bool) (t : TranslationVersion) : TranslationVersion :=
  {| ID := ID t; ComponentID := ComponentID t; Locale := Locale t; Stage := Stage t;
     Version := Version t; Data := Data t; IsActive := IsActive t;
     CreatedBy := CreatedBy t; UpdatedBy := UpdatedBy t; DeletedAt := d |}.

(** The column defaults gorm applies on insert to a field left at its zero
    value: [version] has [default:1] and [is_active] has [default:true]
    (a [false] is the zero value, so every inserted row is active). *)
Definition with_defaults (t : TranslationVersion) : TranslationVersion :=
  {| ID := ID t; ComponentID := ComponentID t; Locale := Locale t; Stage := Stage t;
     Version := if decide (Version t = 0%Z) then 1%Z else Version t;
     Data := Data t; IsActive := true;
     CreatedBy := CreatedBy t; UpdatedBy := UpdatedBy t; DeletedAt := DeletedAt t |}.

(** The columns of [components] and [applications] the handlers read. *)
Record Component : Type := {
  component_ID : UUID;
  component_ApplicationID : UUID;
  component_DeletedAt : bool
}.

Record Application : Type := {
  application_ID : UUID;
  application_OpenAIKey : string;
  application_DeletedAt : bool
}.

(** ** models/models.go: [StringArray] *)

Definition double_quote : ascii := ascii_of_nat 34.
Definition backslash : ascii := ascii_of_nat 92.

(** What a column holds for the driver ([driver.Value], and the argument
    of [Scan]): [nil], bytes, a string, or a value of another type, of
    which only the name of the type, [%T], matters here. *)
Inductive driver_Value : Type :=
  | value_nil
  | value_bytes (b : string)
  | value_string (s : string)
  | value_other (type : string).

(** [StringArray], a slice of strings: [None] is the nil slice. *)
Abbreviation StringArray := (option (list string)) (only parsing).

(** The body of the loop of [Value]: quotes and backslashes are escaped
    and the value is put between quotes. *)
Definition StringArray_quote (v : string) : string :=
  let v := strings.ReplaceAll v (String backslash EmptyString)
             (String backslash (String backslash EmptyString)) in
  let v := strings.ReplaceAll v (String double_quote EmptyString)
             (String backslash (String double_quote EmptyString)) in
  String double_quote v +:+ String double_quote EmptyString.

Definition StringArray_Value (a : StringArray) : Result driver_Value :=
  match a with
  | None => inr value_nil
  | Some elems =>
      if decide (length elems = 0) then inr (value_string "{}")
      else
        let values := StringArray_quote <$> elems in
        inr (value_string ("{" +:+ strings.Join values "," +:+ "}"))
  end.

(** The body of the loop of [Scan], up to the test [part != ""]. *)
Definition StringArray_unquote (part : string) : string :=
  let part := strings.TrimSpace part in
  if bool_decide (2 ≤ String.length part
                  ∧ String.get 0 part = Some double_quote
                  ∧ String.get (String.length part - 1) part = Some double_quote)
  then
    let part := strings.take (String.length part - 2) (strings.drop 1 part) in
    let part := strings.ReplaceAll part
                  (String backslash (String double_quote EmptyString))
                  (String double_quote EmptyString) in
    strings.ReplaceAll part (String backslash (String backslash EmptyString))
                        (String backslash EmptyString)
  else part.

(** [for _, part := range parts], with [result] the parts appended so far. *)
Fixpoint StringArray_parts (parts : list string) (result : list string) : list string :=
  match parts with
  | [] => result
  | part :: rest =>
      let part := StringArray_unquote part in
      if decide (part ≠ EmptyString) then StringArray_parts rest (result ++ [part])
      else StringArray_parts rest result
  end.

Definition StringArray_Scan (value : driver_Value) : Result StringArray :=
  match value with
  | value_nil => inr None
  | value_other type =>
      inl (ErrNew ("cannot scan " +:+ type +:+ " into StringArray"))
  | value_bytes str | value_string str =>
      let str := strings.TrimSpace str in
      if String.eqb str "{}" then inr (Some [])
      else
        let str := strings.TrimPrefix str "{" in
        let str := strings.TrimSuffix str "}" in
        if String.eqb str "" then inr (Some [])
        else inr (Some (StringArray_parts (strings.Split str ",") []))
  end.

(** ** The state: database, cache, environment *)

(** [db_faults] is the schedule of the entity store: each database
    operation takes the head of the list and fails when it is [true]; an
    empty schedule means every further operation is served. *)
Record World : Type := {
  translation_versions : list TranslationVersion;
  components : list Component;
  applications : list Application;
  redis : gmap string TranslationVersion;
  db_faults : list bool;
  OPENAI_API_KEY : string
}.

Definition with_translation_versions (rows : list TranslationVersion) (w : World) : World :=
  {| translation_versions := rows; components := components w;
     applications := applications w; redis := redis w;
     db_faults := db_faults w; OPENAI_API_KEY := OPENAI_API_KEY w |}.

Definition with_redis (c : gmap string TranslationVersion) (w : World) : World :=
  {| translation_versions := translation_versions w; components := components w;
     applications := applications w; redis := c;
     db_faults := db_faults w; OPENAI_API_KEY := OPENAI_API_KEY w |}.

Definition with_db_faults (fs : list bool) (w : World) : World :=
  {| translation_versions := translation_versions w; components := components w;
     applications := applications w; redis := redis w;
     db_faults := fs; OPENAI_API_KEY := OPENAI_API_KEY w |}.

(** Computations on the state. *)
Definition M (A : Type) : Type := World -> A * World.

Definition ret {A : Type} (a : A) : M A := fun w => (a, w).

Definition bind {A B : Type} (m : M A) (f : A -> M B) : M B :=
  fun w => let (a, w') := m w in f a w'.

Notation "'let*' x ':=' m 'in' k" := (bind m (fun x => k))
  (at level 10, x pattern, m at level 100, k at level 200).

(** A loop over a slice that updates the local variables [s]. *)
Fixpoint foldM {A S : Type} (f : S -> A -> M S) (l : list A) (s : S) : M S :=
  match l with
  | [] => ret s
  | a :: l' => let* s' := f s a in foldM f l' s'
  end.

(** ** cache/cache.go *)

(** The cache answers every request: [Get] fails only on a missing key,
    and [Set] and [Delete], whose errors no caller looks at, take effect.
    Expiry is not modelled: an entry stays until it is deleted. *)
Module cache.

Definition ComponentKey (componentID : string) : string :=
  "component:" +:+ componentID.

Definition TranslationKey (componentID locale stage : string) : string :=
  "translation:" +:+ componentID +:+ ":" +:+ locale +:+ ":" +:+ stage.

Definition Get (key : string) : M (Result TranslationVersion) :=
  fun w =>
    match redis w !! key with
    | Some v => (inr v, w)
    | None => (inl (ErrNew "key not found"), w)
    end.

(** [cache.Set]; the expiration is not modelled. *)
Definition Set_ (key : string) (value : TranslationVersion) : M unit :=
  fun w => (tt, with_redis (<[key := value]> (redis w)) w).

Definition Delete (key : string) : M unit :=
  fun w => (tt, with_redis (delete key (redis w)) w).

End cache.

(** ** database/database.go and the gorm calls of the services *)

Module database.

(** The next entry of the fault schedule. *)
Definition fault : M bool :=
  fun w =>
    match db_faults w with
    | [] => (false, w)
    | b :: fs => (b, with_db_faults fs w)
    end.

Definition live (r : TranslationVersion) : Prop := DeletedAt r = false.

(** The rows a [Where(cond)] query ranges over: gorm adds
    [deleted_at IS NULL] to every query on a model with [DeletedAt]. *)
Definition select (cond : TranslationVersion -> Prop) `{!∀ r, Decision (cond r)}
    (rows : list TranslationVersion) : list TranslationVersion :=
  filter (fun r => live r ∧ cond r) rows.

(** [ORDER BY id LIMIT 1]. *)
Definition least_id (rows : list TranslationVersion) : option TranslationVersion :=
  foldr (fun r acc =>
           match acc with
           | None => Some r
           | Some r' => if decide (ID r ≤ ID r')%N then Some r else Some r'
           end) None rows.

(** [DB.Where(cond).First(&row)]. *)
Definition First (cond : TranslationVersion -> Prop) `{!∀ r, Decision (cond r)}
  : M (Result TranslationVersion) :=
  let* failed := fault in
  if failed : bool then ret (inl ErrDriver)
  else fun w =>
    match least_id (select cond (translation_versions w)) with
    | Some r => (inr r, w)
    | None => (inl ErrRecordNotFound, w)
    end.

(** [DB.Where(cond).Find(&rows)]. *)
Definition Find (cond : TranslationVersion -> Prop) `{!∀ r, Decision (cond r)}
  : M (Result (list TranslationVersion)) :=
  let* failed := fault in
  if failed : bool then ret (inl ErrDriver)
  else fun w => (inr (select cond (translation_versions w)), w).

(** [uuid.New()]: an identifier no row has. *)
Definition fresh_id (rows : list TranslationVersion) : UUID :=
  N.succ (foldr (fun r m => N.max (ID r) m) 0%N rows).

(** The [BeforeCreate] hook of [TranslationVersion]. *)
Definition BeforeCreate (rows : list TranslationVersion) (tv : TranslationVersion)
  : TranslationVersion :=
  if decide (ID tv = uuid.Nil) then with_ID (fresh_id rows) tv else tv.

(** The insert itself: hook, column defaults, primary-key check. *)
Definition insert (row : TranslationVersion) : M (Result TranslationVersion) :=
  fun w =>
    let rows := translation_versions w in
    let row' := with_defaults (BeforeCreate rows row) in
    if decide (ID row' ∈ ID <$> rows) then (inl ErrDriver, w)
    else (inr row', with_translation_versions (rows ++ [row']) w).

(** [DB.Create(&row)]; the struct is filled in with what was stored. *)
Definition Create (row : TranslationVersion) : M (Result TranslationVersion) :=
  let* failed := fault in
  if failed : bool then ret (inl ErrDriver) else insert row.

(** [DB.Save(&row)]: an insert when the primary key is zero, otherwise an
    update of all columns of the row with that key, which falls back to
    an insert when no row has it. *)
Definition Save (row : TranslationVersion) : M (Result TranslationVersion) :=
  let* failed := fault in
  if failed : bool then ret (inl ErrDriver)
  else if decide (ID row = uuid.Nil) then insert row
  else fun w =>
    let rows := translation_versions w in
    if decide (ID row ∈ ID <$> rows)
    then (inr row,
          with_translation_versions
            ((fun r => if decide (ID r = ID row) then row else r) <$> rows) w)
    else (inr row, with_translation_versions (rows ++ [row]) w).

(** [DB.Where(cond).Delete(&models.TranslationVersion{})]: a soft delete. *)
Definition Delete (cond : TranslationVersion -> Prop) `{!∀ r, Decision (cond r)}
  : M (Result unit) :=
  let* failed := fault in
  if failed : bool then ret (inl ErrDriver)
  else fun w =>
    (inr tt,
     with_translation_versions
       ((fun r => if decide (live r ∧ cond r) then with_DeletedAt true r else r)
          <$> translation_versions w) w).

(** [CleanupOldVersions]. *)
Definition CleanupOldVersions : M (Result unit) :=
  Delete (fun r => (Version r > 2)%Z).

(** [DB.First(&component, "id = ?", id)]. *)
Definition FirstComponent (id : UUID) : M (Result Component) :=
  let* failed := fault in
  if failed : bool then ret (inl ErrDriver)
  else fun w =>
    match List.find (fun c => bool_decide (component_DeletedAt c = false
                                           ∧ component_ID c = id)) (components w) with
    | Some c => (inr c, w)
    | None => (inl ErrRecordNotFound, w)
    end.

(** [DB.First(&application, "id = ?", id)]. *)
Definition FirstApplication (id : UUID) : M (Result Application) :=
  let* failed := fault in
  if failed : bool then ret (inl ErrDriver)
  else fun w =>
    match List.find (fun a => bool_decide (application_DeletedAt a = false
                                           ∧ application_ID a = id)) (applications w) with
    | Some a => (inr a, w)
    | None => (inl ErrRecordNotFound, w)
    end.

End database.

(** ** services/translation_service.go: the store *)

(** The [Where] clauses of the service. *)
Definition where_slot (componentID : UUID) (locale : string) (stage : DeploymentStage)
    (version : Z) (r : TranslationVersion) : Prop :=
  ComponentID r = componentID ∧ Locale r = locale ∧ Stage r = stage
  ∧ Version r = version.

Definition where_active_slot (componentID : UUID) (locale : string)
    (stage : DeploymentStage) (version : Z) (r : TranslationVersion) : Prop :=
  ComponentID r = componentID ∧ Locale r = locale ∧ Stage r = stage
  ∧ IsActive r = true ∧ Version r = version.

Definition where_active_slot_in (componentIDs : list UUID) (locale : string)
    (stage : DeploymentStage) (version : Z) (r : TranslationVersion) : Prop :=
  ComponentID r ∈ componentIDs ∧ Locale r = locale ∧ Stage r = stage
  ∧ IsActive r = true ∧ Version r = version.

#[global] Instance where_slot_dec c l s v r : Decision (where_slot c l s v r).
Proof. solve_decision. Defined.

#[global] Instance where_active_slot_dec c l s v r : Decision (where_active_slot c l s v r).
Proof. solve_decision. Defined.

#[global] Instance where_active_slot_in_dec cs l s v r :
  Decision (where_active_slot_in cs l s v r).
Proof. solve_decision. Defined.

(** The key of a translation in the cache. *)
Definition cacheKey_of (componentID : UUID) (locale : string) (stage : DeploymentStage)
  : string :=
  cache.TranslationKey (uuid.String componentID) locale stage.

Definition GetTranslation (componentID : UUID) (locale : string) (stage : DeploymentStage)
  : M (Result TranslationVersion) :=
  let cacheKey := cacheKey_of componentID locale stage in
  let* hit := cache.Get cacheKey in
  match hit with
  | inr cached => ret (inr cached)
  | inl _ =>
      let* result := database.First (where_active_slot componentID locale stage 2) in
      let* result :=
        match result with
        | inl ErrRecordNotFound =>
            database.First (where_active_slot componentID locale stage 1)
        | _ => ret result
        end in
      match result with
      | inl err => ret (inl err)
      | inr translation =>
          let* _ := cache.Set_ cacheKey translation in
          ret (inr translation)
      end
  end.

(** The loop that stores rows found by a batched query: each goes into the
    result map under its component and into the cache. *)
Definition collect (locale : string) (stage : DeploymentStage)
    (translations : list TranslationVersion)
    (results : gmap string TranslationVersion) : M (gmap string TranslationVersion) :=
  foldM (fun results translation =>
           let* _ := cache.Set_ (cacheKey_of (ComponentID translation) locale stage)
                                translation in
           ret (<[uuid.String (ComponentID translation) := translation]> results))
        translations results.

(** The first pass of the bulk read: every requested component is looked
    up in the cache; a hit goes into [results], a miss is appended to
    [missingFromCache]. *)
Definition first_pass (locale : string) (stage : DeploymentStage)
    (componentIDs : list UUID)
    (acc : gmap string TranslationVersion * list UUID)
  : M (gmap string TranslationVersion * list UUID) :=
  foldM (fun '(results, missingFromCache) componentID =>
           let* hit := cache.Get (cacheKey_of componentID locale stage) in
           match hit with
           | inr cached => ret (<[uuid.String componentID := cached]> results,
                                missingFromCache)
           | inl _ => ret (results, missingFromCache ++ [componentID])
           end)
        componentIDs acc.

Definition GetMultipleTranslations (componentIDs : list UUID) (locale : string)
    (stage : DeploymentStage) : M (Result (gmap string TranslationVersion)) :=
  (* First pass: the cache *)
  let* (results, missingFromCache) := first_pass locale stage componentIDs (∅, []) in
  (* Second pass: the database *)
  match missingFromCache with
  | [] => ret (inr results)
  | _ :: _ =>
      let* found := database.Find (where_active_slot_in missingFromCache locale stage 2) in
      match found with
      | inl _ => ret (inr results)
      | inr translations =>
          let* results := collect locale stage translations results in
          let foundIDs : list string :=
            (fun t => uuid.String (ComponentID t)) <$> translations in
          let stillMissing :=
            filter (fun id => uuid.String id ∉ foundIDs) missingFromCache in
          match stillMissing with
          | [] => ret (inr results)
          | _ :: _ =>
              let* found1 :=
                database.Find (where_active_slot_in stillMissing locale stage 1) in
              let version1Translations :=
                match found1 with inr rows => rows | inl _ => [] end in
              let* results := collect locale stage version1Translations results in
              ret (inr results)
          end
      end
  end.

Definition SaveTranslation (componentID : UUID) (locale : string)
    (stage : DeploymentStage) (data : JSONB) (userID : UUID)
  : M (Result TranslationVersion) :=
  let* result := database.First (where_slot componentID locale stage 2) in
  let* saved :=
    match result with
    | inl ErrRecordNotFound =>
        database.Create
          {| ID := uuid.Nil; ComponentID := componentID; Locale := locale;
             Stage := stage; Version := 2; Data := data; IsActive := true;
             CreatedBy := userID; UpdatedBy := userID; DeletedAt := false |}
    | inl _ =>
        (* the lookup failed and left [existing] at its zero value *)
        database.Save (with_UpdatedBy userID (with_Data data zero_TranslationVersion))
    | inr existing =>
        database.Save (with_UpdatedBy userID (with_Data data existing))
    end in
  match saved with
  | inl err => ret (inl err)
  | inr existing =>
      let* result := database.First (where_slot componentID locale stage 1) in
      let* _ :=
        match result with
        | inl ErrRecordNotFound =>
            let* _ :=
              database.Create
                {| ID := uuid.Nil; ComponentID := componentID; Locale := locale;
                   Stage := stage; Version := 1; Data := data; IsActive := true;
                   CreatedBy := uuid.Nil; UpdatedBy := uuid.Nil; DeletedAt := false |} in
            ret tt
        | _ => ret tt
        end in
      let* _ := cache.Delete (cacheKey_of componentID locale stage) in
      let* _ := cache.Delete (cache.ComponentKey (uuid.String componentID)) in
      let* _ := database.CleanupOldVersions in
      ret (inr existing)
  end.

Definition RevertTranslation (componentID : UUID) (locale : string)
    (stage : DeploymentStage) : M (Result unit) :=
  let* found1 := database.First (where_slot componentID locale stage 1) in
  match found1 with
  | inl err => ret (inl (Errorf "no previous version found" err))
  | inr version1 =>
      let* result := database.First (where_slot componentID locale stage 2) in
      match result with
      | inl ErrRecordNotFound =>
          let* created :=
            database.Create
              {| ID := uuid.Nil; ComponentID := componentID; Locale := locale;
                 Stage := stage; Version := 2; Data := Data version1; IsActive := true;
                 CreatedBy := uuid.Nil; UpdatedBy := uuid.Nil; DeletedAt := false |} in
          match created with
          | inl err => ret (inl err)
          | inr _ => ret (inr tt)
          end
      | _ =>
          let version2 :=
            match result with inr row => row | inl _ => zero_TranslationVersion end in
          let* saved := database.Save (with_Data (Data version1) version2) in
          match saved with
          | inl err => ret (inl err)
          | inr _ =>
              let* _ := cache.Delete (cacheKey_of componentID locale stage) in
              ret (inr tt)
          end
      end
  end.

Definition DeployToStage (componentID : UUID) (locale : string)
    (fromStage toStage : DeploymentStage) (userID : UUID) : M (Result unit) :=
  let* got := GetTranslation componentID locale fromStage in
  match got with
  | inl err => ret (inl (Errorf "source translation not found" err))
  | inr source =>
      let* saved := SaveTranslation componentID locale toStage (Data source) userID in
      match saved with
      | inl err => ret (inl err)
      | inr _ => ret (inr tt)
      end
  end.

(** ** services/translation_service.go: the bulk read by codes *)

Section Codes.

(** The [code] columns of [applications] and of [components], which the
    records above leave out: the code of a row. *)
Variable application_Code : Application -> string.
Variable component_Code : Component -> string.

(** [DB.Where("code = ?", applicationCode).First(&application)]. *)
Definition FirstApplicationByCode (applicationCode : string) : M (Result Application) :=
  let* failed := database.fault in
  if failed : bool then ret (inl ErrDriver)
  else fun w =>
    let matching :=
      filter (fun a => application_DeletedAt a = false
                       ∧ application_Code a = applicationCode) (applications w) in
    match foldr (fun a acc =>
                   match acc with
                   | None => Some a
                   | Some a' =>
                       if decide (application_ID a ≤ application_ID a')%N
                       then Some a else Some a'
                   end) None matching with
    | Some a => (inr a, w)
    | None => (inl ErrRecordNotFound, w)
    end.

(** [DB.Where("code IN ? AND application_id = ?", componentCodes,
    application.ID).Find(&components)]. *)
Definition FindComponentsByCodes (componentCodes : list string) (applicationID : UUID)
  : M (Result (list Component)) :=
  let* failed := database.fault in
  if failed : bool then ret (inl ErrDriver)
  else fun w =>
    (inr (filter (fun c => component_DeletedAt c = false
                           ∧ component_Code c ∈ componentCodes
                           ∧ component_ApplicationID c = applicationID)
                 (components w)), w).

(** [fmt.Sprintf("%v", codes)] for a slice of strings. *)
Definition Sprint_strings (codes : list string) : string :=
  "[" +:+ strings.Join codes " " +:+ "]".

Definition GetMultipleTranslationsByCodes (applicationCode : string)
    (componentCodes : list string) (locale : string) (stage : DeploymentStage)
  : M (Result (gmap string TranslationVersion)) :=
  let* found := FirstApplicationByCode applicationCode in
  match found with
  | inl err => ret (inl (Errorf "application not found" err))
  | inr application =>
      let* resolved :=
        FindComponentsByCodes componentCodes (application_ID application) in
      match resolved with
      | inl err => ret (inl (Errorf "failed to resolve component codes" err))
      | inr components =>
          let codeToID : gmap string UUID :=
            foldl (fun m component => <[component_Code component := component_ID component]> m)
                  ∅ components in
          let idToCode : gmap UUID string :=
            foldl (fun m component => <[component_ID component := component_Code component]> m)
                  ∅ components in
          let componentIDs := component_ID <$> components in
          let missingCodes :=
            filter (fun code => codeToID !! code = None) componentCodes in
          match missingCodes with
          | _ :: _ =>
              ret (inl (ErrNew ("component codes not found: "
                                +:+ Sprint_strings missingCodes)))
          | [] =>
              let* got := GetMultipleTranslations componentIDs locale stage in
              match got with
              | inl err => ret (inl err)
              | inr translations =>
                  ret (inr (map_fold
                              (fun _ translation (result : gmap string TranslationVersion) =>
                                 match idToCode !! ComponentID translation with
                                 | Some code => <[code := translation]> result
                                 | None => result
                                 end)
                              ∅ translations))
              end
          end
      end
  end.

End Codes.

(** ** handlers/translation_handler.go: backfill *)

Record BackfillRequest : Type := {
  SourceLocale : string;
  TargetLocales : list string;
  BackfillStage : string
}.

(** What the handler writes with [c.JSON]: a status and either
    [gin.H{"error": msg}] or the list of saved rows. *)
Inductive ResponseBody : Type :=
  | BodyError (msg : string)
  | BodyResults (results : list TranslationVersion).

Record Response : Type := { status : nat; body : ResponseBody }.

Definition StatusOK : nat := 200.
Definition StatusBadRequest : nat := 400.
Definition StatusNotFound : nat := 404.
Definition StatusInternalServerError : nat := 500.

Section Handlers.

Variable engine : string -> string -> Reply.

(** [for _, targetLocale := range req.TargetLocales], with [results] the
    rows appended so far; the loop ends in the response of the handler. *)
Fixpoint backfill_loop (openAIService : OpenAIService) (componentID : UUID)
    (sourceData : JSONB) (sourceLocale : string) (stage : DeploymentStage)
    (userID : UUID) (targetLocales : list string) (results : list TranslationVersion)
  : M Response :=
  match targetLocales with
  | [] => ret {| status := StatusOK; body := BodyResults results |}
  | targetLocale :: rest =>
      match TranslateJSON engine openAIService sourceData sourceLocale targetLocale with
      | inl err =>
          ret {| status := StatusInternalServerError;
                 body := BodyError ("Failed to translate to " +:+ targetLocale
                                    +:+ ": " +:+ Error err) |}
      | inr translatedData =>
          let* saved :=
            SaveTranslation componentID targetLocale stage translatedData userID in
          match saved with
          | inl _ =>
              ret {| status := StatusInternalServerError;
                     body := BodyError ("Failed to save translation for "
                                        +:+ targetLocale) |}
          | inr translation =>
              backfill_loop openAIService componentID sourceData sourceLocale stage
                userID rest (results ++ [translation])
          end
      end
  end.

(** [BackfillTranslations].  [idParam] is the outcome of [uuid.Parse] on
    the path parameter, [bound] the outcome of [c.ShouldBindJSON], and
    [userID] what [getCurrentUser] reads from the context. *)
Definition BackfillTranslations (idParam : Result UUID) (bound : Result BackfillRequest)
    (userID : UUID) : M Response :=
  match idParam with
  | inl _ => ret {| status := StatusBadRequest; body := BodyError "Invalid component ID" |}
  | inr componentID =>
  match bound with
  | inl err => ret {| status := StatusBadRequest; body := BodyError (Error err) |}
  | inr req =>
  let* foundComponent := database.FirstComponent componentID in
  match foundComponent with
  | inl _ => ret {| status := StatusNotFound; body := BodyError "Component not found" |}
  | inr component =>
  let* foundApplication :=
    database.FirstApplication (component_ApplicationID component) in
  match foundApplication with
  | inl _ => ret {| status := StatusNotFound; body := BodyError "Application not found" |}
  | inr application =>
  let stage : DeploymentStage := BackfillStage req in
  let* got := GetTranslation componentID (SourceLocale req) stage in
  match got with
  | inl _ =>
      ret {| status := StatusNotFound; body := BodyError "Source translation not found" |}
  | inr sourceTranslation =>
      fun w =>
        let openAIService :=
          if String.eqb (application_OpenAIKey application) ""
          then NewOpenAIService (OPENAI_API_KEY w)
          else NewOpenAIService (application_OpenAIKey application) in
        backfill_loop openAIService componentID (Data sourceTranslation)
          (SourceLocale req) stage userID (TargetLocales req) [] w
  end end end end end.

End Handlers.

(** ** The handlers of the other routes *)

(** What a handler writes besides the status: [gin.H{"error": msg}],
    [gin.H{"message": msg}], a row, the map of the bulk read, the two
    versions of the comparison (their [created_at] is left out with the
    time stamps), or a JSON file sent as an attachment. *)
Inductive Payload : Type :=
  | H_error (msg : string)
  | H_message (msg : string)
  | of_TranslationVersion (translation : TranslationVersion)
  | of_response (response : gmap string JSONB)
  | of_versions (version1 version2 : option JSONB)
  | attachment (filename : string) (content : JSON).

Record Answer : Type := { answer_code : nat; answer : Payload }.

(** [h.translationService]. *)
Module translationService.
Abbreviation GetTranslation := GetTranslation.
Abbreviation GetMultipleTranslations := GetMultipleTranslations.
Abbreviation GetMultipleTranslationsByCodes := GetMultipleTranslationsByCodes.
Abbreviation SaveTranslation := SaveTranslation.
Abbreviation RevertTranslation := RevertTranslation.
End translationService.

(** [stage := models.DeploymentStage(stageStr); if stage == "" { stage = default }]. *)
Definition stage_or (default : DeploymentStage) (stageStr : string) : DeploymentStage :=
  if String.eqb stageStr "" then default else stageStr.

Module handlers.

Section Routes.

(** [uuid.Parse], and the [code] columns. *)
Variable Parse : string -> Result UUID.
Variable application_Code : Application -> string.
Variable component_Code : Component -> string.

(** [GetTranslation]; [idParam] is the outcome of [uuid.Parse] on the
    path parameter, [locale] and [stageStr] are the query parameters. *)
Definition GetTranslation (idParam : Result UUID) (locale stageStr : string) : M Answer :=
  let locale := if String.eqb locale "" then "en" else locale in
  let stage := stage_or StageProduction stageStr in
  match idParam with
  | inl _ =>
      ret {| answer_code := StatusBadRequest; answer := H_error "Invalid component ID" |}
  | inr componentID =>
      let* got := translationService.GetTranslation componentID locale stage in
      match got with
      | inl _ =>
          ret {| answer_code := StatusNotFound; answer := H_error "Translation not found" |}
      | inr translation =>
          ret {| answer_code := StatusOK; answer := of_TranslationVersion translation |}
      end
  end.

(** The loop over the codes of the request: blank entries are skipped. *)
Fixpoint componentCodes_of (componentCodeStrings componentCodes : list string)
  : list string :=
  match componentCodeStrings with
  | [] => componentCodes
  | codeStr :: rest =>
      let codeStr := strings.TrimSpace codeStr in
      if String.eqb codeStr "" then componentCodes_of rest componentCodes
      else componentCodes_of rest (componentCodes ++ [codeStr])
  end.

(** The loop over the identifiers of the request; [inl idStr] when
    [idStr] does not parse, which ends the handler. *)
Fixpoint componentIDs_of (componentIDStrings : list string) (componentIDs : list UUID)
  : string + list UUID :=
  match componentIDStrings with
  | [] => inr componentIDs
  | idStr :: rest =>
      let idStr := strings.TrimSpace idStr in
      if String.eqb idStr "" then componentIDs_of rest componentIDs
      else match Parse idStr with
           | inl _ => inl idStr
           | inr componentID => componentIDs_of rest (componentIDs ++ [componentID])
           end
  end.

Definition GetMultipleTranslations
    (componentIDsStr componentCodesStr applicationCode locale stageStr : string)
  : M Answer :=
  if String.eqb componentIDsStr "" && String.eqb componentCodesStr "" then
    ret {| answer_code := StatusBadRequest;
           answer := H_error "Either component_ids or component_codes parameter is required" |}
  else
    let locale := if String.eqb locale "" then "en" else locale in
    let stage := stage_or StageProduction stageStr in
    if negb (String.eqb componentCodesStr "") then
      if String.eqb applicationCode "" then
        ret {| answer_code := StatusBadRequest;
               answer := H_error "application_code parameter is required when using component_codes" |}
      else
        let componentCodes :=
          componentCodes_of (strings.Split componentCodesStr ",") [] in
        match componentCodes with
        | [] =>
            ret {| answer_code := StatusBadRequest;
                   answer := H_error "At least one valid component code is required" |}
        | _ :: _ =>
            let* got :=
              translationService.GetMultipleTranslationsByCodes
                application_Code component_Code applicationCode componentCodes
                locale stage in
            match got with
            | inl err =>
                ret {| answer_code := StatusBadRequest; answer := H_error (Error err) |}
            | inr translations =>
                ret {| answer_code := StatusOK;
                       answer := of_response (Data <$> translations) |}
            end
        end
    else
      match componentIDs_of (strings.Split componentIDsStr ",") [] with
      | inl idStr =>
          ret {| answer_code := StatusBadRequest;
                 answer := H_error ("Invalid component ID: " +:+ idStr) |}
      | inr componentIDs =>
          if decide (length componentIDs = 0) then
            ret {| answer_code := StatusBadRequest;
                   answer := H_error "At least one valid component ID is required" |}
          else
            let* got :=
              translationService.GetMultipleTranslations componentIDs locale stage in
            match got with
            | inl err =>
                ret {| answer_code := StatusInternalServerError;
                       answer := H_error (Error err) |}
            | inr translations =>
                ret {| answer_code := StatusOK;
                       answer := of_response (Data <$> translations) |}
            end
      end.

Definition RevertTranslation (idParam : Result UUID) (locale stageStr : string)
  : M Answer :=
  if String.eqb locale "" then
    ret {| answer_code := StatusBadRequest; answer := H_error "Locale is required" |}
  else
    let stage := stage_or StageDraft stageStr in
    match idParam with
    | inl _ =>
        ret {| answer_code := StatusBadRequest; answer := H_error "Invalid component ID" |}
    | inr componentID =>
        let* reverted := translationService.RevertTranslation componentID locale stage in
        match reverted with
        | inl err =>
            ret {| answer_code := StatusBadRequest; answer := H_error (Error err) |}
        | inr _ =>
            ret {| answer_code := StatusOK; answer := H_message "Translation reverted" |}
        end
    end.

Definition GetVersionComparison (idParam : Result UUID) (locale stageStr : string)
  : M Answer :=
  if String.eqb locale "" then
    ret {| answer_code := StatusBadRequest; answer := H_error "Locale is required" |}
  else
    let stage := stage_or StageDraft stageStr in
    match idParam with
    | inl _ =>
        ret {| answer_code := StatusBadRequest; answer := H_error "Invalid component ID" |}
    | inr componentID =>
        let* result1 := database.First (where_slot componentID locale stage 1) in
        let* result2 := database.First (where_slot componentID locale stage 2) in
        let version_of (result : Result TranslationVersion) : option JSONB :=
          match result with
          | inr version => Some (Data version)
          | inl _ => None
          end in
        ret {| answer_code := StatusOK;
               answer := of_versions (version_of result1) (version_of result2) |}
    end.

(** [ImportComponent]; [bound] is the outcome of [c.ShouldBindJSON] with
    the data of the request, and [userID] what the context holds. *)
Definition ImportComponent (idParam : Result UUID) (locale stageStr : string)
    (bound : Result JSONB) (userID : UUID) : M Answer :=
  if String.eqb locale "" then
    ret {| answer_code := StatusBadRequest; answer := H_error "Locale is required" |}
  else
    match idParam with
    | inl _ =>
        ret {| answer_code := StatusBadRequest; answer := H_error "Invalid component ID" |}
    | inr componentID =>
        let stage := stage_or StageDraft stageStr in
        match bound with
        | inl err =>
            ret {| answer_code := StatusBadRequest; answer := H_error (Error err) |}
        | inr jsonData =>
            let* saved :=
              translationService.SaveTranslation componentID locale stage jsonData userID in
            match saved with
            | inl err =>
                ret {| answer_code := StatusInternalServerError;
                       answer := H_error (Error err) |}
            | inr translation =>
                ret {| answer_code := StatusOK;
                       answer := of_TranslationVersion translation |}
            end
        end
    end.

(** The [Where] clause of the export of all locales. *)
Definition where_exported (componentID : UUID) (stage : DeploymentStage)
    (r : TranslationVersion) : Prop :=
  ComponentID r = componentID ∧ Stage r = stage ∧ IsActive r = true ∧ Version r = 2%Z.

#[global] Instance where_exported_dec c s r : Decision (where_exported c s r).
Proof. unfold where_exported. apply _. Defined.

Definition ExportComponent (idParam : Result UUID) (locale stageStr : string)
  : M Answer :=
  match idParam with
  | inl _ =>
      ret {| answer_code := StatusBadRequest; answer := H_error "Invalid component ID" |}
  | inr componentID =>
      let stage := stage_or StageProduction stageStr in
      if negb (String.eqb locale "") then
        let* got := translationService.GetTranslation componentID locale stage in
        match got with
        | inl _ =>
            ret {| answer_code := StatusNotFound;
                   answer := H_error "Translation not found" |}
        | inr translation =>
            ret {| answer_code := StatusOK;
                   answer := attachment ("component_" +:+ locale +:+ ".json")
                                        (JObj (Data translation)) |}
        end
      else
        let* found := database.Find (where_exported componentID stage) in
        match found with
        | inl err =>
            ret {| answer_code := StatusInternalServerError;
                   answer := H_error (Error err) |}
        | inr translations =>
            let exportData : gmap string JSON :=
              foldl (fun exportData trans => <[Locale trans := JObj (Data trans)]> exportData)
                    ∅ translations in
            ret {| answer_code := StatusOK;
                   answer := attachment "component_all.json" (JObj exportData) |}
        end
  end.

End Routes.

End handlers.

(** * Notions used in the statements *)

(** ** Placeholders *)

(** The text ["]"]. *)
Definition closing : string := String regexp.rbracket EmptyString.

(** ** Payloads *)

Fixpoint json_size (v : JSON) : nat :=
  match v with
  | JObj m => S (map_fold (fun _ v' n => json_size v' + n) 0 m)
  | _ => 1
  end.

(** Two values with the same keys at every nesting level: objects have
    the same key set and, key by key, values with the same keys; a string
    stays a string; any other value is unchanged. *)
Inductive same_keys : JSON -> JSON -> Prop :=
  | same_keys_obj (m m' : gmap string JSON) :
      dom m = dom m' ->
      (forall key v v', m !! key = Some v -> m' !! key = Some v' -> same_keys v v') ->
      same_keys (JObj m) (JObj m')
  | same_keys_str (s s' : string) : same_keys (JStr s) (JStr s')
  | same_keys_other (v : JSON) :
      (forall m, v <> JObj m) -> (forall s, v <> JStr s) -> same_keys v v.

(** The body of the loop of [TranslateJSON], as a function of the entry
    and of the result so far. *)
Definition TranslateJSON_entry (engine : string -> string -> Reply)
    (s : OpenAIService) (sourceLang targetLang : string)
    (key : string) (value : JSON) (acc : Result (gmap string JSON))
  : Result (gmap string JSON) :=
  match acc with
  | inl e => inl e
  | inr result =>
      match value with
      | JStr v' =>
          match Translate engine s v' sourceLang targetLang with
          | inl err => inl (Errorf ("error translating key " +:+ key) err)
          | inr translated => inr (<[key := JStr translated]> result)
          end
      | JObj _ =>
          match TranslateJSON_rec engine s sourceLang targetLang value with
          | inl err => inl err
          | inr translated => inr (<[key := JObj translated]> result)
          end
      | _ => inr (<[key := value]> result)
      end
  end.

(** What [TranslateJSON] puts under a key that holds [v]: the translation
    of a string, the translation of a nested object, and any other value
    as it is. *)
Definition translated_entry (engine : string -> string -> Reply) (s : OpenAIService)
    (sourceLang targetLang : string) (v v' : JSON) : Prop :=
  match v with
  | JStr text =>
      exists translated,
        Translate engine s text sourceLang targetLang = inr translated
        /\ v' = JStr translated
  | JObj m =>
      exists result,
        TranslateJSON engine s m sourceLang targetLang = inr result /\ v' = JObj result
  | _ => v' = v
  end.

(** The value can be translated: a string by [Translate], a nested object
    by [TranslateJSON]; any other value is copied. *)
Definition translatable (engine : string -> string -> Reply) (s : OpenAIService)
    (sourceLang targetLang : string) (v : JSON) : Prop :=
  match v with
  | JStr text => exists translated,
      Translate engine s text sourceLang targetLang = inr translated
  | JObj m => exists result,
      TranslateJSON engine s m sourceLang targetLang = inr result
  | _ => True
  end.

(** The value holds a string that [TranslateJSON] reaches: it is a string,
    or an object with such a value under some key.  The elements of an array
    are not reached. *)
Inductive holds_text : JSON -> Prop :=
  | holds_text_str (text : string) : holds_text (JStr text)
  | holds_text_obj (m : gmap string JSON) (key : string) (v : JSON) :
      m !! key = Some v -> holds_text v -> holds_text (JObj m).

(** ** The store *)

(** The store serves every request. *)
Definition healthy (w : World) : Prop := db_faults w = [].

(** What the schema and the writes of the service maintain: the primary
    key is unique and never [uuid.Nil], and every row is active. *)
Definition store_ok (rows : list TranslationVersion) : Prop :=
  NoDup (ID <$> rows)
  /\ Forall (fun r => ID r <> uuid.Nil /\ IsActive r = true) rows.

(** The row a lookup of a slot finds. *)
Definition slot (c : UUID) (l s : string) (v : Z) (rows : list TranslationVersion)
  : option TranslationVersion :=
  database.least_id (database.select (where_slot c l s v) rows).

Definition active_slot (c : UUID) (l s : string) (v : Z)
    (rows : list TranslationVersion) : option TranslationVersion :=
  database.least_id (database.select (where_active_slot c l s v) rows).

(** The update of [DB.Save] and the soft delete of the cleanup, row by row. *)
Definition update (row r : TranslationVersion) : TranslationVersion :=
  if decide (ID r = ID row) then row else r.

Definition cleaned (r : TranslationVersion) : TranslationVersion :=
  if decide (database.live r /\ (Version r > 2)%Z) then with_DeletedAt true r else r.

(** Two rows for the same slot: same key, version and flags. *)
Definition same_slot (e e' : TranslationVersion) : Prop :=
  ID e' = ID e /\ ComponentID e' = ComponentID e /\ Locale e' = Locale e
  /\ Stage e' = Stage e /\ Version e' = Version e /\ IsActive e' = IsActive e
  /\ DeletedAt e' = DeletedAt e.

(** The row the service inserts for a slot. *)
Definition new_row (c : UUID) (l s : string) (v : Z) (d : JSONB) (u : UUID)
    (rows : list TranslationVersion) : TranslationVersion :=
  {| ID := database.fresh_id rows; ComponentID := c; Locale := l; Stage := s;
     Version := v; Data := d; IsActive := true; CreatedBy := u; UpdatedBy := u;
     DeletedAt := false |}.

(** A key no row was ever written for. *)
Definition fresh_key (c : UUID) (l s : string) (rows : list TranslationVersion) : Prop :=
  forall r, r ∈ rows -> ~ (ComponentID r = c /\ Locale r = l /\ Stage r = s).

(** Further saves of a key, one payload and user after the other; the
    rows they return are dropped. *)
Definition later_saves (c : UUID) (l s : string) (later : list (JSONB * UUID)) : M unit :=
  foldM (fun _ save => let* _ := SaveTranslation c l s save.1 save.2 in ret tt) later tt.

(** At most one live row for a component, locale, stage and version. *)
Definition one_row_per_slot (rows : list TranslationVersion) : Prop :=
  forall r1 r2, r1 ∈ rows -> r2 ∈ rows -> database.live r1 -> database.live r2 ->
    ComponentID r1 = ComponentID r2 -> Locale r1 = Locale r2 -> Stage r1 = Stage r2 ->
    Version r1 = Version r2 -> r1 = r2.

(** ** The bulk read *)

(** The component has an active row in the slot. *)
Definition has_row (w : World) (l s : string) (v : Z) (c : UUID) : Prop :=
  Exists (fun r => database.live r /\ where_active_slot c l s v r)
         (translation_versions w).

(** The component has a cache entry for the locale and stage. *)
Definition cached (w : World) (l s : string) (c : UUID) : Prop :=
  is_Some (redis w !! cacheKey_of c l s).

Definition has_data (w : World) (l s : string) (c : UUID) : Prop :=
  cached w l s c \/ has_row w l s 2 c \/ has_row w l s 1 c.

#[global] Instance has_data_dec w l s c : Decision (has_data w l s c).
Proof. unfold has_data, cached, has_row. apply _. Defined.

(** The keys of a result map: the texts of a list of identifiers. *)
Definition keys_of (ids : list UUID) : gset string :=
  list_to_set (uuid.String <$> ids).

(** ** The cache *)

(** A cache entry of a key holds a row of the component of the key. *)
Definition cache_ok (w : World) : Prop :=
  forall c l s t, redis w !! cacheKey_of c l s = Some t -> ComponentID t = c.

(** A cache entry under the key of a component, a locale without colon
    and a stage holds a row of that component, locale and stage. *)
Definition cache_exact (w : World) : Prop :=
  forall c l s t, strings.Contains l ":" = false ->
    redis w !! cacheKey_of c l s = Some t ->
    ComponentID t = c /\ Locale t = l /\ Stage t = s.

(** Every entry of the map is under the text of its component. *)
Definition coherent (m : gmap string TranslationVersion) : Prop :=
  forall k t, m !! k = Some t -> k = uuid.String (ComponentID t).

(** A computation that adds nothing to the cache. *)
Definition adds_no_entry {A : Type} (m : M A) : Prop :=
  forall w k v, redis (m w).2 !! k = Some v -> redis w !! k = Some v.

(** ** Sequences of calls *)

(** A call of the translation service. *)
Inductive call : Type :=
  | call_GetTranslation (componentID : UUID) (locale stage : string)
  | call_GetMultipleTranslations (componentIDs : list UUID) (locale stage : string)
  | call_SaveTranslation (componentID : UUID) (locale stage : string)
      (data : JSONB) (userID : UUID)
  | call_RevertTranslation (componentID : UUID) (locale stage : string)
  | call_DeployToStage (componentID : UUID) (locale fromStage toStage : string)
      (userID : UUID).

(** The call is made and its result dropped. *)
Definition run_call (k : call) : M unit :=
  match k with
  | call_GetTranslation c l s => let* _ := GetTranslation c l s in ret tt
  | call_GetMultipleTranslations cs l s => let* _ := GetMultipleTranslations cs l s in ret tt
  | call_SaveTranslation c l s d u => let* _ := SaveTranslation c l s d u in ret tt
  | call_RevertTranslation c l s => let* _ := RevertTranslation c l s in ret tt
  | call_DeployToStage c l s s' u => let* _ := DeployToStage c l s s' u in ret tt
  end.

Definition run_calls (ks : list call) : M unit :=
  foldM (fun _ k => run_call k) ks tt.

(** The locale of a call. *)
Definition call_locale (k : call) : string :=
  match k with
  | call_GetTranslation _ locale _ => locale
  | call_GetMultipleTranslations _ locale _ => locale
  | call_SaveTranslation _ locale _ _ _ => locale
  | call_RevertTranslation _ locale _ => locale
  | call_DeployToStage _ locale _ _ _ => locale
  end.

(** ** Codes *)

(** The application has a live component with the code. *)
Definition resolves (component_Code : Component -> string) (w : World)
    (applicationID : UUID) (code : string) : Prop :=
  Exists (fun c => component_DeletedAt c = false /\ component_Code c = code
                   /\ component_ApplicationID c = applicationID) (components w).

(** What the schema says of [components]: the primary key is unique, and
    so is the code among the live components of an application. *)
Definition components_ok (component_Code : Component -> string) (w : World) : Prop :=
  NoDup (component_ID <$> components w)
  /\ forall c1 c2, c1 ∈ components w -> c2 ∈ components w ->
       component_DeletedAt c1 = false -> component_DeletedAt c2 = false ->
       component_ApplicationID c1 = component_ApplicationID c2 ->
       component_Code c1 = component_Code c2 -> c1 = c2.

(** ** Faults *)

(** The state with a store that serves every request. *)
Definition calm (w : World) : World := with_db_faults [] w.

(** Between [w] and [w'] the store served every request: the part of the
    schedule that was used up holds no fault. *)
Definition served (w w' : World) : Prop :=
  exists k, db_faults w = replicate k false ++ db_faults w'.

(** The two states differ at most in the fault schedule. *)
Definition same_data (w w' : World) : Prop :=
  translation_versions w' = translation_versions w
  /\ redis w' = redis w
  /\ components w' = components w
  /\ applications w' = applications w
  /\ OPENAI_API_KEY w' = OPENAI_API_KEY w.

(** A computation that only takes entries from the front of the schedule,
    and that runs the same on the calm state when it met no fault. *)
Definition transparent {A : Type} (m : M A) : Prop :=
  forall w a w', m w = (a, w') ->
    (exists used, db_faults w = used ++ db_faults w')
    /\ (served w w' -> m (calm w) = (a, calm w')).

(** A computation that neither reads nor writes the schedule. *)
Definition fault_free {A : Type} (m : M A) : Prop :=
  forall w, db_faults (m w).2 = db_faults w
            /\ forall fs, m (with_db_faults fs w) = ((m w).1, with_db_faults fs (m w).2).

(** ** The backfill *)

(** The translation of the source into [l] is what the current slot of
    [l] holds, and no cache entry hides it. *)
Definition persisted (engine : string -> string -> Reply) (svc : OpenAIService)
    (c : UUID) (sourceData : JSONB) (src stage : string) (l : string) (w : World)
  : Prop :=
  exists t, slot c l stage 2 (translation_versions w) = Some t
            /\ TranslateJSON engine svc sourceData src l = inr (Data t)
            /\ redis w !! cacheKey_of c l stage = None.

(** A row the backfill saved for the target [l]. *)
Definition backfilled (engine : string -> string -> Reply) (svc : OpenAIService)
    (c : UUID) (sourceData : JSONB) (src stage : string)
    (t : TranslationVersion) (l : string) : Prop :=
  ComponentID t = c /\ Locale t = l /\ Stage t = stage
  /\ TranslateJSON engine svc sourceData src l = inr (Data t).

(** The target [l] can be read back once the store answers, and what is
    read is the translation of the source into [l]. *)
Definition retrievable (engine : string -> string -> Reply) (svc : OpenAIService)
    (c : UUID) (source : TranslationVersion) (src stage : string) (w : World)
    (l : string) : Prop :=
  exists t w', GetTranslation c l stage (calm w) = (inr t, w')
               /\ TranslateJSON engine svc (Data source) src l = inr (Data t).

(** What the backfill handler reads before its loop, on a store that
    answers: the component of the request, the application of the
    component, and the translation of the source locale; [svc] is the
    service it builds from the key of the application, or from the key of
    the environment when the application has none, and [source] the row it
    translates from. *)
Definition backfill_reads (c : UUID) (src stage : string) (w : World)
    (svc : OpenAIService) (source : TranslationVersion) : Prop :=
  exists component application w0,
    database.FirstComponent c (calm w) = (inr component, calm w)
    /\ database.FirstApplication (component_ApplicationID component) (calm w)
       = (inr application, calm w)
    /\ GetTranslation c src stage (calm w) = (inr source, w0)
    /\ svc = if String.eqb (application_OpenAIKey application) ""
             then NewOpenAIService (OPENAI_API_KEY w)
             else NewOpenAIService (application_OpenAIKey application).

(** The bound request of a backfill. *)
Definition backfill_request (sourceLocale : string) (targets : list string)
    (stage : string) : Result BackfillRequest :=
  inr {| SourceLocale := sourceLocale; TargetLocales := targets;
         BackfillStage := stage |}.

(** ** Concrete inputs *)

Definition demo_payload : JSONB :=
  {[ "greeting" := JStr "Hi [name]!";
     "form" := JObj {[ "label" := JStr "Email"; "max" := JNum 64 ]} ]}.

Definition demo_row (id : UUID) (locale : string) (version : Z) : TranslationVersion :=
  {| ID := id; ComponentID := 7; Locale := locale; Stage := StageDraft;
     Version := version; Data := demo_payload; IsActive := true;
     CreatedBy := 1; UpdatedBy := 1; DeletedAt := false |}.

(** A state with one application, one component, and the given rows,
    cache and fault schedule. *)
Definition demo_world (rows : list TranslationVersion)
    (entries : gmap string TranslationVersion) (faults : list bool) : World :=
  {| translation_versions := rows;
     components := [ {| component_ID := 7; component_ApplicationID := 3;
                        component_DeletedAt := false |} ];
     applications := [ {| application_ID := 3; application_OpenAIKey := "sk-test";
                          application_DeletedAt := false |} ];
     redis := entries; db_faults := faults; OPENAI_API_KEY := "" |}.

(** An engine that is out of quota for Spanish and answers every other
    request with the same text. *)
Definition demo_engine (key prompt : string) : Reply :=
  if strings.Contains prompt " to es. " then ReplyStatus "quota exceeded"
  else ReplyChoices ["Halo [name]!"].

(** An engine that drops the placeholder. *)
Definition forgetful_engine (key prompt : string) : Reply :=
  ReplyChoices ["Hola!"].

(** A payload without text: a number and an array. *)
Definition limits_payload : JSONB :=
  {[ "max" := JNum 64; "tags" := JArr [JStr "new"; JStr "sale"] ]}.

(** The table of a key saved once: slot 2 and slot 1 of component 7 in
    English. *)
Definition demo_rows : list TranslationVersion :=
  [demo_row 1 "en" 2; demo_row 2 "en" 1].

(** The codes of the rows of [demo_world]. *)
Definition demo_application_Code (a : Application) : string := "whatsapp".
Definition demo_component_Code (c : Component) : string := "pdp_form".

(** * Properties *)

#[local] Arguments Ascii.eqb : simpl never.

(** ** White space *)

Lemma HasPrefix_drop_length s p :
  strings.HasPrefix s p = true →
  String.length (strings.drop (String.length p) s) + String.length p = String.length s.
Proof.
  revert s. induction p as [|a p IH]; intros s; [simpl; lia|].
  destruct s as [|b s]; simpl; [done|]. destruct (Ascii.eqb a b); [|done].
  intros H. apply IH in H. lia.
Qed.

(** The fuel of [trim_left] is enough: with as many steps as the text has
    bytes, nothing of the table is left at the front. *)
Lemma trim_left_done table fuel s :
  Forall (fun sp => sp ≠ EmptyString) table →
  String.length s ≤ fuel →
  strings.leading table (strings.trim_left table fuel s) = None.
Proof.
  intros Htable. revert s. induction fuel as [|fuel IH]; intros s Hlen.
  - destruct s; [|simpl in Hlen; lia]. simpl. unfold strings.leading.
    induction Htable as [|sp table Hsp _ IHt]; [done|].
    simpl. by destruct sp.
  - simpl. destruct (strings.leading table s) as [sp|] eqn:Hsp; [|done].
    apply IH. unfold strings.leading in Hsp. apply List.find_some in Hsp as [Hin Hpre].
    rewrite Forall_forall in Htable. apply list_elem_of_In, Htable in Hin.
    apply HasPrefix_drop_length in Hpre. destruct sp; [done|]. simpl in *. lia.
Qed.

Lemma TrimSpace_no_leading_space s :
  strings.leading strings.white_space
    (strings.trim_left strings.white_space (String.length s) s) = None.
Proof.
  apply trim_left_done; [|done].
  unfold strings.white_space. by repeat constructor.
Qed.

Lemma length_string_of_list_ascii l :
  String.length (string_of_list_ascii l) = length l.
Proof. induction l as [|a l IH]; simpl; congruence. Qed.

Lemma length_list_ascii_of_string s :
  length (list_ascii_of_string s) = String.length s.
Proof. induction s as [|a s IH]; simpl; congruence. Qed.

Lemma String_length_rev s : String.length (strings.rev s) = String.length s.
Proof.
  unfold strings.rev.
  by rewrite length_string_of_list_ascii, length_rev, length_list_ascii_of_string.
Qed.

(** The same at the other end, on the reversed text. *)
Lemma TrimSpace_no_trailing_space s :
  let s1 := strings.trim_left strings.white_space (String.length s) s in
  strings.leading (map strings.rev strings.white_space)
    (strings.trim_left (map strings.rev strings.white_space) (String.length s1)
                       (strings.rev s1)) = None.
Proof.
  intros s1. apply trim_left_done; [|by rewrite String_length_rev].
  unfold strings.white_space. by repeat constructor.
Qed.

(** ** Placeholders *)

(** The inner loop of [FindAllStringSubmatch] is [match_group]. *)
Lemma FindAllStringSubmatch_cons c r :
  regexp.FindAllStringSubmatch (String c r) =
  if Ascii.eqb c regexp.lbracket
  then match regexp.match_group EmptyString r with
       | Some (g, rest) => (placeholder_of g, g) :: regexp.FindAllStringSubmatch rest
       | None => regexp.FindAllStringSubmatch r
       end
  else regexp.FindAllStringSubmatch r.
Proof.
  simpl. destruct (Ascii.eqb c regexp.lbracket); [|done].
  match goal with
  | |- ?F EmptyString r = _ =>
      assert (∀ t acc, F acc t =
                match regexp.match_group acc t with
                | Some (g, rest) =>
                    (placeholder_of g, g) :: regexp.FindAllStringSubmatch rest
                | None => regexp.FindAllStringSubmatch r
                end) as H
  end.
  { induction t as [|d t IH]; intros acc; simpl; [done|].
    destruct (Ascii.eqb d regexp.rbracket); [by destruct acc|apply IH]. }
  apply H.
Qed.

Lemma Contains_closing_cons d s :
  strings.Contains (String d s) closing
  = Ascii.eqb regexp.rbracket d || strings.Contains s closing.
Proof.
  simpl. destruct (Ascii.eqb regexp.rbracket d); [by destruct s|done].
Qed.

Lemma Contains_closing_snoc s d :
  strings.Contains (s +:+ String d EmptyString) closing
  = strings.Contains s closing || Ascii.eqb regexp.rbracket d.
Proof.
  induction s as [|a s IH].
  - simpl. by destruct (Ascii.eqb _ d).
  - change (String a s +:+ String d EmptyString)
      with (String a (s +:+ String d EmptyString)).
    rewrite !Contains_closing_cons, IH. by rewrite orb_assoc.
Qed.

(** A match of the group is not empty, leaves a shorter text, and holds a
    closing bracket only if the accumulator did. *)
Lemma match_group_Some acc t g rest :
  regexp.match_group acc t = Some (g, rest) →
  g ≠ EmptyString
  ∧ String.length rest < String.length t
  ∧ strings.Contains g closing = strings.Contains acc closing.
Proof.
  revert acc. induction t as [|d t IH]; intros acc; simpl; [done|].
  destruct (Ascii.eqb_spec d regexp.rbracket) as [->|Hd].
  - destruct acc as [|a acc]; [done|]. intros [= <- <-]. split_and!; [done|lia|done].
  - intros H. apply IH in H as (Hg & Hlen & Hno). split_and!; [done|lia|].
    rewrite Hno, Contains_closing_snoc.
    destruct (Ascii.eqb_spec regexp.rbracket d) as [<-|_]; [done|].
    by rewrite orb_false_r.
Qed.

(** Induction on the length of a string. *)
Lemma string_length_ind (P : string → Prop) :
  (∀ s, (∀ s', String.length s' < String.length s → P s') → P s) → ∀ s, P s.
Proof.
  intros step s. remember (S (String.length s)) as n eqn:Hn.
  assert (String.length s < n) as Hlt by lia. clear Hn.
  revert s Hlt. induction n as [|n IH]; intros s Hlt; [lia|].
  apply step. intros s' Hs'. apply IH. lia.
Qed.

(** Every match is a bracketed, non-empty group without closing bracket. *)
Lemma FindAllStringSubmatch_Forall s :
  Forall (fun m => m.1 = placeholder_of m.2
                   ∧ m.2 ≠ EmptyString
                   ∧ strings.Contains m.2 closing = false)
         (regexp.FindAllStringSubmatch s).
Proof.
  induction s as [s IH] using string_length_ind.
  destruct s as [|c r]; [constructor|].
  rewrite FindAllStringSubmatch_cons.
  destruct (Ascii.eqb c regexp.lbracket); [|apply IH; simpl; lia].
  destruct (regexp.match_group EmptyString r) as [[g rest]|] eqn:Hm;
    [|apply IH; simpl; lia].
  apply match_group_Some in Hm as (Hg & Hlen & Hno).
  constructor; [done|]. apply IH. simpl. lia.
Qed.

(** C10: every template value [ExtractTemplateValues] returns is a
    non-empty string without [']']; an empty pair of brackets is no match
    of the pattern, so it yields no value, and it is no position of the
    restoration either, which finds its positions with the same pattern. *)
Theorem template_values_are_nonempty_and_unclosed text :
  Forall (fun value => value ≠ EmptyString ∧ strings.Contains value "]" = false)
         (ExtractTemplateValues text)
  ∧ Forall (fun m => m.1 ≠ "[]") (regexp.FindAllStringSubmatch text)
  ∧ ExtractTemplateValues "[]" = []
  ∧ PreserveTemplateValues "Hi [name]!" "Hola []!" = "Hola []!".
Proof.
  pose proof (FindAllStringSubmatch_Forall text) as H.
  split_and!; [| |reflexivity|reflexivity].
  - unfold ExtractTemplateValues. apply Forall_fmap.
    eapply Forall_impl; [exact H|]. intros m (_ & ? & ?). done.
  - eapply Forall_impl; [exact H|]. intros [m g] (Hm & Hg & _) Heq. simpl in *.
    rewrite Hm in Heq. unfold placeholder_of in Heq.
    destruct g as [|a g]; [done|]. simpl in Heq. injection Heq as _ Hrest.
    by destruct g.
Qed.

(** A template value beyond the bracketed tokens of the translated text
    is left out: the step changes nothing. *)
Lemma preserve_step_beyond_matches i value result :
  length (regexp.FindAllStringSubmatch result) ≤ i →
  preserve_step i value result = result.
Proof.
  intros Hi. unfold preserve_step.
  destruct (negb (strings.Contains result (placeholder_of value))); [|done].
  by rewrite lookup_ge_None_2.
Qed.

(** C7: the restoration takes the match at the index of the missing
    value, but then replaces the first occurrence of the text of that
    match.  For the original ["Dear [first] [last]"] and the translation
    ["Hola [first] [first]"] the value ["last"], at index 1, is missing;
    the match at index 1 reads ["[first]"], whose first occurrence is the
    token at position 0: that one is replaced, not the one at position 1. *)
Theorem restoration_replaces_first_occurrence :
  ExtractTemplateValues "Dear [first] [last]" = ["first"; "last"]
  ∧ (regexp.FindAllStringSubmatch "Hola [first] [first]").*1 = ["[first]"; "[first]"]
  ∧ preserve_step 1 "last" "Hola [first] [first]" = "Hola [last] [first]"
  ∧ PreserveTemplateValues "Dear [first] [last]" "Hola [first] [first]"
    = "Hola [last] [first]"
  ∧ PreserveTemplateValues "Dear [first] [last]" "Hola [first] [first]"
    ≠ "Hola [first] [last]".
Proof. split_and!; [reflexivity..|]. vm_compute. discriminate. Qed.

(** C2: when the engine answers ["Hola!"] to ["Hi [name]!"], the
    translated text has no bracketed token to put the placeholder back
    into, and [Translate] returns ["Hola!"], without ["[name]"]. *)
Theorem translate_can_lose_the_placeholder :
  Translate forgetful_engine (NewOpenAIService "sk-test") "Hi [name]!" "en" "es"
  = inr "Hola!"
  ∧ ExtractTemplateValues "Hi [name]!" = ["name"]
  ∧ PreserveTemplateValues "Hi [name]!" "Hola!" = "Hola!"
  ∧ strings.Contains "Hola!" "[name]" = false.
Proof. split_and!; reflexivity. Qed.

(** ** Structured translation *)

Lemma json_size_lookup (m : gmap string JSON) key v :
  m !! key = Some v → json_size v < json_size (JObj m).
Proof.
  simpl. revert key v.
  induction m as [|i x m Hi Hfirst IH] using map_first_key_ind; intros key v H.
  - by rewrite lookup_empty in H.
  - rewrite map_fold_insert_first_key by done.
    destruct (decide (i = key)) as [->|Hne].
    + rewrite lookup_insert_eq in H. injection H as ->. lia.
    + rewrite lookup_insert_ne in H by done. specialize (IH _ _ H). lia.
Qed.

Lemma json_size_ind (P : JSON → Prop) :
  (∀ v, (∀ v', json_size v' < json_size v → P v') → P v) → ∀ v, P v.
Proof.
  intros step v. remember (S (json_size v)) as n eqn:Hn.
  assert (json_size v < n) as Hlt by lia. clear Hn.
  revert v Hlt. induction n as [|n IH]; intros v Hlt; [lia|].
  apply step. intros v' Hv'. apply IH. lia.
Qed.

Section TranslateJSON.

Variable engine : string → string → Reply.
Variable s : OpenAIService.
Variables sourceLang targetLang : string.

Lemma TranslateJSON_unfold data :
  TranslateJSON engine s data sourceLang targetLang
  = map_fold (TranslateJSON_entry engine s sourceLang targetLang) (inr ∅) data.
Proof. reflexivity. Qed.

(** One pass over a map keeps the keys, provided the passes over the
    nested maps do. *)
Lemma map_fold_TranslateJSON_entry (data : gmap string JSON) :
  map_Forall (fun _ v =>
    ∀ m result, v = JObj m →
      TranslateJSON_rec engine s sourceLang targetLang v = inr result →
      same_keys v (JObj result)) data →
  ∀ result,
    map_fold (TranslateJSON_entry engine s sourceLang targetLang) (inr ∅) data
    = inr result →
    dom result = dom data
    ∧ ∀ key v v', data !! key = Some v → result !! key = Some v' → same_keys v v'.
Proof.
  induction data as [|i x data Hi Hfirst IH] using map_first_key_ind;
    intros Hgood result.
  - rewrite map_fold_empty. intros [= <-]. split; [by rewrite !dom_empty_L|].
    intros key v v' H. by rewrite lookup_empty in H.
  - rewrite map_fold_insert_first_key by done.
    apply map_Forall_insert in Hgood as [Hx Hgood]; [|done].
    specialize (IH Hgood).
    destruct (map_fold (TranslateJSON_entry engine s sourceLang targetLang)
                       (inr ∅) data) as [e|acc]; [done|].
    destruct (IH acc eq_refl) as [Hdom Hvals].
    assert (∀ x', same_keys x x' →
              dom (<[i:=x']> acc) = dom (<[i:=x]> data)
              ∧ ∀ key v v', <[i:=x]> data !! key = Some v →
                  <[i:=x']> acc !! key = Some v' → same_keys v v') as Hstep.
    { intros x' Hxx'. split; [by rewrite !dom_insert_L, Hdom|].
      intros key v v'. destruct (decide (i = key)) as [->|Hne].
      - rewrite !lookup_insert_eq. by intros [= <-] [= <-].
      - rewrite !lookup_insert_ne by done. apply Hvals. }
    unfold TranslateJSON_entry at 1.
    destruct x as [| b | n | str | l | m]; cbv beta iota.
    + intros [= <-]. apply Hstep. apply same_keys_other; intros ? [=].
    + intros [= <-]. apply Hstep. apply same_keys_other; intros ? [=].
    + intros [= <-]. apply Hstep. apply same_keys_other; intros ? [=].
    + destruct (Translate engine s str sourceLang targetLang); [done|].
      intros [= <-]. apply Hstep. constructor.
    + intros [= <-]. apply Hstep. apply same_keys_other; intros ? [=].
    + destruct (TranslateJSON_rec engine s sourceLang targetLang (JObj m))
        as [e|res] eqn:Hrec; [done|].
      intros [= <-]. apply Hstep. by eapply Hx.
Qed.

(** C9: when [TranslateJSON] succeeds, the result has the keys of the
    input at every nesting level. *)
Theorem TranslateJSON_keeps_keys (data result : gmap string JSON) :
  TranslateJSON engine s data sourceLang targetLang = inr result →
  same_keys (JObj data) (JObj result).
Proof.
  unfold TranslateJSON.
  generalize (eq_refl (JObj data)). generalize (JObj data) at 1 3 4 as v.
  intros v. revert data result.
  induction v as [v IH] using json_size_ind. intros data result -> Hrun.
  apply map_fold_TranslateJSON_entry in Hrun as [Hdom Hvals].
  - by constructor.
  - intros key v Hkey m res -> Hres. eapply IH; [|done|done].
    by eapply json_size_lookup.
Qed.

End TranslateJSON.

Lemma TranslateJSON_keeps_keys_witness :
  same_keys
    (JObj demo_payload)
    (JObj {[ "greeting" := JStr "Halo [name]!";
             "form" := JObj {[ "label" := JStr "Halo [name]!"; "max" := JNum 64 ]} ]}).
Proof.
  apply (TranslateJSON_keeps_keys demo_engine (NewOpenAIService "sk-test") "en" "id").
  vm_compute. reflexivity.
Defined.

(** ** The store *)

(** *** The row with the least identifier *)

Lemma least_id_None rows : database.least_id rows = None ↔ rows = [].
Proof.
  split; [|by intros ->].
  destruct rows as [|r rows]; [done|]. simpl.
  destruct (database.least_id rows); [case_decide|]; done.
Qed.

Lemma least_id_Some rows r :
  database.least_id rows = Some r →
  r ∈ rows ∧ Forall (fun r' => (ID r ≤ ID r')%N) rows.
Proof.
  revert r. induction rows as [|a rows IH]; intros r; simpl; [done|].
  destruct (database.least_id rows) as [m|] eqn:Hm.
  - destruct (IH m eq_refl) as [Hin Hle]. case_decide as Hcmp; intros [= <-].
    + split; [left|]. constructor; [lia|].
      eapply Forall_impl; [exact Hle|]. simpl. intros; lia.
    + split; [by right|]. constructor; [lia|done].
  - apply least_id_None in Hm as ->. intros [= <-]. split; [left|].
    by repeat constructor.
Qed.

Lemma least_id_fmap (f : TranslationVersion → TranslationVersion) rows :
  (∀ r, ID (f r) = ID r) →
  database.least_id (f <$> rows) = f <$> database.least_id rows.
Proof.
  intros Hf. induction rows as [|a rows IH]; [done|].
  rewrite fmap_cons. simpl. rewrite IH.
  destruct (database.least_id rows) as [m|]; simpl; [|done].
  rewrite !Hf. by case_decide.
Qed.

(** *** The rows a query ranges over *)

Section select.
Context (P : TranslationVersion → Prop) `{!∀ r, Decision (P r)}.

Lemma elem_of_select r rows :
  r ∈ database.select P rows ↔ r ∈ rows ∧ database.live r ∧ P r.
Proof. unfold database.select. rewrite list_elem_of_filter. tauto. Qed.

Lemma select_app rows1 rows2 :
  database.select P (rows1 ++ rows2)
  = database.select P rows1 ++ database.select P rows2.
Proof. apply filter_app. Qed.

Lemma select_fmap (f : TranslationVersion → TranslationVersion) rows :
  (∀ r, r ∈ rows → (database.live (f r) ∧ P (f r)) ↔ (database.live r ∧ P r)) →
  database.select P (f <$> rows) = f <$> database.select P rows.
Proof.
  unfold database.select. induction rows as [|a rows IH]; intros Hf; [done|].
  rewrite fmap_cons, !filter_cons.
  assert ((database.live (f a) ∧ P (f a)) ↔ (database.live a ∧ P a)) as Ha
    by (apply Hf; left).
  rewrite IH by (intros r Hr; apply Hf; by right).
  destruct (decide (database.live (f a) ∧ P (f a))),
           (decide (database.live a ∧ P a)); try tauto; done.
Qed.

Lemma first_Some rows r :
  database.least_id (database.select P rows) = Some r →
  r ∈ rows ∧ database.live r ∧ P r.
Proof. intros Hr. apply least_id_Some in Hr as [Hr _]. by apply elem_of_select. Qed.

Lemma first_None rows :
  database.least_id (database.select P rows) = None ↔
  ∀ r, r ∈ rows → ¬ (database.live r ∧ P r).
Proof.
  rewrite least_id_None. split.
  - intros Hnil r Hr Hp.
    assert (r ∈ database.select P rows) as Hin by by apply elem_of_select.
    rewrite Hnil in Hin. by apply elem_of_nil in Hin.
  - intros Hnone. destruct (database.select P rows) as [|r sel] eqn:Hsel; [done|].
    assert (r ∈ database.select P rows) as Hin by (rewrite Hsel; left).
    apply elem_of_select in Hin as (Hr & Hp). by destruct (Hnone r Hr).
Qed.

Lemma first_fmap (f : TranslationVersion → TranslationVersion) rows :
  (∀ r, ID (f r) = ID r) →
  (∀ r, r ∈ rows → (database.live (f r) ∧ P (f r)) ↔ (database.live r ∧ P r)) →
  database.least_id (database.select P (f <$> rows))
  = f <$> database.least_id (database.select P rows).
Proof. intros Hid Hf. by rewrite select_fmap, least_id_fmap. Qed.

Lemma first_app_miss rows n :
  ¬ (database.live n ∧ P n) →
  database.least_id (database.select P (rows ++ [n]))
  = database.least_id (database.select P rows).
Proof.
  intros Hn. rewrite select_app. unfold database.select at 2.
  rewrite filter_cons, decide_False by done. by rewrite filter_nil, app_nil_r.
Qed.

Lemma first_app_new rows n :
  database.least_id (database.select P rows) = None →
  database.live n → P n →
  database.least_id (database.select P (rows ++ [n])) = Some n.
Proof.
  intros Hnone Hlive Hn. apply least_id_None in Hnone.
  rewrite select_app, Hnone. unfold database.select.
  by rewrite filter_cons, decide_True.
Qed.
End select.

(** *** Primary keys *)

Lemma ID_le_fresh_id rows r : r ∈ rows → (ID r < database.fresh_id rows)%N.
Proof.
  unfold database.fresh_id. induction rows as [|a rows IH]; simpl.
  - intros H. by apply elem_of_nil in H.
  - intros [->|Hr]%elem_of_cons; [lia|]. specialize (IH Hr). lia.
Qed.

Lemma fresh_id_fresh rows : database.fresh_id rows ∉ ID <$> rows.
Proof.
  intros (r & Hid & Hr)%list_elem_of_fmap.
  apply ID_le_fresh_id in Hr. lia.
Qed.

Lemma fresh_id_not_Nil rows : database.fresh_id rows ≠ uuid.Nil.
Proof. unfold database.fresh_id, uuid.Nil. lia. Qed.

Lemma store_ok_unique rows x y :
  store_ok rows → x ∈ rows → y ∈ rows → ID x = ID y → x = y.
Proof.
  intros [Hnd _]. induction rows as [|a rows IH]; intros Hx Hy Hid.
  - by apply elem_of_nil in Hx.
  - rewrite fmap_cons in Hnd. apply NoDup_cons in Hnd as [Ha Hnd].
    apply elem_of_cons in Hx as [->|Hx]; apply elem_of_cons in Hy as [->|Hy].
    + done.
    + destruct Ha. rewrite Hid. by apply list_elem_of_fmap_2.
    + destruct Ha. rewrite <- Hid. by apply list_elem_of_fmap_2.
    + by apply IH.
Qed.

Lemma store_ok_app rows n :
  store_ok rows → ID n = database.fresh_id rows → IsActive n = true →
  store_ok (rows ++ [n]).
Proof.
  intros [Hnd Hall] Hid Hact. split.
  - rewrite fmap_app. apply NoDup_app. split_and!; [done| |apply NoDup_singleton].
    intros i Hi [->|[]%elem_of_nil]%elem_of_cons.
    rewrite Hid in Hi. by apply fresh_id_fresh in Hi.
  - apply Forall_app. split; [done|]. repeat constructor; [|done].
    rewrite Hid. apply fresh_id_not_Nil.
Qed.

Lemma store_ok_fmap (f : TranslationVersion → TranslationVersion) rows :
  store_ok rows → (∀ r, ID (f r) = ID r) →
  (∀ r, r ∈ rows → IsActive (f r) = true) → store_ok (f <$> rows).
Proof.
  intros [Hnd Hall] Hid Hact. split.
  - rewrite <- list_fmap_compose.
    erewrite list_fmap_ext; [exact Hnd|]. intros ? r _. apply Hid.
  - apply Forall_fmap. apply Forall_forall. intros r Hr. simpl.
    rewrite Hid. rewrite Forall_forall in Hall. split; [by apply Hall|by apply Hact].
Qed.

(** *** The primitives when the store serves the request *)

Lemma fault_healthy w : healthy w → database.fault w = (false, w).
Proof. unfold healthy, database.fault. by intros ->. Qed.

Lemma First_healthy (P : TranslationVersion → Prop) `{!∀ r, Decision (P r)} w :
  healthy w →
  database.First P w
  = (match database.least_id (database.select P (translation_versions w)) with
     | Some r => inr r
     | None => inl ErrRecordNotFound
     end, w).
Proof.
  intros Hw. unfold database.First, bind. rewrite fault_healthy by done.
  by destruct (database.least_id _).
Qed.

Lemma Find_healthy (P : TranslationVersion → Prop) `{!∀ r, Decision (P r)} w :
  healthy w →
  database.Find P w = (inr (database.select P (translation_versions w)), w).
Proof.
  intros Hw. unfold database.Find, bind. by rewrite fault_healthy.
Qed.

Lemma Create_healthy row w :
  healthy w → ID row = uuid.Nil →
  let row' := with_defaults (with_ID (database.fresh_id (translation_versions w)) row) in
  database.Create row w
  = (inr row', with_translation_versions (translation_versions w ++ [row']) w).
Proof.
  intros Hw Hid row'. unfold database.Create, bind. rewrite fault_healthy by done.
  unfold database.insert, database.BeforeCreate.
  destruct (decide (ID row = uuid.Nil)); [|done]. fold row'.
  rewrite decide_False; [done|]. apply fresh_id_fresh.
Qed.

Lemma Save_healthy row w :
  healthy w → ID row ≠ uuid.Nil → ID row ∈ ID <$> translation_versions w →
  database.Save row w
  = (inr row, with_translation_versions (update row <$> translation_versions w) w).
Proof.
  intros Hw Hid Hin. unfold database.Save, bind. rewrite fault_healthy by done.
  rewrite decide_False by done. by rewrite decide_True.
Qed.

Lemma CleanupOldVersions_healthy w :
  healthy w →
  database.CleanupOldVersions w
  = (inr tt, with_translation_versions (cleaned <$> translation_versions w) w).
Proof.
  intros Hw. unfold database.CleanupOldVersions, database.Delete, bind.
  by rewrite fault_healthy.
Qed.

(** *** The effect of the writes on the slots *)

Lemma active_slot_eq c l s v rows :
  store_ok rows → active_slot c l s v rows = slot c l s v rows.
Proof.
  intros [_ Hall]. unfold active_slot, slot, database.select. f_equal.
  induction Hall as [|r rows [_ Hr] _ IH]; [done|].
  rewrite !filter_cons, IH.
  destruct (decide (database.live r ∧ where_active_slot c l s v r)) as [Ha|Ha],
           (decide (database.live r ∧ where_slot c l s v r)) as [Hs|Hs];
    try done; unfold where_active_slot, where_slot in *; tauto.
Qed.

Lemma slot_update rows e e' c l s v :
  store_ok rows → e ∈ rows → same_slot e e' →
  slot c l s v (update e' <$> rows) = update e' <$> slot c l s v rows.
Proof.
  intros Hok He (Hid & Hc & Hl & Hs & Hv & Ha & Hd). unfold slot.
  apply first_fmap.
  - intros r. unfold update. by case_decide.
  - intros r Hr. unfold update. case_decide as Heq; [|done].
    assert (r = e) as -> by (eapply store_ok_unique; [done..|congruence]).
    unfold database.live, where_slot. rewrite Hc, Hl, Hs, Hv, Hd. done.
Qed.

Lemma store_ok_update rows e e' :
  store_ok rows → e ∈ rows → same_slot e e' → store_ok (update e' <$> rows).
Proof.
  intros Hok He (Hid & Hc & Hl & Hs & Hv & Ha & Hd).
  apply store_ok_fmap; [done| |].
  - intros r. unfold update. by case_decide.
  - intros r Hr. destruct Hok as [_ Hall]. rewrite Forall_forall in Hall.
    unfold update. case_decide; [|by apply Hall].
    rewrite Ha. by apply Hall.
Qed.

Lemma slot_cleaned rows c l s v :
  (v ≤ 2)%Z → slot c l s v (cleaned <$> rows) = slot c l s v rows.
Proof.
  intros Hv. unfold slot. rewrite first_fmap.
  - destruct (database.least_id _) as [r|] eqn:Hr; [|done]. simpl. f_equal.
    apply first_Some in Hr as (_ & _ & (_ & _ & _ & Hver)).
    unfold cleaned. rewrite decide_False; [done|]. intros [_ ?]. lia.
  - intros r. unfold cleaned. by case_decide.
  - intros r _. unfold cleaned. case_decide as Hc; [|done].
    unfold database.live, where_slot. simpl. destruct Hc as [Hlive Hgt].
    split; [intros [[=] _]|]. intros (_ & _ & _ & _ & Hver). lia.
Qed.

Lemma store_ok_cleaned rows : store_ok rows → store_ok (cleaned <$> rows).
Proof.
  intros Hok. apply store_ok_fmap; [done| |].
  - intros r. unfold cleaned. by case_decide.
  - intros r Hr. destruct Hok as [_ Hall]. rewrite Forall_forall in Hall.
    unfold cleaned. case_decide; simpl; by apply Hall.
Qed.

Ltac world_simpl :=
  cbn [translation_versions components applications redis db_faults OPENAI_API_KEY
       with_translation_versions with_redis with_db_faults].

Lemma slot_new_row rows c l s v d u :
  slot c l s v rows = None →
  slot c l s v (rows ++ [new_row c l s v d u rows]) = Some (new_row c l s v d u rows).
Proof. intros Hnone. by apply first_app_new. Qed.

Lemma slot_new_row_other rows c l s v d u c' l' s' v' :
  ¬ (c' = c ∧ l' = l ∧ s' = s ∧ v' = v) →
  slot c' l' s' v' (rows ++ [new_row c l s v d u rows]) = slot c' l' s' v' rows.
Proof.
  intros Hne. apply first_app_miss. intros [_ (Hc & Hl & Hs & Hv)].
  simpl in *. apply Hne. by subst.
Qed.

Lemma store_ok_new_row rows c l s v d u :
  store_ok rows → store_ok (rows ++ [new_row c l s v d u rows]).
Proof. intros Hok. by apply store_ok_app. Qed.

Lemma slot_Some c l s v rows r :
  slot c l s v rows = Some r →
  r ∈ rows ∧ database.live r ∧ where_slot c l s v r.
Proof. apply first_Some. Qed.

Lemma slot_update_other rows e e' c l s v c' l' s' v' :
  store_ok rows → slot c l s v rows = Some e → same_slot e e' →
  ¬ (c' = c ∧ l' = l ∧ s' = s ∧ v' = v) →
  slot c' l' s' v' (update e' <$> rows) = slot c' l' s' v' rows.
Proof.
  intros Hok He Hsame Hne.
  apply slot_Some in He as (He & _ & Hc & Hl & Hs & Hv).
  rewrite (slot_update rows e) by done.
  destruct (slot c' l' s' v' rows) as [x|] eqn:Hx; [|done]. simpl. f_equal.
  apply slot_Some in Hx as (Hx & _ & Hc' & Hl' & Hs' & Hv').
  unfold update. case_decide as Hid; [|done].
  destruct Hsame as (Hid' & _). rewrite Hid' in Hid.
  assert (x = e) as -> by by eapply store_ok_unique.
  destruct Hne. by subst.
Qed.

Lemma slot_update_same rows e e' c l s v :
  store_ok rows → slot c l s v rows = Some e → same_slot e e' →
  slot c l s v (update e' <$> rows) = Some e'.
Proof.
  intros Hok He Hsame. pose proof (slot_Some _ _ _ _ _ _ He) as (Hin & _).
  rewrite (slot_update rows e), He by done. simpl. f_equal.
  unfold update. destruct Hsame as (-> & _). by rewrite decide_True.
Qed.

Lemma SaveTranslation_healthy c l s d u w :
  healthy w → store_ok (translation_versions w) →
  ∃ t rows',
    SaveTranslation c l s d u w
    = (inr t,
       with_redis (delete (cache.ComponentKey (uuid.String c))
                          (delete (cacheKey_of c l s) (redis w)))
                  (with_translation_versions rows' w))
    ∧ store_ok rows'
    ∧ slot c l s 2 rows' = Some t
    ∧ Data t = d
    ∧ match slot c l s 1 (translation_versions w) with
      | Some r1 => slot c l s 1 rows' = Some r1
      | None => ∃ r1, slot c l s 1 rows' = Some r1 ∧ Data r1 = d
      end
    ∧ ∀ c' l' s' v, (v = 1 ∨ v = 2)%Z → ¬ (c' = c ∧ l' = l ∧ s' = s) →
        slot c' l' s' v rows' = slot c' l' s' v (translation_versions w).
Proof.
  intros Hw Hok. destruct w as [rows comps apps rd fs key].
  unfold healthy in Hw. simpl in Hw, Hok |- *. subst fs.
  unfold SaveTranslation, bind.
  rewrite First_healthy by done. world_simpl. fold (slot c l s 2 rows).
  destruct (slot c l s 2 rows) as [e|] eqn:He.
  - pose proof (slot_Some _ _ _ _ _ _ He) as (Hin & Hlive & Hc & Hl & Hs & Hv).
    set (e' := with_UpdatedBy u (with_Data d e)).
    assert (same_slot e e') as Hsame by done.
    assert (ID e' ≠ uuid.Nil) as Hnil.
    { destruct Hok as [_ Hall]. rewrite Forall_forall in Hall.
      by destruct (Hall e Hin). }
    assert (ID e' ∈ ID <$> rows) as Hin'
      by (change (ID e') with (ID e); by apply list_elem_of_fmap_2).
    rewrite Save_healthy by done.
    world_simpl.
    set (rows1 := update e' <$> rows).
    assert (store_ok rows1) as Hok1 by by apply (store_ok_update rows e e').
    rewrite First_healthy by done. world_simpl.
    fold (slot c l s 1 rows1).
    assert (slot c l s 1 rows1 = slot c l s 1 rows) as H1.
    { eapply slot_update_other; [done..|]. intros (_ & _ & _ & [=]). }
    destruct (slot c l s 1 rows1) as [r1|] eqn:Hr1.
    + unfold ret, cache.Delete. cbv beta iota.
      rewrite CleanupOldVersions_healthy by done. simpl.
      eexists e', (cleaned <$> rows1). split; [reflexivity|].
      split; [by apply store_ok_cleaned|].
      split; [rewrite slot_cleaned by lia; by eapply slot_update_same|].
      split; [done|].
      split.
      * rewrite <- H1, slot_cleaned by lia. done.
      * intros c' l' s' v Hv' Hne. rewrite slot_cleaned by lia.
        eapply slot_update_other; [done..|]. tauto.
    + rewrite Create_healthy by done.
      unfold ret, cache.Delete. cbv beta iota.
      rewrite CleanupOldVersions_healthy by done. simpl.
      set (n1 := new_row c l s 1 d uuid.Nil rows1).
      eexists e', (cleaned <$> (rows1 ++ [n1])). split; [reflexivity|].
      split; [by apply store_ok_cleaned, store_ok_new_row|].
      split.
      { rewrite slot_cleaned by lia. unfold n1.
        rewrite slot_new_row_other by (intros (_ & _ & _ & [=])).
        by eapply slot_update_same. }
      split; [done|].
      split.
      * rewrite <- H1. exists n1. split; [|done].
        rewrite slot_cleaned by lia. by apply slot_new_row.
      * intros c' l' s' v Hv' Hne. rewrite slot_cleaned by lia.
        unfold n1. rewrite slot_new_row_other by tauto.
        eapply slot_update_other; [done..|]. tauto.
  - rewrite Create_healthy by done. world_simpl.
    set (n2 := new_row c l s 2 d u rows).
    change (with_defaults _) with n2.
    set (rows1 := rows ++ [n2]).
    assert (store_ok rows1) as Hok1 by by apply store_ok_new_row.
    rewrite First_healthy by done. world_simpl.
    fold (slot c l s 1 rows1).
    assert (slot c l s 1 rows1 = slot c l s 1 rows) as H1.
    { apply slot_new_row_other. intros (_ & _ & _ & [=]). }
    assert (slot c l s 2 rows1 = Some n2) as H2 by by apply slot_new_row.
    destruct (slot c l s 1 rows1) as [r1|] eqn:Hr1.
    + unfold ret, cache.Delete. cbv beta iota.
      rewrite CleanupOldVersions_healthy by done. simpl.
      eexists n2, (cleaned <$> rows1). split; [reflexivity|].
      split; [by apply store_ok_cleaned|].
      split; [by rewrite slot_cleaned by lia|].
      split; [done|].
      split.
      * rewrite <- H1, slot_cleaned by lia. done.
      * intros c' l' s' v Hv' Hne. rewrite slot_cleaned by lia.
        apply slot_new_row_other. tauto.
    + rewrite Create_healthy by done.
      unfold ret, cache.Delete. cbv beta iota.
      rewrite CleanupOldVersions_healthy by done. simpl.
      set (n1 := new_row c l s 1 d uuid.Nil rows1).
      eexists n2, (cleaned <$> (rows1 ++ [n1])). split; [reflexivity|].
      split; [by apply store_ok_cleaned, store_ok_new_row|].
      split.
      { rewrite slot_cleaned by lia. unfold n1.
        by rewrite slot_new_row_other by (intros (_ & _ & _ & [=])). }
      split; [done|].
      split.
      * rewrite <- H1. exists n1. split; [|done].
        rewrite slot_cleaned by lia. by apply slot_new_row.
      * intros c' l' s' v Hv' Hne. rewrite slot_cleaned by lia.
        unfold n1. rewrite slot_new_row_other by tauto.
        apply slot_new_row_other. tauto.
Qed.

Lemma GetTranslation_hit c l s w cached :
  redis w !! cacheKey_of c l s = Some cached →
  GetTranslation c l s w = (inr cached, w).
Proof.
  intros Hhit. unfold GetTranslation, bind, cache.Get. by rewrite Hhit.
Qed.

Lemma GetTranslation_slot2 c l s w t :
  healthy w → store_ok (translation_versions w) →
  redis w !! cacheKey_of c l s = None →
  slot c l s 2 (translation_versions w) = Some t →
  GetTranslation c l s w
  = (inr t, with_redis (<[cacheKey_of c l s := t]> (redis w)) w).
Proof.
  intros Hw Hok Hmiss Ht. unfold GetTranslation, bind, cache.Get. rewrite Hmiss.
  rewrite First_healthy by done.
  fold (active_slot c l s 2 (translation_versions w)).
  by rewrite active_slot_eq, Ht.
Qed.

Lemma GetTranslation_slot1 c l s w t :
  healthy w → store_ok (translation_versions w) →
  redis w !! cacheKey_of c l s = None →
  slot c l s 2 (translation_versions w) = None →
  slot c l s 1 (translation_versions w) = Some t →
  GetTranslation c l s w
  = (inr t, with_redis (<[cacheKey_of c l s := t]> (redis w)) w).
Proof.
  intros Hw Hok Hmiss H2 H1. unfold GetTranslation, bind, cache.Get. rewrite Hmiss.
  rewrite First_healthy by done.
  fold (active_slot c l s 2 (translation_versions w)).
  rewrite active_slot_eq, H2 by done.
  rewrite First_healthy by done.
  fold (active_slot c l s 1 (translation_versions w)).
  by rewrite active_slot_eq, H1.
Qed.

Lemma GetTranslation_not_found c l s w :
  healthy w → store_ok (translation_versions w) →
  redis w !! cacheKey_of c l s = None →
  slot c l s 2 (translation_versions w) = None →
  slot c l s 1 (translation_versions w) = None →
  GetTranslation c l s w = (inl ErrRecordNotFound, w).
Proof.
  intros Hw Hok Hmiss H2 H1. unfold GetTranslation, bind, cache.Get. rewrite Hmiss.
  rewrite First_healthy by done.
  fold (active_slot c l s 2 (translation_versions w)).
  rewrite active_slot_eq, H2 by done.
  rewrite First_healthy by done.
  fold (active_slot c l s 1 (translation_versions w)).
  by rewrite active_slot_eq, H1.
Qed.

Lemma RevertTranslation_healthy c l s w version1 :
  healthy w → store_ok (translation_versions w) →
  slot c l s 1 (translation_versions w) = Some version1 →
  ∃ t rows',
    RevertTranslation c l s w
    = (inr tt,
       with_redis (match slot c l s 2 (translation_versions w) with
                   | Some _ => delete (cacheKey_of c l s) (redis w)
                   | None => redis w
                   end)
                  (with_translation_versions rows' w))
    ∧ store_ok rows'
    ∧ slot c l s 2 rows' = Some t
    ∧ Data t = Data version1
    ∧ slot c l s 1 rows' = Some version1
    ∧ ∀ c' l' s' v, ¬ (c' = c ∧ l' = l ∧ s' = s) →
        slot c' l' s' v rows' = slot c' l' s' v (translation_versions w).
Proof.
  intros Hw Hok H1. destruct w as [rows comps apps rd fs key].
  unfold healthy in Hw. simpl in Hw, Hok, H1 |- *. subst fs.
  unfold RevertTranslation, bind.
  rewrite First_healthy by done. world_simpl. fold (slot c l s 1 rows). rewrite H1.
  rewrite First_healthy by done. world_simpl. fold (slot c l s 2 rows).
  destruct (slot c l s 2 rows) as [e|] eqn:He.
  - pose proof (slot_Some _ _ _ _ _ _ He) as (Hin & Hlive & Hc & Hl & Hs & Hv).
    set (e' := with_Data (Data version1) e).
    assert (same_slot e e') as Hsame by done.
    assert (ID e' ≠ uuid.Nil) as Hnil.
    { destruct Hok as [_ Hall]. rewrite Forall_forall in Hall.
      by destruct (Hall e Hin). }
    assert (ID e' ∈ ID <$> rows) as Hin'
      by (change (ID e') with (ID e); by apply list_elem_of_fmap_2).
    rewrite Save_healthy by done. unfold ret, cache.Delete. simpl.
    eexists e', (update e' <$> rows). split; [reflexivity|].
    split; [by apply (store_ok_update rows e e')|].
    split; [by eapply slot_update_same|].
    split; [done|].
    split.
    + rewrite <- H1. eapply slot_update_other; [done..|]. intros (_ & _ & _ & [=]).
    + intros c' l' s' v Hne. eapply slot_update_other; [done..|]. tauto.
  - rewrite Create_healthy by done. unfold ret. simpl.
    set (n2 := new_row c l s 2 (Data version1) uuid.Nil rows).
    eexists n2, (rows ++ [n2]). split; [reflexivity|].
    split; [by apply store_ok_new_row|].
    split; [by apply slot_new_row|].
    split; [done|].
    split.
    + rewrite <- H1. apply slot_new_row_other. intros (_ & _ & _ & [=]).
    + intros c' l' s' v Hne. apply slot_new_row_other. tauto.
Qed.

Lemma RevertTranslation_no_slot1 c l s w :
  healthy w → slot c l s 1 (translation_versions w) = None →
  RevertTranslation c l s w
  = (inl (Errorf "no previous version found" ErrRecordNotFound), w).
Proof.
  intros Hw H1. unfold RevertTranslation, bind.
  rewrite First_healthy by done. fold (slot c l s 1 (translation_versions w)).
  by rewrite H1.
Qed.

Lemma lookup_delete_delete {A} (m : gmap string A) k1 k2 :
  delete k2 (delete k1 m) !! k1 = None.
Proof. apply lookup_delete_None. right. apply lookup_delete_eq. Qed.

(** C8: on a store that answers, [SaveTranslation] with the payload [P]
    followed by [GetTranslation] for the same key returns the row just
    saved, whose payload is [P]: the save has deleted the cache entry of
    the key, so the read goes to the active row of slot 2. *)
Theorem save_then_read_returns_payload c l s P userID w :
  healthy w → store_ok (translation_versions w) →
  ∃ saved w1 w2,
    SaveTranslation c l s P userID w = (inr saved, w1)
    ∧ GetTranslation c l s w1 = (inr saved, w2)
    ∧ Data saved = P.
Proof.
  intros Hw Hok.
  destruct (SaveTranslation_healthy c l s P userID w Hw Hok)
    as (t & rows' & Hsave & Hok' & H2 & Hdata & _).
  eexists t, _, _. split; [exact Hsave|]. split; [|done].
  apply GetTranslation_slot2; [done|done| |done].
  apply lookup_delete_delete.
Qed.

Lemma fresh_key_slot c l s v rows : fresh_key c l s rows → slot c l s v rows = None.
Proof.
  intros Hfresh. apply first_None. intros r Hr [_ (Hc & Hl & Hs & _)].
  by apply (Hfresh r Hr).
Qed.

(** A revert of a key that has both slots, and the read that follows. *)
Lemma RevertTranslation_both_slots c l s w version1 version2 :
  healthy w → store_ok (translation_versions w) →
  slot c l s 1 (translation_versions w) = Some version1 →
  slot c l s 2 (translation_versions w) = Some version2 →
  ∃ w1 read,
    RevertTranslation c l s w = (inr tt, w1)
    ∧ GetTranslation c l s w1
      = (inr read, with_redis (<[cacheKey_of c l s := read]> (redis w1)) w1)
    ∧ Data read = Data version1
    ∧ ID read = ID version2
    ∧ healthy w1 ∧ store_ok (translation_versions w1)
    ∧ slot c l s 1 (translation_versions w1) = Some version1
    ∧ slot c l s 2 (translation_versions w1) = Some read.
Proof.
  intros Hw Hok H1 H2.
  pose proof (slot_Some _ _ _ _ _ _ H2) as (Hin & _).
  set (e' := with_Data (Data version1) version2).
  assert (same_slot version2 e') as Hsame by done.
  assert (ID e' ≠ uuid.Nil) as Hnil.
  { destruct Hok as [_ Hall]. rewrite Forall_forall in Hall.
    by destruct (Hall version2 Hin). }
  assert (ID e' ∈ ID <$> translation_versions w) as Hin'
    by (change (ID e') with (ID version2); by apply list_elem_of_fmap_2).
  set (rows' := update e' <$> translation_versions w).
  assert (store_ok rows') as Hok' by by apply (store_ok_update _ version2 e').
  assert (slot c l s 2 rows' = Some e') as H2' by by eapply slot_update_same.
  assert (slot c l s 1 rows' = Some version1) as H1'.
  { rewrite <- H1. eapply slot_update_other; [done..|]. intros (_ & _ & _ & [=]). }
  set (w1 := with_redis (delete (cacheKey_of c l s) (redis w))
                        (with_translation_versions rows' w)).
  assert (healthy w1) as Hw1 by done.
  exists w1, e'. split_and!; try done.
  - unfold RevertTranslation, bind.
    rewrite First_healthy by done. fold (slot c l s 1 (translation_versions w)).
    rewrite H1. rewrite First_healthy by done.
    fold (slot c l s 2 (translation_versions w)). rewrite H2.
    by rewrite Save_healthy.
  - apply GetTranslation_slot2; [done|done|apply lookup_delete_eq|done].
Qed.

(** Later saves of a key leave the row of slot 1 as it is. *)
Lemma later_saves_keep_slot1 c l s later w first current :
  healthy w → store_ok (translation_versions w) →
  slot c l s 1 (translation_versions w) = Some first →
  slot c l s 2 (translation_versions w) = Some current →
  let w' := (later_saves c l s later w).2 in
  healthy w' ∧ store_ok (translation_versions w')
  ∧ slot c l s 1 (translation_versions w') = Some first
  ∧ ∃ current', slot c l s 2 (translation_versions w') = Some current'
                ∧ Data current' = default (Data current) (last later.*1).
Proof.
  unfold later_saves. cbv zeta.
  revert w current. induction later as [|[d u] later IH]; intros w current Hw Hok H1 H2.
  - simpl. split_and!; [done..|]. by exists current.
  - destruct (SaveTranslation_healthy c l s d u w Hw Hok)
      as (t & rows1 & Hsave & Hok1 & Ht & Hdata & Hslot1 & _).
    rewrite H1 in Hslot1.
    set (w1 := with_redis _ (with_translation_versions rows1 w)) in Hsave.
    match goal with
    | |- context [foldM ?f _ tt w] =>
        assert (foldM f ((d, u) :: later) tt w = foldM f later tt w1) as ->
          by (cbn [foldM]; unfold bind; cbn [fst snd]; by rewrite Hsave)
    end.
    destruct (IH w1 t) as (Hw' & Hok' & H1' & current' & H2' & Hd'); [done..|].
    split_and!; [done..|]. exists current'. split; [done|].
    rewrite Hd'. cbn [fmap list_fmap fst]. rewrite last_cons.
    destruct (last later.*1); simpl; congruence.
Qed.

(** C1: for a key without rows, two saves with the payloads [P1] then
    [P2], a revert and a read return [P1].  The first save creates slot 1
    with [P1]; the second save puts [P2] into slot 2 and leaves the row of
    slot 1; the revert copies slot 1 into slot 2.  No later save
    overwrites slot 1 either: after any further saves of the key the row
    of slot 1 is still the one the first save created, and a revert and a
    read still return [P1]. *)
Theorem revert_restores_first_save c l s P1 P2 userID1 userID2 later w :
  healthy w → store_ok (translation_versions w) →
  fresh_key c l s (translation_versions w) →
  ∃ saved1 w1 first saved2 w2 w3 read w4,
    SaveTranslation c l s P1 userID1 w = (inr saved1, w1)
    ∧ slot c l s 1 (translation_versions w1) = Some first ∧ Data first = P1
    ∧ SaveTranslation c l s P2 userID2 w1 = (inr saved2, w2)
    ∧ slot c l s 2 (translation_versions w2) = Some saved2 ∧ Data saved2 = P2
    ∧ slot c l s 1 (translation_versions w2) = Some first
    ∧ RevertTranslation c l s w2 = (inr tt, w3)
    ∧ GetTranslation c l s w3 = (inr read, w4)
    ∧ Data read = P1
    ∧ let w2' := (later_saves c l s later w2).2 in
      slot c l s 1 (translation_versions w2') = Some first
      ∧ (∃ current, slot c l s 2 (translation_versions w2') = Some current
                    ∧ Data current = default P2 (last later.*1))
      ∧ ∃ w3' read' w4',
          RevertTranslation c l s w2' = (inr tt, w3')
          ∧ GetTranslation c l s w3' = (inr read', w4')
          ∧ Data read' = P1.
Proof.
  intros Hw Hok Hfresh.
  destruct (SaveTranslation_healthy c l s P1 userID1 w Hw Hok)
    as (t1 & rows1 & Hsave1 & Hok1 & _ & _ & Hslot1 & _).
  rewrite (fresh_key_slot c l s 1) in Hslot1 by done.
  destruct Hslot1 as (r1 & Hr1 & Hdata1).
  set (w1 := with_redis _ (with_translation_versions rows1 w)) in Hsave1.
  destruct (SaveTranslation_healthy c l s P2 userID2 w1 Hw Hok1)
    as (t2 & rows2 & Hsave2 & Hok2 & Ht2 & Hdata2 & Hslot2 & _).
  cbn [w1 translation_versions with_translation_versions with_redis] in Hslot2.
  rewrite Hr1 in Hslot2.
  set (w2 := with_redis _ (with_translation_versions rows2 w1)) in Hsave2.
  destruct (RevertTranslation_both_slots c l s w2 r1 t2 Hw Hok2 Hslot2 Ht2)
    as (w3 & read & Hrevert & Hread & Hdata3 & _).
  destruct (later_saves_keep_slot1 c l s later w2 r1 t2 Hw Hok2 Hslot2 Ht2)
    as (Hw' & Hok' & H1' & current & H2' & Hcurrent).
  destruct (RevertTranslation_both_slots c l s _ r1 current Hw' Hok' H1' H2')
    as (w3' & read' & Hrevert' & Hread' & Hdata3' & _).
  eexists t1, w1, r1, t2, w2, w3, read, _.
  split_and!; [done..|congruence|].
  cbv zeta. split_and!; [done| |].
  - exists current. split; [done|]. by rewrite Hcurrent, Hdata2.
  - eexists w3', read', _. split_and!; [done..|congruence].
Qed.

(** ** The bulk read *)

Lemma elem_of_keys_of k ids : k ∈ keys_of ids ↔ ∃ c, k = uuid.String c ∧ c ∈ ids.
Proof. unfold keys_of. rewrite elem_of_list_to_set, list_elem_of_fmap. done. Qed.

Lemma keys_of_nil : keys_of [] = ∅.
Proof. reflexivity. Qed.

Lemma keys_of_cons c ids : keys_of (c :: ids) = {[uuid.String c]} ∪ keys_of ids.
Proof. reflexivity. Qed.

Lemma first_pass_spec l s ids results missing w :
  ∃ results',
    first_pass l s ids (results, missing) w
    = ((results', missing ++ filter (fun c => ¬ cached w l s c) ids), w)
    ∧ dom results' = dom results ∪ keys_of (filter (cached w l s) ids).
Proof.
  unfold first_pass.
  revert results missing. induction ids as [|c ids IH]; intros results missing.
  - exists results. simpl. unfold ret. rewrite app_nil_r. split; [done|].
    by rewrite filter_nil, keys_of_nil, (right_id_L ∅ (∪)).
  - cbn [foldM]. unfold bind at 1. unfold bind at 1. unfold cache.Get at 1.
    rewrite !filter_cons.
    destruct (decide (cached w l s c)) as [[v Hv]|Hc].
    + rewrite decide_False by (intros []; by exists v).
      rewrite Hv. unfold ret at 1.
      destruct (IH (<[uuid.String c := v]> results) missing) as (res' & -> & Hdom).
      exists res'. split; [done|].
      rewrite Hdom, dom_insert_L, keys_of_cons.
      by rewrite (assoc_L (∪) (dom results)), (comm_L (∪) (dom results)).
    + rewrite decide_True by done.
      destruct (redis w !! cacheKey_of c l s) as [v|] eqn:Hv;
        [destruct Hc; by exists v|].
      unfold ret at 1.
      destruct (IH results (missing ++ [c])) as (res' & -> & Hdom).
      exists res'. rewrite <- app_assoc. done.
Qed.

Lemma collect_spec l s translations results w :
  ∃ results' rd',
    collect l s translations results w = (results', with_redis rd' w)
    ∧ dom results' = dom results ∪ keys_of (ComponentID <$> translations).
Proof.
  unfold collect.
  revert results w. induction translations as [|t ts IH]; intros results w.
  - exists results, (redis w). simpl. unfold ret. split; [by destruct w|].
    by rewrite keys_of_nil, (right_id_L ∅ (∪)).
  - cbn [foldM]. unfold bind at 1. unfold bind at 1. unfold cache.Set_ at 1, ret at 1.
    destruct (IH (<[uuid.String (ComponentID t) := t]> results)
                 (with_redis (<[cacheKey_of (ComponentID t) l s := t]> (redis w)) w))
      as (res' & rd' & -> & Hdom).
    exists res', rd'. split; [done|].
    rewrite Hdom, dom_insert_L, fmap_cons, keys_of_cons.
    by rewrite (assoc_L (∪) (dom results)), (comm_L (∪) (dom results)).
Qed.

Lemma elem_of_select_in ids l s v rows r :
  r ∈ database.select (where_active_slot_in ids l s v) rows ↔
  r ∈ rows ∧ database.live r ∧ ComponentID r ∈ ids
  ∧ where_active_slot (ComponentID r) l s v r.
Proof.
  rewrite elem_of_select. unfold where_active_slot_in, where_active_slot. tauto.
Qed.

Lemma has_row_iff w l s v c :
  has_row w l s v c ↔
  ∃ r, r ∈ translation_versions w ∧ database.live r ∧ where_active_slot c l s v r.
Proof. unfold has_row. rewrite Exists_exists. done. Qed.

(** The three passes of the bulk read, on a store that answers. *)
Lemma bulk_read_key_set componentIDs l s w :
  healthy w →
  ∃ results w',
    GetMultipleTranslations componentIDs l s w = (inr results, w')
    ∧ dom results = keys_of (filter (has_data w l s) componentIDs).
Proof.
  intros Hw. unfold GetMultipleTranslations. unfold bind at 1.
  destruct (first_pass_spec l s componentIDs ∅ [] w) as (res1 & -> & Hdom1).
  rewrite app_nil_l. rewrite dom_empty_L, (left_id_L ∅ (∪)) in Hdom1.
  set (missing := filter (fun c => ¬ cached w l s c) componentIDs).
  assert (∀ c, c ∈ missing ↔ c ∈ componentIDs ∧ ¬ cached w l s c) as Hmissing
    by (intros c; unfold missing; rewrite list_elem_of_filter; tauto).
  destruct missing as [|m0 missing'] eqn:Hmiss_eq.
  { exists res1, w. split; [done|]. rewrite Hdom1.
    apply set_eq. intros k. rewrite !elem_of_keys_of.
    split; intros (c & -> & Hc); exists c; split; try done;
      apply list_elem_of_filter in Hc as [Hc Hin]; apply list_elem_of_filter.
    - split; [by left|done].
    - split; [|done]. destruct (decide (cached w l s c)) as [|Hn]; [done|].
      assert (c ∈ []) as []%elem_of_nil. by apply Hmissing. }
  rewrite <- Hmiss_eq in *. clear Hmiss_eq m0 missing'.
  unfold bind at 1. rewrite Find_healthy by done.
  set (found2 := database.select (where_active_slot_in missing l s 2)
                                 (translation_versions w)).
  unfold bind at 1.
  destruct (collect_spec l s found2 res1 w) as (res2 & rd2 & -> & Hdom2).
  set (stillMissing :=
         filter (fun id => uuid.String id ∉ (fun t => uuid.String (ComponentID t)) <$> found2)
                missing).
  (* what the three passes contribute *)
  assert (∀ k, k ∈ dom res2 ↔
            ∃ c, k = uuid.String c ∧ c ∈ componentIDs
                 ∧ (cached w l s c ∨ (¬ cached w l s c ∧ has_row w l s 2 c))) as Hres2.
  { intros k. rewrite Hdom2, Hdom1, elem_of_union, !elem_of_keys_of. split.
    - intros [(c & -> & Hc)|(c & -> & Hc)].
      + apply list_elem_of_filter in Hc as [Hc Hin]. exists c. tauto.
      + apply list_elem_of_fmap in Hc as (r & -> & Hr).
        apply elem_of_select_in in Hr as (Hr & Hlive & Hin & Hslot).
        apply Hmissing in Hin as [Hin Hnc].
        exists (ComponentID r). split_and!; [done..|]. right. split; [done|].
        apply has_row_iff. eauto.
    - intros (c & -> & Hin & [Hc|[Hnc Hrow]]).
      + left. exists c. split; [done|]. by apply list_elem_of_filter.
      + right. apply has_row_iff in Hrow as (r & Hr & Hlive & Hslot).
        exists c. split; [done|]. apply list_elem_of_fmap. exists r.
        split; [by destruct Hslot as (-> & _)|].
        apply elem_of_select_in. destruct Hslot as (Hcr & Hrest). subst c.
        split_and!; [done|done|by apply Hmissing|done]. }
  assert (∀ c, c ∈ stillMissing →
               c ∈ componentIDs ∧ ¬ cached w l s c) as Hstill_in.
  { intros c [_ Hc]%list_elem_of_filter. by apply Hmissing. }
  assert (∀ c, c ∈ missing → c ∉ stillMissing → uuid.String c ∈ dom res2) as Hstill_out.
  { intros c Hc Hn. rewrite Hdom2. apply elem_of_union_r, elem_of_keys_of.
    destruct (decide (uuid.String c ∈ (fun t => uuid.String (ComponentID t)) <$> found2))
      as [Hf|Hf].
    - apply list_elem_of_fmap in Hf as (r & Hr1 & Hr2). exists (ComponentID r).
      split; [done|]. by apply list_elem_of_fmap_2.
    - destruct Hn. by apply list_elem_of_filter. }
  destruct stillMissing as [|s0 still'] eqn:Hstill_eq.
  { unfold ret. eexists res2, _. split; [reflexivity|].
    apply set_eq. intros k. rewrite Hres2, elem_of_keys_of. split.
    - intros (c & -> & Hin & Hdata). exists c. split; [done|].
      apply list_elem_of_filter. split; [|done]. unfold has_data. tauto.
    - intros (c & -> & Hc). apply list_elem_of_filter in Hc as [Hdata Hin].
      destruct (decide (cached w l s c)) as [Hc|Hnc]; [exists c; tauto|].
      assert (c ∈ missing) as Hcm by by apply Hmissing.
      apply Hres2, Hstill_out; [done|]. apply not_elem_of_nil. }
  rewrite <- Hstill_eq in *. clear Hstill_eq s0 still'.
  unfold bind at 1. rewrite Find_healthy by done. world_simpl.
  set (found1 := database.select (where_active_slot_in stillMissing l s 1)
                                 (translation_versions w)).
  unfold bind at 1.
  destruct (collect_spec l s found1 res2 (with_redis rd2 w)) as (res3 & rd3 & -> & Hdom3).
  unfold ret. eexists res3, _. split; [reflexivity|].
  apply set_eq. intros k. rewrite Hdom3, elem_of_union, Hres2, !elem_of_keys_of. split.
  - intros [(c & -> & Hin & Hdata)|(c & -> & Hc)].
    + exists c. split; [done|]. apply list_elem_of_filter. unfold has_data. tauto.
    + apply list_elem_of_fmap in Hc as (r & -> & Hr).
      apply elem_of_select_in in Hr as (Hr & Hlive & Hin & Hslot).
      apply Hstill_in in Hin as [Hin Hnc]. exists (ComponentID r). split; [done|].
      apply list_elem_of_filter. split; [|done]. right. right.
      apply has_row_iff. eauto.
  - intros (c & -> & Hc). apply list_elem_of_filter in Hc as [Hdata Hin].
    destruct (decide (cached w l s c)) as [Hc|Hnc]; [left; exists c; tauto|].
    assert (c ∈ missing) as Hcm by by apply Hmissing.
    destruct (decide (c ∈ stillMissing)) as [Hs|Hs].
    + destruct Hdata as [?|[Hrow|Hrow]]; [done|left; exists c; tauto|].
      right. apply has_row_iff in Hrow as (r & Hr & Hlive & Hslot).
      exists c. split; [done|]. apply list_elem_of_fmap. exists r.
      split; [by destruct Hslot as (-> & _)|].
      apply elem_of_select_in. destruct Hslot as (Hcr & Hrest). subst c.
      split_and!; done.
    + left. apply Hres2. by apply Hstill_out.
Qed.

(** C6: on a store that answers, the bulk read succeeds and the keys of
    its result are exactly the requested components that have a cache
    entry or an active row in slot 2 or in slot 1 for the locale and
    stage; a component without any of them is left out. *)
Theorem bulk_read_returns_exactly_components_with_data componentIDs l s w :
  healthy w →
  ∃ results w',
    GetMultipleTranslations componentIDs l s w = (inr results, w')
    ∧ dom results = keys_of (filter (has_data w l s) componentIDs)
    ∧ ∀ c, uuid.String c ∈ dom results ↔ c ∈ componentIDs ∧ has_data w l s c.
Proof.
  intros Hw.
  destruct (bulk_read_key_set componentIDs l s w Hw) as (results & w' & Hrun & Hdom).
  exists results, w'. split_and!; [done..|].
  intros c. rewrite Hdom, elem_of_keys_of. split.
  - intros (c' & Heq & Hc'). apply (inj pretty) in Heq as <-.
    apply list_elem_of_filter in Hc'. tauto.
  - intros [Hin Hdata]. exists c. split; [done|]. by apply list_elem_of_filter.
Qed.

(** ** Faults of the store, and the backfill *)

Lemma replicate_app_inv {A} (x : A) k (l1 l2 : list A) :
  l1 ++ l2 = replicate k x →
  l1 = replicate (length l1) x ∧ l2 = replicate (length l2) x.
Proof.
  revert k. induction l1 as [|a l1 IH]; intros k H; simpl in *.
  - split; [done|]. rewrite H. by rewrite length_replicate.
  - destruct k as [|k]; [done|]. simpl in H. injection H as -> H.
    apply IH in H as [H1 H2]. by rewrite <- H1.
Qed.

Lemma served_split w w1 w2 used1 used2 :
  db_faults w = used1 ++ db_faults w1 →
  db_faults w1 = used2 ++ db_faults w2 →
  served w w2 → served w w1 ∧ served w1 w2.
Proof.
  intros H1 H2 [k Hk]. rewrite H1, H2, app_assoc in Hk.
  apply app_inv_tail in Hk. apply replicate_app_inv in Hk as [Hu1 Hu2].
  split; [exists (length used1)|exists (length used2)]; congruence.
Qed.

Lemma transparent_ret {A} (a : A) : transparent (ret a).
Proof.
  intros w a' w' [= <- <-]. split; [by exists []|done].
Qed.

Lemma transparent_bind {A B} (m : M A) (f : A → M B) :
  transparent m → (∀ a, transparent (f a)) → transparent (bind m f).
Proof.
  intros Hm Hf w b w2. unfold bind.
  destruct (m w) as [a w1] eqn:Hmw. intros Hfw.
  destruct (Hm _ _ _ Hmw) as [[used1 Hu1] Hcalm1].
  destruct (Hf a _ _ _ Hfw) as [[used2 Hu2] Hcalm2].
  split.
  - exists (used1 ++ used2). by rewrite <- app_assoc, <- Hu2.
  - intros Hs. destruct (served_split _ _ _ _ _ Hu1 Hu2 Hs) as [Hs1 Hs2].
    by rewrite Hcalm1, Hcalm2.
Qed.

Lemma fault_free_transparent {A} (m : M A) : fault_free m → transparent m.
Proof.
  intros Hm w a w' Hmw. destruct (Hm w) as [Hfs Hany]. rewrite Hmw in Hfs, Hany.
  simpl in *. split; [exists []; by rewrite Hfs|]. intros _. apply Hany.
Qed.

Lemma transparent_fault : transparent database.fault.
Proof.
  intros w b w'. unfold database.fault.
  destruct (db_faults w) as [|b0 fs] eqn:Hfs.
  - intros [= <- <-]. split; [exists []; by rewrite Hfs|]. intros _. reflexivity.
  - intros [= <- <-]. split; [by exists [b0]|].
    intros [k Hk]. rewrite Hfs in Hk. simpl in Hk.
    assert (k = 1) as ->.
    { apply (f_equal length) in Hk. rewrite length_app, length_replicate in Hk.
      simpl in Hk. lia. }
    injection Hk as ->. reflexivity.
Qed.

(** An operation of the store: it fails when the schedule says so, and
    otherwise does what [body] does. *)
Lemma transparent_operation {A} (body : M (Result A)) :
  fault_free body →
  transparent (let* failed := database.fault in
               if failed : bool then ret (inl ErrDriver) else body).
Proof.
  intros Hbody. apply transparent_bind; [apply transparent_fault|].
  intros []; [apply transparent_ret|by apply fault_free_transparent].
Qed.

Ltac fault_free_tac :=
  intros w; split; [|intros fs];
  cbv beta delta [database.insert cache.Get cache.Set_ cache.Delete]; world_simpl;
  repeat case_match; cbn [fst snd]; world_simpl; reflexivity.

Lemma transparent_First (P : TranslationVersion → Prop) `{!∀ r, Decision (P r)} :
  transparent (database.First P).
Proof. apply transparent_operation. fault_free_tac. Qed.

Lemma transparent_Find (P : TranslationVersion → Prop) `{!∀ r, Decision (P r)} :
  transparent (database.Find P).
Proof. apply transparent_operation. fault_free_tac. Qed.

Lemma fault_free_insert row : fault_free (database.insert row).
Proof. fault_free_tac. Qed.

Lemma transparent_Create row : transparent (database.Create row).
Proof. apply transparent_operation, fault_free_insert. Qed.

Lemma transparent_Save row : transparent (database.Save row).
Proof.
  apply transparent_bind; [apply transparent_fault|].
  intros []; [apply transparent_ret|].
  case_decide; apply fault_free_transparent; [apply fault_free_insert|].
  fault_free_tac.
Qed.

Lemma transparent_CleanupOldVersions : transparent database.CleanupOldVersions.
Proof. apply transparent_operation. fault_free_tac. Qed.

Lemma transparent_FirstComponent id : transparent (database.FirstComponent id).
Proof. apply transparent_operation. fault_free_tac. Qed.

Lemma transparent_FirstApplication id : transparent (database.FirstApplication id).
Proof. apply transparent_operation. fault_free_tac. Qed.

Lemma transparent_cache_Get key : transparent (cache.Get key).
Proof. apply fault_free_transparent. fault_free_tac. Qed.

Lemma transparent_cache_Set key v : transparent (cache.Set_ key v).
Proof. apply fault_free_transparent. fault_free_tac. Qed.

Lemma transparent_cache_Delete key : transparent (cache.Delete key).
Proof. apply fault_free_transparent. fault_free_tac. Qed.

Ltac transparency :=
  repeat first
    [ apply transparent_ret
    | apply transparent_First
    | apply transparent_Find
    | apply transparent_Create
    | apply transparent_Save
    | apply transparent_CleanupOldVersions
    | apply transparent_FirstComponent
    | apply transparent_FirstApplication
    | apply transparent_cache_Get
    | apply transparent_cache_Set
    | apply transparent_cache_Delete
    | apply transparent_bind; [|intros ?]
    | match goal with
      | |- transparent (match ?x with _ => _ end) => destruct x
      end ].

Lemma transparent_GetTranslation c l s : transparent (GetTranslation c l s).
Proof. unfold GetTranslation. transparency. Qed.

Lemma transparent_SaveTranslation c l s d u : transparent (SaveTranslation c l s d u).
Proof. unfold SaveTranslation. transparency. Qed.

Lemma transparent_RevertTranslation c l s : transparent (RevertTranslation c l s).
Proof. unfold RevertTranslation. transparency. Qed.

Section BackfillLoop.
Variable engine : string → string → Reply.
Variables (openAIService : OpenAIService) (componentID : N)
          (sourceData : gmap string JSON) (sourceLocale stage : string) (userID : N).

Abbreviation loop := (backfill_loop engine openAIService componentID sourceData
                                sourceLocale stage userID).
Abbreviation translate := (TranslateJSON engine openAIService sourceData sourceLocale).

Lemma transparent_backfill_loop targets results : transparent (loop targets results).
Proof.
  revert results. induction targets as [|l targets IH]; intros results;
    cbn [backfill_loop]; transparency. apply IH.
Qed.

(** The loop over [pre ++ rest] continues with [rest] where the loop
    over [pre] ended. *)
Lemma backfill_loop_app pre rest results results' w w1 :
  loop pre results w = ({| status := StatusOK; body := BodyResults results' |}, w1) →
  loop (pre ++ rest) results w = loop rest results' w1.
Proof.
  revert results w. induction pre as [|l pre IH]; intros results w.
  - simpl. unfold ret. by intros [= <- <-].
  - cbn [backfill_loop app].
    destruct (translate l) as [err|d]; [by unfold ret|].
    unfold bind.
    destruct (SaveTranslation componentID l stage d userID w) as [[e|t] w0];
      [by unfold ret|].
    apply IH.
Qed.
End BackfillLoop.

Lemma same_data_refl w : same_data w w.
Proof. by repeat split. Qed.

Lemma same_data_trans w1 w2 w3 : same_data w1 w2 → same_data w2 w3 → same_data w1 w3.
Proof.
  intros (? & ? & ? & ? & ?) (? & ? & ? & ? & ?). repeat split; congruence.
Qed.

Lemma same_data_calm w w' : same_data w w' → calm w' = calm w.
Proof.
  destruct w, w'. intros (? & ? & ? & ? & ?). simpl in *. by subst.
Qed.

Lemma fault_same_data w b w' : database.fault w = (b, w') → same_data w w'.
Proof.
  unfold database.fault. destruct (db_faults w); intros [= <- <-]; by repeat split.
Qed.

Lemma First_same_data (P : TranslationVersion → Prop) `{!∀ r, Decision (P r)} w a w' :
  database.First P w = (a, w') → same_data w w'.
Proof.
  unfold database.First, bind.
  destruct (database.fault w) as [[] w1] eqn:Hf; apply fault_same_data in Hf.
  - unfold ret. by intros [= <- <-].
  - case_match; by intros [= <- <-].
Qed.

Lemma insert_error row w e w' : database.insert row w = (inl e, w') → w' = w.
Proof. unfold database.insert. case_decide; by intros [= <- <-]. Qed.

Lemma Create_error row w e w' : database.Create row w = (inl e, w') → same_data w w'.
Proof.
  unfold database.Create, bind.
  destruct (database.fault w) as [[] w1] eqn:Hf; apply fault_same_data in Hf.
  - unfold ret. by intros [= <- <-].
  - intros Hi. apply insert_error in Hi. by subst.
Qed.

Lemma Save_error row w e w' : database.Save row w = (inl e, w') → same_data w w'.
Proof.
  unfold database.Save, bind.
  destruct (database.fault w) as [[] w1] eqn:Hf; apply fault_same_data in Hf.
  - unfold ret. by intros [= <- <-].
  - case_decide.
    + intros Hi. apply insert_error in Hi. by subst.
    + case_decide; intros [=].
Qed.

(** A save that reports an error has written nothing. *)
Lemma SaveTranslation_error c l s d u w e w' :
  SaveTranslation c l s d u w = (inl e, w') → same_data w w'.
Proof.
  unfold SaveTranslation, bind.
  destruct (database.First (where_slot c l s 2) w) as [result w1] eqn:H1.
  apply First_same_data in H1.
  match goal with
  | |- (let (_, _) := ?m in _) = _ → _ => destruct m as [saved w2] eqn:H2
  end.
  destruct saved as [err|existing].
  - unfold ret. intros [= <- <-]. eapply same_data_trans; [exact H1|].
    destruct result as [[]|]; cbv beta iota in H2;
      first [by eapply Create_error; exact H2|by eapply Save_error; exact H2].
  - repeat match goal with
           | |- context [let (_, _) := ?m in _] => destruct m
           end.
    unfold ret. intros [=].
Qed.

Section BackfillFailure.
Variable engine : string → string → Reply.
Variables (openAIService : OpenAIService) (componentID : N)
          (sourceData : gmap string JSON) (sourceLocale stage : string) (userID : N).

Abbreviation loop := (backfill_loop engine openAIService componentID sourceData
                                sourceLocale stage userID).
Abbreviation translate := (TranslateJSON engine openAIService sourceData sourceLocale).
Abbreviation persisted :=
  (persisted engine openAIService componentID sourceData sourceLocale stage).
Abbreviation backfilled :=
  (backfilled engine openAIService componentID sourceData sourceLocale stage).

Lemma persisted_readable l w :
  healthy w → store_ok (translation_versions w) → persisted l w →
  ∃ t w', GetTranslation componentID l stage w = (inr t, w')
          ∧ translate l = inr (Data t).
Proof.
  intros Hw Hok (t & Ht & Hd & Hmiss). eexists t, _. split; [|done].
  by apply GetTranslation_slot2.
Qed.

Lemma backfill_loop_healthy targets results w results' w' :
  healthy w → store_ok (translation_versions w) →
  loop targets results w
  = ({| status := StatusOK; body := BodyResults results' |}, w') →
  healthy w' ∧ store_ok (translation_versions w')
  ∧ (∃ saved, results' = results ++ saved ∧ Forall2 backfilled saved targets)
  ∧ (∀ l, l ∈ targets → persisted l w')
  ∧ (∀ l, persisted l w → persisted l w').
Proof.
  revert results w. induction targets as [|l0 targets IH]; intros results w Hw Hok.
  - simpl. unfold ret. intros [= <- <-]. split_and!; [done|done| | |done].
    + exists []. by rewrite app_nil_r.
    + intros l Hl. by apply elem_of_nil in Hl.
  - cbn [backfill_loop].
    destruct (translate l0) as [err|d] eqn:Hd; [by unfold ret|].
    unfold bind.
    destruct (SaveTranslation_healthy componentID l0 stage d userID w Hw Hok)
      as (t & rows1 & -> & Hok1 & Ht & Hdata & _ & Hframe).
    set (w1 := with_redis _ (with_translation_versions rows1 w)).
    intros Hloop.
    destruct (IH (results ++ [t]) w1 Hw Hok1 Hloop)
      as (Hw' & Hok' & (saved & -> & Hsaved) & Hin & Hkeep).
    assert (persisted l0 w1) as Hl0.
    { exists t. split; [done|]. split; [congruence|]. apply lookup_delete_delete. }
    assert (∀ l, persisted l w → persisted l w1) as Hkeep1.
    { intros l (t' & Ht' & Hd' & Hmiss). destruct (decide (l = l0)) as [->|Hne];
        [done|].
      exists t'. split_and!; [|done|].
      - unfold w1. world_simpl. rewrite Hframe; [done|by right|].
        intros (_ & ? & _). done.
      - unfold w1. world_simpl. apply lookup_delete_None. right.
        apply lookup_delete_None. by right. }
    split_and!; [done|done| | |].
    + exists (t :: saved). split; [by rewrite <- app_assoc|].
      constructor; [|done]. apply slot_Some in Ht as (_ & _ & Hc & Hl & Hs & _).
      split_and!; [done..|congruence].
    + intros l [->|Hl]%elem_of_cons; [by apply Hkeep|by apply Hin].
    + intros l Hl. by apply Hkeep, Hkeep1.
Qed.

(** The loop stops at the first target that fails. *)
Lemma backfill_loop_failure pre L suf w results w1 resp w2 :
  store_ok (translation_versions w) →
  loop pre [] w = ({| status := StatusOK; body := BodyResults results |}, w1) →
  served w w1 →
  loop [L] results w1 = (resp, w2) →
  status resp ≠ StatusOK →
  loop (pre ++ L :: suf) [] w = (resp, w2)
  ∧ same_data w1 w2
  ∧ status resp = StatusInternalServerError
  ∧ ((∃ err, translate L = inl err
             ∧ body resp = BodyError ("Failed to translate to " +:+ L +:+ ": "
                                      +:+ Error err))
     ∨ body resp = BodyError ("Failed to save translation for " +:+ L))
  ∧ Forall2 backfilled results pre
  ∧ ∀ l, l ∈ pre →
      ∃ t w3, GetTranslation componentID l stage (calm w2) = (inr t, w3)
              ∧ translate l = inr (Data t).
Proof.
  intros Hok Hpre Hserved HL Hstatus.
  rewrite (backfill_loop_app _ _ _ _ _ _ _ pre (L :: suf) [] results w w1 Hpre).
  assert (loop (L :: suf) results w1 = (resp, w2)
          ∧ same_data w1 w2
          ∧ status resp = StatusInternalServerError
          ∧ ((∃ err, translate L = inl err
                ∧ body resp = BodyError ("Failed to translate to " +:+ L +:+ ": "
                                         +:+ Error err))
             ∨ body resp = BodyError ("Failed to save translation for " +:+ L)))
    as (Hrun & Hsame & Hst & Hbody).
  { revert HL. cbn [backfill_loop].
    destruct (translate L) as [err|d] eqn:Hd.
    - unfold ret. intros [= <- <-]. split_and!; [done|apply same_data_refl|done|].
      left. by exists err.
    - unfold bind.
      destruct (SaveTranslation componentID L stage d userID w1) as [[e|t] w1']
        eqn:Hsave.
      + unfold ret. intros [= <- <-].
        split_and!; [done|by eapply SaveTranslation_error|done|by right].
      + unfold ret. intros [= <- <-]. by destruct Hstatus. }
  split_and!; [done..| |].
  - destruct (transparent_backfill_loop _ _ _ _ _ _ _ pre [] _ _ _ Hpre)
      as [_ Hcalm].
    specialize (Hcalm Hserved).
    apply backfill_loop_healthy in Hcalm as (_ & _ & (saved & -> & Hsaved) & _);
      done.
  - intros l Hl.
    destruct (transparent_backfill_loop _ _ _ _ _ _ _ pre [] _ _ _ Hpre)
      as [_ Hcalm].
    specialize (Hcalm Hserved).
    apply backfill_loop_healthy in Hcalm as (Hw1 & Hok1 & _ & Hin & _); [|done..].
    rewrite (same_data_calm w1 w2) by done.
    by apply persisted_readable, Hin.
Qed.
End BackfillFailure.

Lemma GetTranslation_rows c l s w a w' :
  GetTranslation c l s w = (a, w') →
  translation_versions w' = translation_versions w.
Proof.
  unfold GetTranslation, bind, cache.Get.
  destruct (redis w !! cacheKey_of c l s); [unfold ret; by intros [= <- <-]|].
  destruct (database.First (where_active_slot c l s 2) w) as [r2 w2] eqn:H2.
  apply First_same_data in H2 as (H2 & _).
  assert (∀ r1 w1, database.First (where_active_slot c l s 1) w2 = (r1, w1) →
                   translation_versions w1 = translation_versions w) as H1.
  { intros r1 w1 H. apply First_same_data in H as (H & _). congruence. }
  destruct r2 as [[]|t].
  - destruct (database.First (where_active_slot c l s 1) w2) as [[e|t] w1] eqn:Hf;
      unfold ret, cache.Set_; intros [= <- <-]; world_simpl; eapply H1; reflexivity.
  - unfold ret. by intros [= <- <-].
  - unfold ret. by intros [= <- <-].
  - unfold ret. by intros [= <- <-].
  - unfold ret, cache.Set_. by intros [= <- <-].
Qed.

Lemma FirstComponent_same_data id w a w' :
  database.FirstComponent id w = (a, w') → same_data w w'.
Proof.
  unfold database.FirstComponent, bind.
  destruct (database.fault w) as [[] w1] eqn:Hf; apply fault_same_data in Hf.
  - unfold ret. by intros [= <- <-].
  - case_match; by intros [= <- <-].
Qed.

Lemma FirstApplication_same_data id w a w' :
  database.FirstApplication id w = (a, w') → same_data w w'.
Proof.
  unfold database.FirstApplication, bind.
  destruct (database.fault w) as [[] w1] eqn:Hf; apply fault_same_data in Hf.
  - unfold ret. by intros [= <- <-].
  - case_match; by intros [= <- <-].
Qed.

Lemma GetTranslation_env c l s w a w' :
  GetTranslation c l s w = (a, w') → OPENAI_API_KEY w' = OPENAI_API_KEY w.
Proof.
  unfold GetTranslation, bind, cache.Get.
  destruct (redis w !! cacheKey_of c l s); [unfold ret; by intros [= <- <-]|].
  destruct (database.First (where_active_slot c l s 2) w) as [r2 w2] eqn:H2.
  apply First_same_data in H2 as (_ & _ & _ & _ & H2).
  assert (∀ r1 w1, database.First (where_active_slot c l s 1) w2 = (r1, w1) →
                   OPENAI_API_KEY w1 = OPENAI_API_KEY w) as H1.
  { intros r1 w1 H. apply First_same_data in H as (_ & _ & _ & _ & H). congruence. }
  destruct r2 as [[]|t].
  - destruct (database.First (where_active_slot c l s 1) w2) as [[e|t] w1] eqn:Hf;
      unfold ret, cache.Set_; intros [= <- <-]; world_simpl; eapply H1; reflexivity.
  - unfold ret. by intros [= <- <-].
  - unfold ret. by intros [= <- <-].
  - unfold ret. by intros [= <- <-].
  - unfold ret, cache.Set_. by intros [= <- <-].
Qed.

Section BackfillExt.
Variables engine engine' : string → string → Reply.
Variables (svc : OpenAIService) (c : N) (data : gmap string JSON)
          (src stage : string) (u : N).

(** The loop asks the engine for its targets only. *)
Lemma backfill_loop_ext targets results w :
  (∀ l, l ∈ targets →
        TranslateJSON engine' svc data src l = TranslateJSON engine svc data src l) →
  backfill_loop engine' svc c data src stage u targets results w
  = backfill_loop engine svc c data src stage u targets results w.
Proof.
  revert results w. induction targets as [|l targets IH]; intros results w Hagree; [done|].
  cbn [backfill_loop]. rewrite (Hagree l) by apply list_elem_of_here.
  destruct (TranslateJSON engine svc data src l) as [err|d]; [done|].
  unfold bind. destruct (SaveTranslation c l stage d u w) as [[e|t] w0]; [done|].
  apply IH. intros l' Hl'. apply Hagree. by apply list_elem_of_further.
Qed.
End BackfillExt.

Section BackfillHandler.
Variable engine : string → string → Reply.

(** A backfill that answers 200 and whose store served every request has
    read its component, application and source, and run the loop; what
    comes before the loop depends neither on the targets nor on the
    engine. *)
Lemma BackfillTranslations_reads c src targets stage u w results w1 :
  BackfillTranslations engine (inr c) (backfill_request src targets stage) u w
  = ({| status := StatusOK; body := BodyResults results |}, w1) →
  served w w1 →
  ∃ svc source w0,
    backfill_reads c src stage w svc source
    ∧ (∀ engine' targets',
        BackfillTranslations engine' (inr c) (backfill_request src targets' stage) u w
        = backfill_loop engine' svc c (Data source) src stage u targets' [] w0)
    ∧ translation_versions w0 = translation_versions w
    ∧ served w0 w1.
Proof.
  unfold BackfillTranslations, backfill_request, bind.
  cbn [SourceLocale BackfillStage TargetLocales].
  destruct (database.FirstComponent c w) as [[e|comp] wa] eqn:Ha;
    [unfold ret; intros [=]|].
  destruct (database.FirstApplication (component_ApplicationID comp) wa)
    as [[e|app] wb] eqn:Hb; [unfold ret; intros [=]|].
  destruct (GetTranslation c src stage wb) as [[e|source] w0] eqn:Hc;
    [unfold ret; intros [=]|].
  intros Hrun Hserved.
  destruct (transparent_FirstComponent _ _ _ _ Ha) as [[u1 Hu1] Ca].
  destruct (transparent_FirstApplication _ _ _ _ Hb) as [[u2 Hu2] Cb].
  destruct (transparent_GetTranslation _ _ _ _ _ _ Hc) as [[u3 Hu3] Cc].
  destruct (transparent_backfill_loop _ _ _ _ _ _ _ _ _ _ _ _ Hrun) as [[u4 Hu4] _].
  assert (db_faults wa = (u2 ++ u3 ++ u4) ++ db_faults w1) as Hwa
    by (rewrite Hu2, Hu3, Hu4; by rewrite !app_assoc).
  destruct (served_split _ _ _ _ _ Hu1 Hwa Hserved) as [Sa Sa1].
  assert (db_faults wb = (u3 ++ u4) ++ db_faults w1) as Hwb
    by (rewrite Hu3, Hu4; by rewrite !app_assoc).
  destruct (served_split _ _ _ _ _ Hu2 Hwb Sa1) as [Sb Sb1].
  destruct (served_split _ _ _ _ _ Hu3 Hu4 Sb1) as [Sc Sc1].
  pose proof (FirstComponent_same_data _ _ _ _ Ha) as Da.
  pose proof (FirstApplication_same_data _ _ _ _ Hb) as Db.
  pose proof (same_data_trans _ _ _ Da Db) as Dab.
  specialize (Ca Sa). specialize (Cb Sb). specialize (Cc Sc).
  rewrite (same_data_calm w wa Da) in Ca, Cb.
  rewrite (same_data_calm w wb Dab) in Cb, Cc.
  assert (OPENAI_API_KEY w0 = OPENAI_API_KEY w) as Hkey.
  { rewrite (GetTranslation_env _ _ _ _ _ _ Hc). destruct Dab as (_ & _ & _ & _ & ?).
    done. }
  eexists _, source, w0. split_and!.
  - exists comp, app, (calm w0). split_and!; [done..|reflexivity].
  - intros engine' targets'. by rewrite Hkey.
  - apply GetTranslation_rows in Hc. destruct Dab as (? & _). congruence.
  - done.
Qed.
End BackfillHandler.

Section BackfillClaim.
Variable engine : string → string → Reply.

Abbreviation retrievable := (retrievable engine).

Lemma backfill_run c src stage u targets results w w1 :
  store_ok (translation_versions w) →
  BackfillTranslations engine (inr c) (backfill_request src targets stage) u w
  = ({| status := StatusOK; body := BodyResults results |}, w1) →
  served w w1 →
  ∃ svc source w0,
    backfill_reads c src stage w svc source
    ∧ (∀ engine' targets',
        BackfillTranslations engine' (inr c) (backfill_request src targets' stage) u w
        = backfill_loop engine' svc c (Data source) src stage u targets' [] w0)
    ∧ store_ok (translation_versions w0)
    ∧ backfill_loop engine svc c (Data source) src stage u targets [] w0
      = ({| status := StatusOK; body := BodyResults results |}, w1)
    ∧ served w0 w1
    ∧ Forall2 (backfilled engine svc c (Data source) src stage) results targets
    ∧ ∀ l, l ∈ targets → retrievable svc c source src stage w1 l.
Proof.
  intros Hok Hrun Hserved.
  destruct (BackfillTranslations_reads engine c src targets stage u w results w1
              Hrun Hserved)
    as (svc & source & w0 & Hreads & Hloop & Hrows & Hserved0).
  exists svc, source, w0. rewrite Hloop in Hrun.
  destruct (transparent_backfill_loop _ _ _ _ _ _ _ _ _ _ _ _ Hrun) as [_ Hcalm].
  specialize (Hcalm Hserved0).
  assert (store_ok (translation_versions w0)) as Hok0 by by rewrite Hrows.
  apply backfill_loop_healthy in Hcalm
    as (Hw1 & Hok1 & (saved & -> & Hsaved) & Hin & _); [|done..].
  split_and!; [done..|].
  intros l Hl. by apply persisted_readable, Hin.
Qed.

End BackfillClaim.

(** ** The invariant of the store, on every schedule *)

Lemma store_ok_nil : store_ok [].
Proof. split; constructor. Qed.

Lemma First_elem_of (P : TranslationVersion → Prop) `{!∀ r, Decision (P r)} w r w' :
  database.First P w = (inr r, w') → r ∈ translation_versions w.
Proof.
  unfold database.First, bind.
  destruct (database.fault w) as [[] w1] eqn:Hf; apply fault_same_data in Hf as [Hf _];
    [by unfold ret|].
  rewrite <- Hf.
  destruct (database.least_id _) as [x|] eqn:Hx; intros [= <- <-].
  by apply first_Some in Hx as [? _].
Qed.

Lemma insert_store_ok row w a w' :
  database.insert row w = (a, w') →
  store_ok (translation_versions w) → store_ok (translation_versions w').
Proof.
  unfold database.insert. case_decide as Hdup; intros [= <- <-]; [done|].
  intros [Hnd Hall]. world_simpl. split.
  - rewrite fmap_app. apply NoDup_app. split_and!; [done| |apply NoDup_singleton].
    intros i Hi [->|[]%elem_of_nil]%elem_of_cons. done.
  - apply Forall_app. split; [done|]. repeat constructor.
    unfold database.BeforeCreate. case_decide as Hnil; simpl; [apply fresh_id_not_Nil|done].
Qed.

Lemma Create_store_ok row w a w' :
  database.Create row w = (a, w') →
  store_ok (translation_versions w) → store_ok (translation_versions w').
Proof.
  unfold database.Create, bind.
  destruct (database.fault w) as [[] w1] eqn:Hf; apply fault_same_data in Hf as [Hf _].
  - unfold ret. intros [= <- <-]. by rewrite Hf.
  - rewrite <- Hf. apply insert_store_ok.
Qed.

Lemma Save_store_ok row w a w' :
  database.Save row w = (a, w') →
  ID row = uuid.Nil ∨ IsActive row = true →
  store_ok (translation_versions w) → store_ok (translation_versions w').
Proof.
  unfold database.Save, bind.
  destruct (database.fault w) as [[] w1] eqn:Hf; apply fault_same_data in Hf as [Hf _].
  - unfold ret. intros [= <- <-]. by rewrite Hf.
  - rewrite <- Hf. case_decide as Hnil; [intros H _; by eapply insert_store_ok|].
    intros Hrun [?|Hact]; [done|]. revert Hrun.
    case_decide as Hin; intros [= <- <-] [Hnd Hall]; world_simpl.
    + apply store_ok_fmap; [done| |]; intros r; [by case_decide|].
      intros Hr. rewrite Forall_forall in Hall. case_decide; [done|by apply Hall].
    + split.
      * rewrite fmap_app. apply NoDup_app. split_and!; [done| |apply NoDup_singleton].
        intros i Hi [->|[]%elem_of_nil]%elem_of_cons. done.
      * apply Forall_app. split; [done|]. by repeat constructor.
Qed.

Lemma CleanupOldVersions_store_ok w a w' :
  database.CleanupOldVersions w = (a, w') →
  store_ok (translation_versions w) → store_ok (translation_versions w').
Proof.
  unfold database.CleanupOldVersions, database.Delete, bind.
  destruct (database.fault w) as [[] w1] eqn:Hf; apply fault_same_data in Hf as [Hf _].
  - unfold ret. intros [= <- <-]. by rewrite Hf.
  - intros [= <- <-]. rewrite <- Hf. world_simpl. apply store_ok_cleaned.
Qed.

(** Whatever the store does, [SaveTranslation] keeps the primary keys
    unique and the rows active. *)
Lemma SaveTranslation_store_ok c l s d u w a w' :
  SaveTranslation c l s d u w = (a, w') →
  store_ok (translation_versions w) → store_ok (translation_versions w').
Proof.
  unfold SaveTranslation, bind. intros Hrun Hok. revert Hrun.
  destruct (database.First (where_slot c l s 2) w) as [result w1] eqn:H1.
  assert (store_ok (translation_versions w1)) as Hok1
    by (apply First_same_data in H1 as [-> _]; done).
  match goal with
  | |- (let (_, _) := ?m in _) = _ → _ => destruct m as [saved w2] eqn:H2
  end.
  assert (store_ok (translation_versions w2)) as Hok2.
  { destruct result as [[]|existing]; cbv beta iota in H2;
      try (by eapply Create_store_ok); (eapply Save_store_ok; [exact H2| |done]).
    - by left.
    - by left.
    - by left.
    - right. apply First_elem_of in H1. destruct Hok as [_ Hall].
      rewrite Forall_forall in Hall. by destruct (Hall existing H1). }
  destruct saved as [err|existing]; [unfold ret; by intros [= <- <-]|].
  destruct (database.First (where_slot c l s 1) w2) as [result1 w3] eqn:H3.
  assert (store_ok (translation_versions w3)) as Hok3
    by (apply First_same_data in H3 as [-> _]; done).
  match goal with
  | |- (let (_, _) := ?m in _) = _ → _ => destruct m as [[] w4] eqn:H4
  end.
  assert (store_ok (translation_versions w4)) as Hok4.
  { destruct result1 as [[]|]; cbv beta iota in H4; unfold ret, bind in H4;
      try (by injection H4 as <-).
    destruct (database.Create _ w3) as [created w3'] eqn:Hc.
    injection H4 as <-. by eapply Create_store_ok. }
  unfold cache.Delete.
  match goal with
  | |- (let (_, _) := database.CleanupOldVersions ?w0 in _) = _ → _ =>
      destruct (database.CleanupOldVersions w0) as [cleanup w5] eqn:H5
  end.
  unfold ret. intros [= <- <-]. by eapply CleanupOldVersions_store_ok.
Qed.

(** And so does [RevertTranslation]. *)
Lemma RevertTranslation_store_ok c l s w a w' :
  RevertTranslation c l s w = (a, w') →
  store_ok (translation_versions w) → store_ok (translation_versions w').
Proof.
  unfold RevertTranslation, bind. intros Hrun Hok. revert Hrun.
  destruct (database.First (where_slot c l s 1) w) as [[err|version1] w1] eqn:H1;
    pose proof (First_same_data _ _ _ _ H1) as [Hrows1 _];
    [unfold ret; intros [= <- <-]; by rewrite Hrows1|].
  destruct (database.First (where_slot c l s 2) w1) as [result w2] eqn:H2.
  pose proof (First_same_data _ _ _ _ H2) as [Hrows2 _].
  assert (store_ok (translation_versions w2)) as Hok2 by by rewrite Hrows2, Hrows1.
  assert (∀ row saved w3, database.Save row w2 = (saved, w3) →
            ID row = uuid.Nil ∨ IsActive row = true →
            (match saved with
             | inl err => ret (inl err)
             | inr _ => let* _ := cache.Delete (cacheKey_of c l s) in ret (inr tt)
             end) w3 = (a, w') → store_ok (translation_versions w')) as Hsave.
  { intros row saved w3 Hs Hrow Hend.
    pose proof (Save_store_ok _ _ _ _ Hs Hrow Hok2) as Hok3.
    destruct saved; unfold ret, bind, cache.Delete in Hend; by injection Hend as _ <-. }
  destruct result as [[]|version2].
  - destruct (database.Create _ w2) as [[err|created] w3] eqn:Hc;
      unfold ret; intros [= <- <-]; by eapply Create_store_ok.
  - destruct (database.Save _ w2) as [saved w3] eqn:Hs. eapply Hsave; [exact Hs|by left].
  - destruct (database.Save _ w2) as [saved w3] eqn:Hs. eapply Hsave; [exact Hs|by left].
  - destruct (database.Save _ w2) as [saved w3] eqn:Hs. eapply Hsave; [exact Hs|by left].
  - destruct (database.Save _ w2) as [saved w3] eqn:Hs. eapply Hsave; [exact Hs|].
    right. apply First_elem_of in H2. rewrite Hrows1 in H2. destruct Hok as [_ Hall].
    rewrite Forall_forall in Hall. by destruct (Hall version2 H2).
Qed.

(** ** The claims on concrete states *)

Lemma store_ok_demo : store_ok [demo_row 1 "en" 2; demo_row 2 "en" 1].
Proof.
  split.
  - apply NoDup_cons. split; [|apply NoDup_singleton].
    intros [[=]|[]%elem_of_nil]%elem_of_cons.
  - by repeat constructor.
Qed.

Lemma save_then_read_returns_payload_witness :
  ∃ saved w1 w2,
    SaveTranslation 7 "en" StageDraft {[ "title" := JStr "Welcome" ]} 1
      (demo_world [demo_row 1 "en" 2; demo_row 2 "en" 1] ∅ []) = (inr saved, w1)
    ∧ GetTranslation 7 "en" StageDraft w1 = (inr saved, w2)
    ∧ Data saved = {[ "title" := JStr "Welcome" ]}.
Proof.
  apply (save_then_read_returns_payload 7 "en" StageDraft
           {[ "title" := JStr "Welcome" ]} 1
           (demo_world [demo_row 1 "en" 2; demo_row 2 "en" 1] ∅ [])).
  - reflexivity.
  - exact store_ok_demo.
Defined.

Lemma revert_restores_first_save_witness :
  let w := demo_world [demo_row 1 "en" 2; demo_row 2 "en" 1] ∅ [] in
  let P1 : JSONB := {[ "title" := JStr "Bienvenue" ]} in
  let P2 : JSONB := {[ "title" := JStr "Salut" ]} in
  let later : list (JSONB * UUID) :=
    [ ({[ "title" := JStr "Bonjour" ]}, 2%N); ({[ "title" := JStr "Coucou" ]}, 1%N) ] in
  ∃ saved1 w1 first saved2 w2 w3 read w4,
    SaveTranslation 7 "fr" StageDraft P1 1 w = (inr saved1, w1)
    ∧ slot 7 "fr" StageDraft 1 (translation_versions w1) = Some first ∧ Data first = P1
    ∧ SaveTranslation 7 "fr" StageDraft P2 2 w1 = (inr saved2, w2)
    ∧ slot 7 "fr" StageDraft 2 (translation_versions w2) = Some saved2 ∧ Data saved2 = P2
    ∧ slot 7 "fr" StageDraft 1 (translation_versions w2) = Some first
    ∧ RevertTranslation 7 "fr" StageDraft w2 = (inr tt, w3)
    ∧ GetTranslation 7 "fr" StageDraft w3 = (inr read, w4)
    ∧ Data read = P1
    ∧ let w2' := (later_saves 7 "fr" StageDraft later w2).2 in
      slot 7 "fr" StageDraft 1 (translation_versions w2') = Some first
      ∧ (∃ current, slot 7 "fr" StageDraft 2 (translation_versions w2') = Some current
                    ∧ Data current = default P2 (last later.*1))
      ∧ ∃ w3' read' w4',
          RevertTranslation 7 "fr" StageDraft w2' = (inr tt, w3')
          ∧ GetTranslation 7 "fr" StageDraft w3' = (inr read', w4')
          ∧ Data read' = P1.
Proof.
  intros w P1 P2 later.
  apply (revert_restores_first_save 7 "fr" StageDraft P1 P2 1 2 later w).
  - reflexivity.
  - exact store_ok_demo.
  - intros r Hr (_ & Hl & _).
    apply elem_of_cons in Hr as [->|Hr]; [discriminate Hl|].
    apply elem_of_cons in Hr as [->|Hr]; [discriminate Hl|].
    by apply elem_of_nil in Hr.
Defined.

Lemma bulk_read_witness :
  ∃ results w',
    GetMultipleTranslations [7%N; 8%N] "en" StageDraft
      (demo_world [demo_row 1 "en" 2; demo_row 2 "en" 1] ∅ []) = (inr results, w')
    ∧ dom results
      = keys_of (filter (has_data (demo_world [demo_row 1 "en" 2; demo_row 2 "en" 1] ∅ [])
                                  "en" StageDraft) [7%N; 8%N])
    ∧ ∀ c, uuid.String c ∈ dom results ↔
           c ∈ [7%N; 8%N]
           ∧ has_data (demo_world [demo_row 1 "en" 2; demo_row 2 "en" 1] ∅ [])
                      "en" StageDraft c.
Proof.
  apply (bulk_read_returns_exactly_components_with_data [7%N; 8%N] "en" StageDraft
           (demo_world [demo_row 1 "en" 2; demo_row 2 "en" 1] ∅ [])).
  reflexivity.
Defined.

(** The keys of that bulk read: component 7 has rows, component 8 has none. *)
Lemma bulk_read_example :
  filter (has_data (demo_world [demo_row 1 "en" 2; demo_row 2 "en" 1] ∅ [])
                   "en" StageDraft) [7%N; 8%N] = [7%N].
Proof. reflexivity. Qed.

(** C3: a key with a row in slot 1 only is read, which puts that row into
    the cache; [RevertTranslation] then creates slot 2 from slot 1 and
    returns without error from the branch that creates the row, before the
    line that deletes the cache entry: the entry is still there, and the
    next read returns the cached row of slot 1, not the new row of slot 2. *)
Theorem revert_created_slot_keeps_cache_entry :
  let w0 := demo_world [demo_row 1 "en" 1] ∅ [] in
  let w1 := (GetTranslation 7 "en" StageDraft w0).2 in
  let w2 := (RevertTranslation 7 "en" StageDraft w1).2 in
  slot 7 "en" StageDraft 2 (translation_versions w1) = None
  ∧ redis w1 !! cacheKey_of 7 "en" StageDraft = Some (demo_row 1 "en" 1)
  ∧ (RevertTranslation 7 "en" StageDraft w1).1 = inr tt
  ∧ slot 7 "en" StageDraft 2 (translation_versions w2)
    = Some (new_row 7 "en" StageDraft 2 demo_payload uuid.Nil [demo_row 1 "en" 1])
  ∧ redis w2 !! cacheKey_of 7 "en" StageDraft = Some (demo_row 1 "en" 1)
  ∧ (GetTranslation 7 "en" StageDraft w2).1 = inr (demo_row 1 "en" 1).
Proof. vm_compute. split_and!; reflexivity. Qed.

(** C4: failures of the store that the caller never sees.  The batched
    query of the bulk read fails and the call returns an empty map and no
    error, although the component has a row; the insert of the row of
    slot 1 fails and [SaveTranslation] returns the saved row and no error,
    leaving the key without slot 1. *)
Theorem store_failures_are_swallowed :
  (∃ w', GetMultipleTranslations [7%N] "en" StageDraft
           (demo_world [demo_row 1 "en" 2] ∅ [true]) = (inr ∅, w'))
  ∧ has_row (demo_world [demo_row 1 "en" 2] ∅ [true]) "en" StageDraft 2 7
  ∧ (∃ saved w',
        SaveTranslation 7 "en" StageDraft demo_payload 1
          (demo_world [] ∅ [false; false; false; true]) = (inr saved, w')
        ∧ db_faults w' = []
        ∧ slot 7 "en" StageDraft 2 (translation_versions w') = Some saved
        ∧ slot 7 "en" StageDraft 1 (translation_versions w') = None).
Proof.
  split_and!.
  - eexists. vm_compute. reflexivity.
  - apply Exists_cons_hd. by vm_compute.
  - eexists _, _. split; [vm_compute; reflexivity|]. by vm_compute.
Qed.

(** A backfill stopped by the store: the schedule serves the requests of
    the target ["id"] and fails the insert of the row of ["es"]; the rows
    of ["id"] are there, the answer names ["es"], and ["fr"] has no row. *)
Lemma backfill_save_failure_example :
  let w := demo_world [demo_row 1 "en" 2; demo_row 2 "en" 1] ∅
                      (replicate 9 false ++ [true; false; true]) in
  let run := BackfillTranslations forgetful_engine (inr 7%N)
               (backfill_request "en" ["id"; "es"; "fr"] StageDraft) 1 w in
  run.1 = {| status := StatusInternalServerError;
             body := BodyError "Failed to save translation for es" |}
  ∧ (fun r => (Locale r, Version r)) <$> translation_versions run.2
    = [("en", 2%Z); ("en", 1%Z); ("id", 2%Z); ("id", 1%Z)]
  ∧ db_faults run.2 = [false; true].
Proof. vm_compute. split_and!; reflexivity. Qed.


(** * Further properties *)

(** ** Template values *)

Lemma HasPrefix_nil s : strings.HasPrefix s EmptyString = true.
Proof. by destruct s. Qed.

Lemma Contains_lbracket_cons c s :
  strings.Contains (String c s) "[" = Ascii.eqb regexp.lbracket c || strings.Contains s "[".
Proof.
  cbn [strings.Contains strings.HasPrefix]. rewrite HasPrefix_nil.
  unfold regexp.lbracket. by destruct (Ascii.eqb _ c).
Qed.

Lemma String_append_nil_l s : EmptyString +:+ s = s.
Proof. reflexivity. Qed.

Lemma String_append_cons a s t : String a s +:+ t = String a (s +:+ t).
Proof. reflexivity. Qed.

Ltac app_simpl := rewrite ?String_append_cons, ?String_append_nil_l.

Lemma String_append_nil_r s : s +:+ EmptyString = s.
Proof. induction s; app_simpl; congruence. Qed.

Lemma String_append_assoc s1 s2 s3 : (s1 +:+ s2) +:+ s3 = s1 +:+ (s2 +:+ s3).
Proof. induction s1; app_simpl; congruence. Qed.

Lemma match_group_app acc v post :
  strings.Contains v "]" = false → acc +:+ v ≠ EmptyString →
  regexp.match_group acc (v +:+ String regexp.rbracket post) = Some (acc +:+ v, post).
Proof.
  revert acc. induction v as [|d v IH]; intros acc Hv Hne; simpl.
  -     rewrite String_append_nil_r in *. by destruct acc.
  - fold closing in Hv. rewrite Contains_closing_cons in Hv.
    apply orb_false_iff in Hv as [Hd Hv].
    rewrite Ascii.eqb_sym, Hd.
    assert (acc +:+ String d v = (acc +:+ String d "") +:+ v) as Happ
      by by rewrite String_append_assoc.
    rewrite Happ in *. by apply IH.
Qed.

Lemma placeholder_of_app v post :
  "[" +:+ v +:+ "]" +:+ post = placeholder_of v +:+ post.
Proof. unfold placeholder_of. app_simpl. rewrite String_append_assoc. by app_simpl. Qed.

Lemma FindAllStringSubmatch_app pre v post :
  strings.Contains pre "[" = false → v ≠ EmptyString →
  strings.Contains v "]" = false →
  regexp.FindAllStringSubmatch (pre +:+ placeholder_of v +:+ post)
  = (placeholder_of v, v) :: regexp.FindAllStringSubmatch post.
Proof.
  intros Hpre Hv Hclosed. induction pre as [|c pre IH].
  - unfold placeholder_of. app_simpl. rewrite FindAllStringSubmatch_cons.
    rewrite Ascii.eqb_refl, String_append_assoc. app_simpl.
    by rewrite match_group_app.
  - rewrite Contains_lbracket_cons in Hpre.
    apply orb_false_iff in Hpre as [Hc Hpre].
    app_simpl. rewrite FindAllStringSubmatch_cons.
    rewrite Ascii.eqb_sym, Hc. by apply IH.
Qed.

(** X1: the template values of a text that starts with plain text, then a
    placeholder, are the value of the placeholder and then those of the
    rest. *)
Theorem ExtractTemplateValues_app pre v post :
  strings.Contains pre "[" = false → v ≠ EmptyString →
  strings.Contains v "]" = false →
  ExtractTemplateValues (pre +:+ "[" +:+ v +:+ "]" +:+ post)
  = v :: ExtractTemplateValues post.
Proof.
  intros Hpre Hv Hclosed. unfold ExtractTemplateValues.
  by rewrite placeholder_of_app, FindAllStringSubmatch_app.
Qed.

Lemma ExtractTemplateValues_app_witness :
  ExtractTemplateValues ("Dear " +:+ "[" +:+ "first" +:+ "]" +:+ " [last]")
  = "first" :: ExtractTemplateValues " [last]".
Proof. by apply ExtractTemplateValues_app. Defined.

Lemma preserve_loop_kept translated values i :
  Forall (fun v => strings.Contains translated (placeholder_of v) = true) values →
  preserve_loop i values translated = translated.
Proof.
  intros Hall. revert i. induction Hall as [|v values Hv _ IH]; intros i; [done|].
  cbn [preserve_loop]. unfold preserve_step at 1. rewrite Hv. cbn [negb]. apply IH.
Qed.

(** X2: when the translated text holds the placeholder of every template
    value of the original, [PreserveTemplateValues] returns it unchanged. *)
Theorem PreserveTemplateValues_kept text translated :
  Forall (fun v => strings.Contains translated (placeholder_of v) = true)
         (ExtractTemplateValues text) →
  PreserveTemplateValues text translated = translated.
Proof.
  intros Hall. unfold PreserveTemplateValues.
  destruct (ExtractTemplateValues text) eqn:E; [done|]. by apply preserve_loop_kept.
Qed.

Lemma PreserveTemplateValues_kept_witness :
  PreserveTemplateValues "Hi [name], [count] new" "Hola [name], [count] nuevos"
  = "Hola [name], [count] nuevos".
Proof. apply PreserveTemplateValues_kept. vm_compute. repeat constructor. Defined.

Lemma HasPrefix_app p s : strings.HasPrefix (p +:+ s) p = true.
Proof.
  induction p as [|a p IH]; app_simpl; cbn [strings.HasPrefix]; [by destruct s|].
  by rewrite Ascii.eqb_refl.
Qed.

Lemma String_drop_app_length p s : strings.drop (String.length p) (p +:+ s) = s.
Proof. induction p; app_simpl; simpl; [by destruct s|done]. Qed.

Lemma Replace1_unfold s old new :
  strings.Replace1 s old new
  = if strings.HasPrefix s old then new +:+ strings.drop (String.length old) s
    else match s with
         | EmptyString => EmptyString
         | String c s' => String c (strings.Replace1 s' old new)
         end.
Proof. by destruct s. Qed.

Lemma Replace1_app pre old new post :
  strings.Contains pre "[" = false →
  strings.Replace1 (pre +:+ String regexp.lbracket (old +:+ post))
                   (String regexp.lbracket old) new
  = pre +:+ new +:+ post.
Proof.
  intros Hpre. induction pre as [|c pre IH].
  - rewrite String_append_nil_l, <- String_append_cons.
    by rewrite Replace1_unfold, HasPrefix_app, String_drop_app_length.
  - rewrite Contains_lbracket_cons in Hpre.
    apply orb_false_iff in Hpre as [Hc Hpre].
    rewrite !(String_append_cons c), Replace1_unfold. cbn [strings.HasPrefix].
    rewrite Hc. by rewrite IH.
Qed.

(** X3: the restoration at work.  The original has one template value
    [v]; the translated text starts with plain text and has the bracketed
    token [[u]] where [[v]] should be, and [[v]] nowhere.  Then the token is
    replaced by [[v]] and the rest is kept. *)
Theorem PreserveTemplateValues_restores text v pre u post :
  ExtractTemplateValues text = [v] →
  strings.Contains pre "[" = false → u ≠ EmptyString →
  strings.Contains u "]" = false →
  strings.Contains (pre +:+ "[" +:+ u +:+ "]" +:+ post) ("[" +:+ v +:+ "]") = false →
  PreserveTemplateValues text (pre +:+ "[" +:+ u +:+ "]" +:+ post)
  = pre +:+ "[" +:+ v +:+ "]" +:+ post.
Proof.
  intros Htext Hpre Hu Hclosed Hmissing.
  unfold PreserveTemplateValues. rewrite Htext. cbn [preserve_loop].
  unfold preserve_step.
  change ("[" +:+ v +:+ "]") with (placeholder_of v) in *.
  rewrite Hmissing. cbn [negb].
  rewrite !placeholder_of_app. rewrite FindAllStringSubmatch_app by done.
  cbn [lookup list_lookup fst].
  unfold placeholder_of at 1 2. by rewrite String_append_cons, Replace1_app.
Qed.

Lemma PreserveTemplateValues_restores_witness :
  PreserveTemplateValues "Hi [name]!" ("Hola " +:+ "[" +:+ "nombre" +:+ "]" +:+ "!")
  = "Hola " +:+ "[" +:+ "name" +:+ "]" +:+ "!".
Proof. by apply PreserveTemplateValues_restores. Defined.

(** ** Structured translation, entry by entry *)

Section TranslateJSON_values.

Variable engine : string → string → Reply.
Variable s : OpenAIService.
Variables sourceLang targetLang : string.

Abbreviation entry := (TranslateJSON_entry engine s sourceLang targetLang).
Abbreviation translated_entry' := (translated_entry engine s sourceLang targetLang).
Abbreviation translatable' := (translatable engine s sourceLang targetLang).

(** What one step of the loop returns, by the kind of the value. *)
Lemma TranslateJSON_entry_inr key value acc result :
  entry key value (inr acc) = inr result ↔
  ∃ v', translated_entry' value v' ∧ result = <[key := v']> acc.
Proof.
  unfold TranslateJSON_entry, translated_entry, TranslateJSON.
  destruct value as [| b | n | text | l | m].
  1-3, 5: split; [intros [= <-]; by eexists|intros (v' & -> & ->); done].
  - destruct (Translate engine s text sourceLang targetLang) as [e|t].
    + split; [done|]. by intros (v' & (t & [=] & _) & _).
    + split; [intros [= <-]; eauto|].
      by intros (v' & (t' & [= <-] & ->) & ->).
  - destruct (TranslateJSON_rec engine s sourceLang targetLang (JObj m)) as [e|res].
    + split; [done|]. by intros (v' & (t & [=] & _) & _).
    + split; [intros [= <-]; eauto|].
      by intros (v' & (t' & [= <-] & ->) & ->).
Qed.

Lemma TranslateJSON_entry_inl key value e : entry key value (inl e) = inl e.
Proof. done. Qed.

(** X4: a successful [TranslateJSON] has translated entry by entry. *)
Theorem TranslateJSON_translates_each_entry (data result : gmap string JSON) :
  TranslateJSON engine s data sourceLang targetLang = inr result →
  dom result = dom data
  ∧ ∀ key v, data !! key = Some v →
      ∃ v', result !! key = Some v' ∧ translated_entry engine s sourceLang targetLang v v'.
Proof.
  rewrite TranslateJSON_unfold. revert result.
  induction data as [|i x data Hi Hfirst IH] using map_first_key_ind; intros result.
  - rewrite map_fold_empty. intros [= <-]. split; [by rewrite !dom_empty_L|].
    intros key v H. by rewrite lookup_empty in H.
  - rewrite map_fold_insert_first_key by done.
    destruct (map_fold entry (inr ∅) data) as [e|acc]; [done|].
    destruct (IH acc eq_refl) as [Hdom Hvals].
    intros (x' & Hx' & ->)%TranslateJSON_entry_inr.
    split; [by rewrite !dom_insert_L, Hdom|].
    intros key v. destruct (decide (i = key)) as [->|Hne].
    + rewrite !lookup_insert_eq. intros [= <-]. eauto.
    + rewrite !lookup_insert_ne by done. apply Hvals.
Qed.

(** X5: [TranslateJSON] succeeds exactly when every entry can be
    translated, in whatever order the loop visits the entries. *)
Theorem TranslateJSON_succeeds_iff (data : gmap string JSON) :
  (∃ result, TranslateJSON engine s data sourceLang targetLang = inr result)
  ↔ map_Forall (fun _ v => translatable engine s sourceLang targetLang v) data.
Proof.
  rewrite TranslateJSON_unfold.
  induction data as [|i x data Hi Hfirst IH] using map_first_key_ind.
  - rewrite map_fold_empty. split; [intros _; apply map_Forall_empty|eauto].
  - rewrite map_fold_insert_first_key, map_Forall_insert by done.
    assert (translatable' x ↔ ∃ x', translated_entry' x x') as Hx.
    { unfold translatable, translated_entry.
      destruct x; split; try done; try (intros _; by eexists);
        try (intros (t & ?); by eexists _, t); intros (? & t & ? & ?); by exists t. }
    rewrite Hx, <- IH. clear IH Hx.
    destruct (map_fold entry (inr ∅) data) as [e|acc].
    + split; [by intros [? [=]]|by intros [_ [? [=]]]].
    + split.
      * intros [result (x' & Hx' & _)%TranslateJSON_entry_inr]. eauto.
      * intros [[x' Hx'] _]. exists (<[i := x']> acc).
        apply TranslateJSON_entry_inr. eauto.
Qed.

Lemma map_fold_TranslateJSON_entry_copy (data : gmap string JSON) :
  map_Forall (fun _ v => translated_entry engine s sourceLang targetLang v v) data →
  map_fold entry (inr ∅) data = inr data.
Proof.
  induction data as [|i x data Hi Hfirst IH] using map_first_key_ind; intros Hall.
  - by rewrite map_fold_empty.
  - rewrite map_fold_insert_first_key by done.
    apply map_Forall_insert in Hall as [Hx Hall]; [|done].
    rewrite IH by done. apply TranslateJSON_entry_inr. eauto.
Qed.

(** X6: a payload in which [TranslateJSON] reaches no string is returned as
    it is, whatever the engine and the key of the service are. *)
Theorem TranslateJSON_without_text (data : gmap string JSON) :
  ¬ holds_text (JObj data) →
  TranslateJSON engine s data sourceLang targetLang = inr data.
Proof.
  generalize (eq_refl (JObj data)). generalize (JObj data) at 1 3 as v.
  intros v. revert data.
  induction v as [v IH] using json_size_ind. intros data -> Hnone.
  rewrite TranslateJSON_unfold. apply map_fold_TranslateJSON_entry_copy.
  intros key v Hkey. unfold translated_entry.
  destruct v as [| b | n | text | l | m]; try done.
  - destruct Hnone. eapply holds_text_obj; [done|constructor].
  - exists m. split; [|done]. eapply IH; [|done|].
    + by eapply json_size_lookup.
    + intros Hm. destruct Hnone. by eapply holds_text_obj.
Qed.

End TranslateJSON_values.

(** ** Go's [strings] *)

Lemma Contains_byte_cons c s a :
  strings.Contains (String c s) (String a EmptyString)
  = Ascii.eqb a c || strings.Contains s (String a EmptyString).
Proof.
  cbn [strings.Contains strings.HasPrefix]. rewrite HasPrefix_nil.
  by destruct (Ascii.eqb a c).
Qed.

Lemma Contains_byte_app s t a :
  strings.Contains (s +:+ t) (String a EmptyString)
  = strings.Contains s (String a EmptyString) || strings.Contains t (String a EmptyString).
Proof.
  induction s as [|c s IH]; app_simpl; [by destruct t|].
  rewrite !Contains_byte_cons, IH. by rewrite orb_assoc.
Qed.

Lemma Join_cons e e' elems sep :
  strings.Join (e :: e' :: elems) sep = e +:+ sep +:+ strings.Join (e' :: elems) sep.
Proof. done. Qed.

Section one_byte.

Variable a : ascii.
Abbreviation sep := (String a EmptyString).

Lemma Split_nil : strings.Split EmptyString sep = [EmptyString].
Proof. done. Qed.

Lemma Split_cons c s :
  strings.Split (String c s) sep
  = if Ascii.eqb a c then EmptyString :: strings.Split s sep
    else match strings.Split s sep with
         | piece :: pieces => String c piece :: pieces
         | [] => [String c EmptyString]
         end.
Proof.
  unfold strings.Split. cbn [strings.split_from strings.HasPrefix String.length].
  rewrite HasPrefix_nil. by destruct (Ascii.eqb a c).
Qed.

Lemma Split_piece p :
  strings.Contains p sep = false → strings.Split p sep = [p].
Proof.
  induction p as [|c p IH]; [done|]. rewrite Contains_byte_cons, Split_cons.
  intros [-> Hp]%orb_false_iff. by rewrite IH.
Qed.

Lemma Split_app p s :
  strings.Contains p sep = false →
  strings.Split (p +:+ sep +:+ s) sep = p :: strings.Split s sep.
Proof.
  induction p as [|c p IH].
  - intros _. app_simpl. by rewrite Split_cons, Ascii.eqb_refl.
  - rewrite (String_append_cons c), Contains_byte_cons, Split_cons.
    intros [-> Hp]%orb_false_iff. by rewrite IH.
Qed.

Lemma Split_Join elems :
  elems ≠ [] → Forall (fun e => strings.Contains e sep = false) elems →
  strings.Split (strings.Join elems sep) sep = elems.
Proof.
  intros Hne Hall. induction Hall as [|e elems He Hall IH]; [done|].
  destruct elems as [|e' elems].
  - by apply Split_piece.
  - rewrite Join_cons, Split_app by done. by rewrite IH.
Qed.

(** [strings.ReplaceAll] for an [old] of one byte. *)
Lemma ReplaceAll_byte_cons c s new :
  strings.ReplaceAll (String c s) sep new
  = if Ascii.eqb a c then new +:+ strings.ReplaceAll s sep new
    else String c (strings.ReplaceAll s sep new).
Proof.
  unfold strings.ReplaceAll. cbn [strings.replace_from strings.HasPrefix String.length].
  rewrite HasPrefix_nil. by destruct (Ascii.eqb a c).
Qed.

(** [strings.ReplaceAll] for an [old] of two bytes. *)
Lemma ReplaceAll_pair_cons b c s new :
  strings.ReplaceAll (String c s) (String a (String b EmptyString)) new
  = match s with
    | String d s' =>
        if Ascii.eqb a c && Ascii.eqb b d
        then new +:+ strings.ReplaceAll s' (String a (String b EmptyString)) new
        else String c (strings.ReplaceAll s (String a (String b EmptyString)) new)
    | EmptyString => String c EmptyString
    end.
Proof.
  unfold strings.ReplaceAll.
  destruct s as [|d s'];
    cbn [strings.replace_from strings.HasPrefix String.length Nat.sub].
  - by destruct (Ascii.eqb a c).
  - rewrite HasPrefix_nil.
    by destruct (Ascii.eqb a c), (Ascii.eqb b d).
Qed.

End one_byte.

(** ** White space, again *)

Lemma trim_left_none table fuel s :
  strings.leading table s = None → strings.trim_left table fuel s = s.
Proof. intros H. destruct fuel; [done|]. cbn [strings.trim_left]. by rewrite H. Qed.

Lemma String_rev_involutive s : strings.rev (strings.rev s) = s.
Proof.
  unfold strings.rev.
  by rewrite list_ascii_of_string_of_list_ascii, List.rev_involutive,
    string_of_list_ascii_of_string.
Qed.

Lemma list_ascii_of_string_app s t :
  list_ascii_of_string (s +:+ t) = list_ascii_of_string s ++ list_ascii_of_string t.
Proof. induction s as [|c s IH]; app_simpl; [done|]. simpl. by rewrite IH. Qed.

Lemma String_rev_snoc s c :
  strings.rev (s +:+ String c EmptyString) = String c (strings.rev s).
Proof.
  unfold strings.rev. rewrite list_ascii_of_string_app. simpl.
  by rewrite List.rev_app_distr.
Qed.

(** A text that neither starts nor ends with white space is left as it
    is. *)
Lemma TrimSpace_id s :
  strings.leading strings.white_space s = None →
  strings.leading (map strings.rev strings.white_space) (strings.rev s) = None →
  strings.TrimSpace s = s.
Proof.
  intros Hl Hr. unfold strings.TrimSpace. cbv zeta.
  rewrite (trim_left_none strings.white_space) by done.
  rewrite trim_left_none by done.
  apply String_rev_involutive.
Qed.

(** ** [StringArray] *)

Section StringArray.

Abbreviation escape1 v :=
  (strings.ReplaceAll v (String backslash EmptyString)
     (String backslash (String backslash EmptyString))).
Abbreviation escape v :=
  (strings.ReplaceAll (escape1 v) (String double_quote EmptyString)
     (String backslash (String double_quote EmptyString))).

Lemma escape1_cons c v :
  escape1 (String c v)
  = if Ascii.eqb backslash c then String backslash (String backslash (escape1 v))
    else String c (escape1 v).
Proof. rewrite ReplaceAll_byte_cons. by app_simpl. Qed.

Lemma escape_cons c v :
  escape (String c v)
  = if Ascii.eqb backslash c then String backslash (String backslash (escape v))
    else if Ascii.eqb double_quote c then String backslash (String double_quote (escape v))
    else String c (escape v).
Proof.
  rewrite escape1_cons. destruct (Ascii.eqb backslash c) eqn:Hc.
  - rewrite !ReplaceAll_byte_cons. done.
  - rewrite ReplaceAll_byte_cons. by app_simpl.
Qed.

Lemma escape_head v d s' :
  escape v = String d s' → Ascii.eqb double_quote d = false.
Proof.
  destruct v as [|c v]; [done|]. rewrite escape_cons.
  destruct (Ascii.eqb backslash c) eqn:Hb; [by intros [= <- _]|].
  destruct (Ascii.eqb double_quote c) eqn:Hq; [by intros [= <- _]|].
  by intros [= <- _].
Qed.

Lemma unescape_quotes v :
  strings.ReplaceAll (escape v) (String backslash (String double_quote EmptyString))
                      (String double_quote EmptyString)
  = escape1 v.
Proof.
  induction v as [|c v IH]; [done|]. rewrite escape_cons, escape1_cons.
  destruct (Ascii.eqb backslash c) eqn:Hb; [|destruct (Ascii.eqb double_quote c) eqn:Hq].
  - rewrite ReplaceAll_pair_cons. cbn [andb]. 
    replace (Ascii.eqb double_quote backslash) with false by done.
    rewrite andb_false_r. f_equal.
    rewrite ReplaceAll_pair_cons. destruct (escape v) as [|d s'] eqn:E.
    + rewrite <- IH. reflexivity.
    + rewrite (escape_head v d s') by done. rewrite andb_false_r. by rewrite IH.
  - apply Ascii.eqb_eq in Hq as <-.
    rewrite ReplaceAll_pair_cons. rewrite !Ascii.eqb_refl. cbn [andb].
    app_simpl. by rewrite IH.
  - rewrite ReplaceAll_pair_cons. destruct (escape v) as [|d s'] eqn:E.
    + rewrite <- IH. reflexivity.
    + rewrite Hb. cbn [andb]. by rewrite IH.
Qed.

Lemma unescape_backslashes v :
  strings.ReplaceAll (escape1 v) (String backslash (String backslash EmptyString))
                      (String backslash EmptyString)
  = v.
Proof.
  induction v as [|c v IH]; [done|]. rewrite escape1_cons.
  destruct (Ascii.eqb backslash c) eqn:Hb.
  - apply Ascii.eqb_eq in Hb as <-.
    rewrite ReplaceAll_pair_cons, !Ascii.eqb_refl. cbn [andb]. app_simpl.
    by rewrite IH.
  - rewrite ReplaceAll_pair_cons. destruct (escape1 v) as [|d s'] eqn:E.
    + rewrite <- IH. reflexivity.
    + rewrite Hb. cbn [andb]. by rewrite IH.
Qed.

Lemma escape_Contains v a :
  Ascii.eqb a backslash = false → Ascii.eqb a double_quote = false →
  strings.Contains (escape v) (String a EmptyString)
  = strings.Contains v (String a EmptyString).
Proof.
  intros Hb Hq. induction v as [|c v IH]; [done|]. rewrite escape_cons.
  destruct (Ascii.eqb backslash c) eqn:Hbc; [|destruct (Ascii.eqb double_quote c) eqn:Hqc].
  - apply Ascii.eqb_eq in Hbc as <-. rewrite !Contains_byte_cons, Hb, IH. done.
  - apply Ascii.eqb_eq in Hqc as <-. rewrite !Contains_byte_cons, Hb, Hq, IH. done.
  - by rewrite !Contains_byte_cons, IH.
Qed.

Lemma String_length_append s t : String.length (s +:+ t) = String.length s + String.length t.
Proof. induction s as [|c s IH]; app_simpl; [done|]. simpl. by rewrite IH. Qed.

Lemma String_get_snoc s c : String.get (String.length s) (s +:+ String c EmptyString) = Some c.
Proof. induction s as [|d s IH]; app_simpl; [done|]. simpl. exact IH. Qed.

Lemma String_take_app_length s t : strings.take (String.length s) (s +:+ t) = s.
Proof.
  induction s as [|c s IH]; app_simpl; [by destruct t|]. simpl. by rewrite IH.
Qed.

Lemma TrimSuffix_snoc s a :
  strings.TrimSuffix (s +:+ String a EmptyString) (String a EmptyString) = s.
Proof.
  unfold strings.TrimSuffix, strings.HasSuffix. rewrite String_rev_snoc.
  change (strings.rev (String a EmptyString)) with (String a EmptyString).
  cbn [strings.HasPrefix]. rewrite Ascii.eqb_refl, HasPrefix_nil.
  rewrite String_length_append. cbn [String.length].
  replace (String.length s + 1 - 1) with (String.length s) by lia.
  apply String_take_app_length.
Qed.

Lemma unquote_quote v : StringArray_unquote (StringArray_quote v) = v.
Proof.
  unfold StringArray_unquote, StringArray_quote. cbv zeta.
  set (e := escape v). rewrite TrimSpace_id; cycle 1.
  { reflexivity. }
  { rewrite String_rev_snoc. reflexivity. }
  rewrite String_append_cons. cbn [String.length strings.drop String.get].
  rewrite String_length_append. cbn [String.length].
  replace (S (String.length e + 1) - 1) with (S (String.length e)) by lia.
  replace (S (String.length e + 1) - 2) with (String.length e) by lia.
  cbn [String.get]. rewrite String_get_snoc, String_take_app_length.
  rewrite bool_decide_true by (split_and!; [lia|done|done]).
  subst e. rewrite unescape_quotes. apply unescape_backslashes.
Qed.

Lemma StringArray_parts_spec parts result :
  StringArray_parts parts result
  = result ++ filter (fun part => part ≠ EmptyString) (StringArray_unquote <$> parts).
Proof.
  revert result. induction parts as [|part parts IH]; intros result.
  - by rewrite app_nil_r.
  - cbn [StringArray_parts fmap list_fmap]. rewrite filter_cons.
    destruct (decide (StringArray_unquote part ≠ EmptyString)).
    + rewrite IH. by rewrite <- app_assoc.
    + apply IH.
Qed.

(** What [Scan] makes of a text in braces that holds something. *)
Lemma StringArray_Scan_braces c inner :
  let str := "{" +:+ String c inner +:+ "}" in
  StringArray_Scan (value_string str)
  = inr (Some (StringArray_parts (strings.Split (String c inner) ",") []))
  ∧ StringArray_Scan (value_bytes str)
  = inr (Some (StringArray_parts (strings.Split (String c inner) ",") [])).
Proof.
  intros str.
  assert (strings.TrimSpace str = str) as Htrim.
  { subst str. apply TrimSpace_id; [reflexivity|].
    app_simpl. rewrite <- !String_append_cons, String_rev_snoc. reflexivity. }
  assert (strings.TrimSuffix (strings.TrimPrefix str "{") "}" = String c inner) as Hcut.
  { subst str. app_simpl. unfold strings.TrimPrefix. cbn [strings.HasPrefix].
    rewrite Ascii.eqb_refl, ?HasPrefix_nil. cbn [String.length strings.drop].
    rewrite <- String_append_cons. apply TrimSuffix_snoc. }
  unfold StringArray_Scan. cbv zeta. rewrite Htrim, Hcut.
  replace (String.eqb str "{}") with false; [done|].
  subst str. app_simpl. cbn [String.eqb]. rewrite Ascii.eqb_refl.
  destruct (Ascii.eqb c "}"); [by destruct inner|done].
Qed.

Lemma Join_head e elems sep c e' :
  e = String c e' → ∃ rest, strings.Join (e :: elems) sep = String c rest.
Proof. intros ->. destruct elems; [by eexists|]. rewrite Join_cons. by eexists. Qed.

Lemma filter_nonempty (l : list string) :
  Forall (fun v => v ≠ EmptyString) l → filter (fun v => v ≠ EmptyString) l = l.
Proof.
  induction 1 as [|v l Hv _ IH]; [done|]. rewrite filter_cons, decide_True by done.
  by rewrite IH.
Qed.

(** X7: what [Value] writes, [Scan] reads back, for the nil slice, the
    empty slice, and every slice whose elements are not empty and hold no
    comma. *)
Theorem StringArray_Scan_Value (a : option (list string)) :
  (∀ l, a = Some l →
     Forall (fun v => v ≠ EmptyString ∧ strings.Contains v "," = false) l) →
  ∃ value, StringArray_Value a = inr value ∧ StringArray_Scan value = inr a.
Proof.
  intros Hall. destruct a as [[|v0 l]|]; [by eexists..| |by eexists].
  specialize (Hall _ eq_refl).
  exists (value_string ("{" +:+ strings.Join (StringArray_quote <$> v0 :: l) ","
                            +:+ "}")).
  split; [reflexivity|].
  destruct (Join_head (StringArray_quote v0) (StringArray_quote <$> l) "," double_quote
                      (escape v0 +:+ String double_quote EmptyString) eq_refl)
    as [inner Hinner].
  change (StringArray_quote v0 :: (StringArray_quote <$> l))
    with (StringArray_quote <$> v0 :: l) in Hinner.
  rewrite Hinner.
  rewrite (proj1 (StringArray_Scan_braces double_quote inner)).
  rewrite <- Hinner. clear inner Hinner.
  rewrite Split_Join; [|done|].
  - rewrite StringArray_parts_spec, app_nil_l. rewrite <- list_fmap_compose.
    rewrite (list_fmap_ext _ id (v0 :: l) ) by (intros; apply unquote_quote).
    rewrite list_fmap_id. f_equal. f_equal. apply filter_nonempty.
    eapply Forall_impl; [done|]. by intros ? [? _].
  - apply Forall_fmap. eapply Forall_impl; [done|]. intros v [_ Hv].
    unfold StringArray_quote, compose. cbv zeta beta. rewrite String_append_cons, Contains_byte_cons.
    rewrite Contains_byte_app, escape_Contains, Hv by done. done.
Qed.

Lemma StringArray_Scan_Value_witness :
  ∃ value, StringArray_Value (Some ["en"; "pt-BR"; "zh Hans"]) = inr value
           ∧ StringArray_Scan value = inr (Some ["en"; "pt-BR"; "zh Hans"]).
Proof.
  apply StringArray_Scan_Value. intros l [= <-]. repeat constructor; done.
Defined.

(** X8: [Scan] reads the plain form of an array, elements without
    quotes: it returns the elements, provided each is not empty, holds no
    comma, has no white space around it and is not between quotes. *)
Theorem StringArray_Scan_plain (elems : list string) :
  elems ≠ [] →
  Forall (fun e => e ≠ EmptyString ∧ strings.Contains e "," = false
                   ∧ strings.TrimSpace e = e
                   ∧ ¬ (String.get 0 e = Some double_quote
                        ∧ String.get (String.length e - 1) e = Some double_quote))
         elems →
  let str := "{" +:+ strings.Join elems "," +:+ "}" in
  StringArray_Scan (value_bytes str) = inr (Some elems)
  ∧ StringArray_Scan (value_string str) = inr (Some elems).
Proof.
  intros Hne Hall str. destruct elems as [|e0 elems]; [done|].
  assert (∃ c e', e0 = String c e') as (c & e' & He0).
  { apply Forall_cons in Hall as [[He _] _]. destruct e0; [done|by eexists _, _]. }
  destruct (Join_head e0 elems "," c e' He0) as [inner Hinner].
  subst str. rewrite Hinner.
  destruct (StringArray_Scan_braces c inner) as [-> ->].
  rewrite <- Hinner. clear c e' He0 inner Hinner.
  assert (StringArray_parts (strings.Split (strings.Join (e0 :: elems) ",") ",") []
          = e0 :: elems) as ->; [|done].
  rewrite Split_Join; [|done|].
  - rewrite StringArray_parts_spec, app_nil_l.
    rewrite (list_fmap_ext _ id (e0 :: elems)).
    + rewrite list_fmap_id. apply filter_nonempty.
      eapply Forall_impl; [done|]. by intros ? [? _].
    + intros i e Hi. rewrite Forall_forall in Hall.
      destruct (Hall e) as (_ & _ & Htrim & Hq); [by eapply list_elem_of_lookup_2|].
      unfold StringArray_unquote. cbv zeta. rewrite Htrim.
      rewrite bool_decide_false; [done|]. intros (_ & ? & ?). by apply Hq.
  - eapply Forall_impl; [done|]. by intros e (_ & ? & _).
Qed.

Lemma StringArray_Scan_plain_witness :
  StringArray_Scan (value_bytes ("{" +:+ strings.Join ["en"; "id"; "pt-BR"] "," +:+ "}"))
  = inr (Some ["en"; "id"; "pt-BR"])
  ∧ StringArray_Scan (value_string ("{" +:+ strings.Join ["en"; "id"; "pt-BR"] "," +:+ "}"))
    = inr (Some ["en"; "id"; "pt-BR"]).
Proof.
  apply (StringArray_Scan_plain ["en"; "id"; "pt-BR"]); [done|].
  repeat constructor; try done; vm_compute; by intros [? ?].
Defined.

End StringArray.

(** ** What [Translate] returns *)

Lemma String_take_drop n s : strings.take n s +:+ strings.drop n s = s.
Proof.
  revert s. induction n as [|n IH]; intros [|c s]; try done.
  cbn [strings.take strings.drop]. by rewrite String_append_cons, IH.
Qed.

Lemma trim_left_suffix table fuel s :
  ∃ p, s = p +:+ strings.trim_left table fuel s.
Proof.
  revert s. induction fuel as [|fuel IH]; intros s; [by exists EmptyString|].
  cbn [strings.trim_left]. destruct (strings.leading table s) as [sp|]; [|by exists EmptyString].
  destruct (IH (strings.drop (String.length sp) s)) as [p Hp].
  exists (strings.take (String.length sp) s +:+ p).
  by rewrite String_append_assoc, <- Hp, String_take_drop.
Qed.

Lemma HasPrefix_app_l t x p :
  strings.HasPrefix t p = true → strings.HasPrefix (t +:+ x) p = true.
Proof.
  revert t. induction p as [|a p IH]; intros t; [intros _; apply HasPrefix_nil|].
  destruct t as [|b t]; [done|]. rewrite String_append_cons. cbn [strings.HasPrefix].
  destruct (Ascii.eqb a b); [apply IH|done].
Qed.

Lemma leading_prefix table t x :
  strings.leading table (t +:+ x) = None → strings.leading table t = None.
Proof.
  unfold strings.leading. induction table as [|sp table IH]; [done|].
  cbn [find]. destruct (strings.HasPrefix t sp) eqn:Ht.
  - by rewrite HasPrefix_app_l.
  - destruct (strings.HasPrefix (t +:+ x) sp); [done|apply IH].
Qed.

Lemma string_of_list_ascii_app l1 l2 :
  string_of_list_ascii (l1 ++ l2) = string_of_list_ascii l1 +:+ string_of_list_ascii l2.
Proof. induction l1 as [|c l1 IH]; [done|]. simpl. by rewrite IH. Qed.

Lemma String_rev_app p q : strings.rev (p +:+ q) = strings.rev q +:+ strings.rev p.
Proof.
  unfold strings.rev.
  by rewrite list_ascii_of_string_app, List.rev_app_distr, string_of_list_ascii_app.
Qed.

(** X9: a translation of a text without template values has no white
    space around it: what [Translate] returns neither starts nor ends
    with a white-space character. *)
Theorem Translate_is_trimmed engine svc text sourceLang targetLang translated :
  ExtractTemplateValues text = [] →
  Translate engine svc text sourceLang targetLang = inr translated →
  strings.leading strings.white_space translated = None
  ∧ strings.leading (map strings.rev strings.white_space) (strings.rev translated) = None.
Proof.
  intros Hnone. unfold Translate.
  destruct (String.eqb (APIKey svc) ""); [done|].
  destruct (engine _ _) as [e|body|[|content contents]]; try done.
  intros [= <-]. unfold PreserveTemplateValues. rewrite Hnone.
  unfold strings.TrimSpace. cbv zeta. rewrite String_rev_involutive. split.
  - set (s1 := strings.trim_left strings.white_space (String.length content) content).
    destruct (trim_left_suffix (map strings.rev strings.white_space)
                (String.length s1) (strings.rev s1)) as [p Hp].
    apply (leading_prefix _ _ (strings.rev p)).
    rewrite <- String_rev_app, <- Hp, String_rev_involutive.
    apply TrimSpace_no_leading_space.
  - apply TrimSpace_no_trailing_space.
Qed.

Lemma Translate_is_trimmed_witness :
  strings.leading strings.white_space "Halo dunia" = None
  ∧ strings.leading (map strings.rev strings.white_space) (strings.rev "Halo dunia") = None.
Proof.
  apply (Translate_is_trimmed (fun _ _ => ReplyChoices ["  Halo dunia  "]) (NewOpenAIService "sk-test") "Hello world" "en" "id"); reflexivity.
Defined.

(** ** Reads *)

Lemma collect_rows l s translations results w :
  translation_versions (collect l s translations results w).2 = translation_versions w
  ∧ db_faults (collect l s translations results w).2 = db_faults w.
Proof.
  destruct (collect_spec l s translations results w) as (r' & rd' & -> & _). done.
Qed.

Lemma first_pass_rows l s ids acc w :
  (first_pass l s ids acc w).2 = w.
Proof.
  destruct acc as [results missing].
  destruct (first_pass_spec l s ids results missing w) as (results' & -> & _). done.
Qed.

Lemma Find_same_data (P : TranslationVersion → Prop) `{!∀ r, Decision (P r)} w a w' :
  database.Find P w = (a, w') → same_data w w'.
Proof.
  unfold database.Find, bind.
  destruct (database.fault w) as [[] w1] eqn:Hf; apply fault_same_data in Hf;
    unfold ret; by intros [= <- <-].
Qed.

Lemma GetMultipleTranslations_rows ids l s w a w' :
  GetMultipleTranslations ids l s w = (a, w') →
  translation_versions w' = translation_versions w ∧ ∃ results, a = inr results.
Proof.
  unfold GetMultipleTranslations. unfold bind at 1.
  pose proof (first_pass_rows l s ids (∅, []) w) as Hfp.
  destruct (first_pass l s ids (∅, []) w) as [[results missing] w0].
  simpl in Hfp. subst w0.
  destruct missing as [|m missing]; [unfold ret; intros [= <- <-]; eauto|].
  unfold bind at 1.
  destruct (database.Find _ w) as [[err|found] w1] eqn:Hfind;
    apply Find_same_data in Hfind as (Hrows1 & _);
    [unfold ret; intros [= <- <-]; eauto|].
  unfold bind at 1.
  pose proof (collect_rows l s found results w1) as [Hc _].
  destruct (collect l s found results w1) as [results1 w2]. simpl in Hc.
  destruct (filter _ (m :: missing)) as [|m' still];
    [unfold ret; intros [= <- <-]; split; [congruence|eauto]|].
  unfold bind at 1.
  destruct (database.Find _ w2) as [found1 w3] eqn:Hfind1.
  apply Find_same_data in Hfind1 as (Hrows3 & _).
  unfold bind at 1.
  match goal with
  | |- (let (_, _) := collect l s ?ts results1 w3 in _) = _ → _ =>
      pose proof (collect_rows l s ts results1 w3) as [Hc3 _];
      destruct (collect l s ts results1 w3) as [results3 w4]
  end.
  simpl in Hc3. unfold ret. intros [= <- <-]. split; [congruence|eauto].
Qed.

(** X10: the reads write nothing into the table of translations: neither
    the single read nor the bulk read, whatever the store does; and the bulk
    read never reports an error. *)
Theorem reads_leave_the_table c ids l s w :
  translation_versions (GetTranslation c l s w).2 = translation_versions w
  ∧ translation_versions (GetMultipleTranslations ids l s w).2 = translation_versions w
  ∧ ∃ results, (GetMultipleTranslations ids l s w).1 = inr results.
Proof.
  split; [|].
  - destruct (GetTranslation c l s w) as [a w'] eqn:H. by eapply GetTranslation_rows.
  - destruct (GetMultipleTranslations ids l s w) as [a w'] eqn:H.
    by apply GetMultipleTranslations_rows in H.
Qed.

(** X11: a read that succeeded is repeated from the cache: the same row
    comes back and the state stays as it is, even when the store fails
    every request from then on. *)
Theorem read_is_repeated_from_cache c l s w t w1 faults :
  GetTranslation c l s w = (inr t, w1) →
  GetTranslation c l s (with_db_faults faults w1) = (inr t, with_db_faults faults w1).
Proof.
  intros Hread. apply GetTranslation_hit. world_simpl. revert Hread.
  unfold GetTranslation, bind, cache.Get.
  destruct (redis w !! cacheKey_of c l s) as [hit|] eqn:Hhit;
    [unfold ret; by intros [= <- <-]|].
  destruct (database.First (where_active_slot c l s 2) w) as [[[]|t2] w2].
  - destruct (database.First (where_active_slot c l s 1) w2) as [[e|t1] w3];
      unfold ret, cache.Set_; intros [= <- <-]; world_simpl. apply lookup_insert_eq.
  - unfold ret. by intros [=].
  - unfold ret. by intros [=].
  - unfold ret. by intros [=].
  - unfold ret, cache.Set_. intros [= <- <-]. world_simpl. apply lookup_insert_eq.
Qed.

(** ** The calls and the table *)

Lemma DeployToStage_store_ok c l s s' u w a w' :
  DeployToStage c l s s' u w = (a, w') →
  store_ok (translation_versions w) → store_ok (translation_versions w').
Proof.
  unfold DeployToStage, bind.
  destruct (GetTranslation c l s w) as [[err|source] w1] eqn:Hget;
    apply GetTranslation_rows in Hget.
  - unfold ret. intros [= <- <-]. by rewrite Hget.
  - destruct (SaveTranslation c l s' (Data source) u w1) as [saved w2] eqn:Hsave.
    intros Hend Hok. rewrite <- Hget in Hok.
    apply (SaveTranslation_store_ok _ _ _ _ _ _ _ _ Hsave) in Hok.
    destruct saved; unfold ret in Hend; by injection Hend as _ <-.
Qed.

Lemma run_call_store_ok k w :
  store_ok (translation_versions w) → store_ok (translation_versions (run_call k w).2).
Proof.
  intros Hok. destruct k as [c l s|cs l s|c l s d u|c l s|c l s s' u];
    unfold run_call, bind, ret.
  - destruct (GetTranslation c l s w) as [a w'] eqn:H.
    apply GetTranslation_rows in H. simpl. by rewrite H.
  - destruct (GetMultipleTranslations cs l s w) as [a w'] eqn:H.
    apply GetMultipleTranslations_rows in H as [H _]. simpl. by rewrite H.
  - destruct (SaveTranslation c l s d u w) as [a w'] eqn:H.
    by eapply SaveTranslation_store_ok.
  - destruct (RevertTranslation c l s w) as [a w'] eqn:H.
    by eapply RevertTranslation_store_ok.
  - destruct (DeployToStage c l s s' u w) as [a w'] eqn:H.
    by eapply DeployToStage_store_ok.
Qed.

(** ** Deployment *)

Lemma GetTranslation_healthy c l s w a w' :
  GetTranslation c l s w = (a, w') → healthy w → healthy w'.
Proof.
  intros Hrun Hw. apply transparent_GetTranslation in Hrun as [[used Hused] _].
  unfold healthy in *. rewrite Hw in Hused. symmetry in Hused.
  by apply app_eq_nil in Hused as [_ ?].
Qed.

(** X12: a deployment copies what a read of the source stage returns: on a
    store that answers, when the source can be read, [DeployToStage]
    succeeds and a read of the target stage returns the payload of the
    source. *)
Theorem deploy_copies_the_source c l fromStage toStage u w source w0 :
  healthy w → store_ok (translation_versions w) →
  GetTranslation c l fromStage w = (inr source, w0) →
  ∃ w1 deployed w2,
    DeployToStage c l fromStage toStage u w = (inr tt, w1)
    ∧ GetTranslation c l toStage w1 = (inr deployed, w2)
    ∧ Data deployed = Data source.
Proof.
  intros Hw Hok Hget. unfold DeployToStage, bind. rewrite Hget.
  pose proof (GetTranslation_healthy _ _ _ _ _ _ Hget Hw) as Hw0.
  pose proof (GetTranslation_rows _ _ _ _ _ _ Hget) as Hrows.
  rewrite <- Hrows in Hok.
  destruct (SaveTranslation_healthy c l toStage (Data source) u w0 Hw0 Hok)
    as (t & rows' & -> & Hok' & H2 & Hdata & _).
  eexists _, t, _. split; [reflexivity|]. split; [|done].
  apply GetTranslation_slot2; [done|done| |done].
  apply lookup_delete_delete.
Qed.

(** X13: when the source cannot be read, [DeployToStage] reports it and
    writes nothing: the table and the cache are as before. *)
Theorem deploy_without_source_writes_nothing c l fromStage toStage u w err w0 :
  GetTranslation c l fromStage w = (inl err, w0) →
  DeployToStage c l fromStage toStage u w
  = (inl (Errorf "source translation not found" err), w0)
  ∧ Error (Errorf "source translation not found" err)
    = "source translation not found: " +:+ Error err
  ∧ same_data w w0.
Proof.
  intros Hget. unfold DeployToStage, bind. rewrite Hget. split; [done|]. split; [done|].
  revert Hget. unfold GetTranslation, bind, cache.Get.
  destruct (redis w !! cacheKey_of c l fromStage); [unfold ret; by intros [=]|].
  destruct (database.First (where_active_slot c l fromStage 2) w) as [r2 w2] eqn:H2.
  apply First_same_data in H2.
  destruct r2 as [[]|t].
  - destruct (database.First (where_active_slot c l fromStage 1) w2) as [[e|t] w1] eqn:Hf;
      apply First_same_data in Hf; unfold ret, bind, cache.Set_; intros [= <- <-].
    by eapply same_data_trans.
  - unfold ret. by intros [= <- <-].
  - unfold ret. by intros [= <- <-].
  - unfold ret. by intros [= <- <-].
  - unfold ret, bind, cache.Set_. by intros [=].
Qed.

(** ** Reverting *)

(** X14: reverting a key that has both slots.  On a store that answers,
    [RevertTranslation] succeeds and leaves the row of slot 1; the next
    read returns the row of slot 2, now with the payload of slot 1; and a
    second revert, made after that read, succeeds too and the read that
    follows it returns that payload again. *)
Theorem revert_with_both_slots c l s w version1 version2 :
  healthy w → store_ok (translation_versions w) →
  slot c l s 1 (translation_versions w) = Some version1 →
  slot c l s 2 (translation_versions w) = Some version2 →
  ∃ w1 read w2,
    RevertTranslation c l s w = (inr tt, w1)
    ∧ slot c l s 1 (translation_versions w1) = Some version1
    ∧ GetTranslation c l s w1 = (inr read, w2)
    ∧ Data read = Data version1
    ∧ ID read = ID version2
    ∧ ∃ w3 read' w4,
        RevertTranslation c l s w2 = (inr tt, w3)
        ∧ GetTranslation c l s w3 = (inr read', w4)
        ∧ Data read' = Data version1
        ∧ ID read' = ID version2.
Proof.
  intros Hw Hok H1 H2.
  destruct (RevertTranslation_both_slots c l s w version1 version2 Hw Hok H1 H2)
    as (w1 & read & Hrevert & Hread & Hdata & Hid & Hw1 & Hok1 & H1' & H2').
  set (w2 := with_redis _ w1) in Hread.
  destruct (RevertTranslation_both_slots c l s w2 version1 read)
    as (w3 & read' & Hrevert' & Hread' & Hdata' & Hid' & _); [done..|].
  exists w1, read, w2. split_and!; [done..|].
  eexists w3, read', _. split_and!; [done..|congruence].
Qed.

(** ** Saving *)

(** The table after a save, on a store that answers: the row of slot 2 is
    updated or inserted, the row of slot 1 is inserted if there is none,
    and the rows with a version above 2 are deleted. *)
Lemma SaveTranslation_table c l s d u w :
  healthy w → store_ok (translation_versions w) →
  let rows := translation_versions w in
  let saved :=
    match slot c l s 2 rows with
    | Some e => with_UpdatedBy u (with_Data d e)
    | None => new_row c l s 2 d u rows
    end in
  let rows1 :=
    match slot c l s 2 rows with
    | Some e => update saved <$> rows
    | None => rows ++ [saved]
    end in
  let rows2 :=
    match slot c l s 1 rows with
    | Some _ => rows1
    | None => rows1 ++ [new_row c l s 1 d uuid.Nil rows1]
    end in
  SaveTranslation c l s d u w
  = (inr saved,
     with_redis (delete (cache.ComponentKey (uuid.String c))
                        (delete (cacheKey_of c l s) (redis w)))
                (with_translation_versions (cleaned <$> rows2) w)).
Proof.
  intros Hw Hok. destruct w as [rows comps apps rd fs key].
  unfold healthy in Hw. simpl in Hw, Hok |- *. subst fs.
  unfold SaveTranslation, bind.
  rewrite First_healthy by done. world_simpl. fold (slot c l s 2 rows).
  destruct (slot c l s 2 rows) as [e|] eqn:He.
  - pose proof (slot_Some _ _ _ _ _ _ He) as (Hin & Hlive & Hc & Hl & Hs & Hv).
    set (e' := with_UpdatedBy u (with_Data d e)).
    assert (same_slot e e') as Hsame by done.
    assert (ID e' ≠ uuid.Nil) as Hnil.
    { destruct Hok as [_ Hall]. rewrite Forall_forall in Hall.
      by destruct (Hall e Hin). }
    assert (ID e' ∈ ID <$> rows) as Hin'
      by (change (ID e') with (ID e); by apply list_elem_of_fmap_2).
    rewrite Save_healthy by done.
    world_simpl.
    set (rows1 := update e' <$> rows).
    rewrite First_healthy by done. world_simpl.
    fold (slot c l s 1 rows1).
    assert (slot c l s 1 rows1 = slot c l s 1 rows) as H1.
    { eapply slot_update_other; [done..|]. intros (_ & _ & _ & [=]). }
    rewrite H1.
    destruct (slot c l s 1 rows) as [r1|] eqn:Hr1.
    + unfold ret, cache.Delete. cbv beta iota.
      by rewrite CleanupOldVersions_healthy.
    + rewrite Create_healthy by done.
      unfold ret, cache.Delete. cbv beta iota.
      by rewrite CleanupOldVersions_healthy.
  - rewrite Create_healthy by done. world_simpl.
    set (n2 := new_row c l s 2 d u rows).
    change (with_defaults _) with n2.
    set (rows1 := rows ++ [n2]).
    rewrite First_healthy by done. world_simpl.
    fold (slot c l s 1 rows1).
    assert (slot c l s 1 rows1 = slot c l s 1 rows) as H1.
    { apply slot_new_row_other. intros (_ & _ & _ & [=]). }
    rewrite H1.
    destruct (slot c l s 1 rows) as [r1|] eqn:Hr1.
    + unfold ret, cache.Delete. cbv beta iota.
      by rewrite CleanupOldVersions_healthy.
    + rewrite Create_healthy by done.
      unfold ret, cache.Delete. cbv beta iota.
      by rewrite CleanupOldVersions_healthy.
Qed.

(** X15: a save writes in place.  On a store that answers, the table grows
    by one row for each slot of the key that had none, so by two rows on
    the first save of a key and by none afterwards; the row of slot 2 keeps
    its identifier and its creator and gets the payload and the user of the
    save; and no row with a version above 2 is left live. *)
Theorem save_writes_in_place c l s d u w :
  healthy w → store_ok (translation_versions w) →
  ∃ saved w1,
    SaveTranslation c l s d u w = (inr saved, w1)
    ∧ length (translation_versions w1)
      = length (translation_versions w)
        + (match slot c l s 2 (translation_versions w) with Some _ => 0 | None => 1 end)
        + (match slot c l s 1 (translation_versions w) with Some _ => 0 | None => 1 end)
    ∧ Data saved = d ∧ UpdatedBy saved = u
    ∧ (∀ e, slot c l s 2 (translation_versions w) = Some e →
         ID saved = ID e ∧ CreatedBy saved = CreatedBy e)
    ∧ (slot c l s 2 (translation_versions w) = None → CreatedBy saved = u)
    ∧ ∀ r, r ∈ translation_versions w1 → database.live r → (Version r ≤ 2)%Z.
Proof.
  intros Hw Hok. eexists _, _. split; [by apply SaveTranslation_table|].
  world_simpl. rewrite length_fmap.
  split_and!.
  - destruct (slot c l s 2 (translation_versions w)), (slot c l s 1 (translation_versions w));
      rewrite ?length_app, ?length_fmap; simpl; lia.
  - by destruct (slot c l s 2 (translation_versions w)).
  - by destruct (slot c l s 2 (translation_versions w)).
  - by intros e ->.
  - by intros ->.
  - intros r (r0 & -> & _)%list_elem_of_fmap. unfold cleaned.
    case_decide as Hr; [done|]. intros Hlive.
    destruct (decide (Version r0 ≤ 2)%Z); [done|]. destruct Hr. split; [done|lia].
Qed.

(** ** Cache keys *)

Lemma app_byte_inj a p p' r r' :
  strings.Contains p (String a EmptyString) = false →
  strings.Contains p' (String a EmptyString) = false →
  p +:+ String a r = p' +:+ String a r' → p = p' ∧ r = r'.
Proof.
  revert p'. induction p as [|c p IH]; intros [|c' p']; app_simpl.
  - by intros _ _ [= ->].
  - rewrite Contains_byte_cons. intros _ [Hc _]%orb_false_iff [= <- _].
    by rewrite Ascii.eqb_refl in Hc.
  - rewrite Contains_byte_cons. intros [Hc _]%orb_false_iff _ [= -> _].
    by rewrite Ascii.eqb_refl in Hc.
  - rewrite !Contains_byte_cons.
    intros [_ Hp]%orb_false_iff [_ Hp']%orb_false_iff [= -> Heq].
    destruct (IH p' Hp Hp' Heq) as [-> ->]. done.
Qed.

(** X16: the keys of the cache tell the translations apart: two keys
    are equal only for the same component, locale and stage, as long as
    the identifiers and the locales hold no colon. *)
Theorem TranslationKey_inj componentID locale stage componentID' locale' stage' :
  strings.Contains componentID ":" = false → strings.Contains componentID' ":" = false →
  strings.Contains locale ":" = false → strings.Contains locale' ":" = false →
  cache.TranslationKey componentID locale stage
  = cache.TranslationKey componentID' locale' stage' →
  componentID = componentID' ∧ locale = locale' ∧ stage = stage'.
Proof.
  intros Hc Hc' Hl Hl'. unfold cache.TranslationKey. intros H.
  apply (inj (String.app _)) in H. rewrite !String_append_cons, !String_append_nil_l in H.
  apply app_byte_inj in H as [-> H]; [|done..].
  apply app_byte_inj in H as [-> ->]; done.
Qed.

Lemma TranslationKey_inj_witness :
  cache.TranslationKey "7" "pt-BR" "draft" = "translation:7:pt-BR:draft"
  ∧ ("7" = "7" ∧ "pt-BR" = "pt-BR" ∧ "draft" = "draft").
Proof.
  split; [reflexivity|].
  by apply (TranslationKey_inj "7" "pt-BR" "draft" "7" "pt-BR" "draft").
Defined.

(** The colon matters: with one in the locale, two keys fall together. *)
Lemma TranslationKey_colon_example :
  cache.TranslationKey "7" "a:b" "c" = cache.TranslationKey "7" "a" "b:c".
Proof. reflexivity. Qed.

Lemma pretty_N_go_Contains a x s :
  (∀ n, Ascii.eqb a (pretty_N_char n) = false) →
  strings.Contains (pretty_N_go x s) (String a EmptyString)
  = strings.Contains s (String a EmptyString).
Proof.
  intros Ha. revert s. induction (N.lt_wf_0 x) as [x _ IH]; intros s.
  assert (x = 0 ∨ 0 < x)%N as [->|?] by lia.
  - by rewrite pretty_N_go_0.
  - rewrite pretty_N_go_step by done. rewrite IH by by apply N.div_lt.
    by rewrite Contains_byte_cons, Ha.
Qed.

Lemma uuid_String_Contains a u :
  (∀ n, Ascii.eqb a (pretty_N_char n) = false) →
  strings.Contains (uuid.String u) (String a EmptyString) = false.
Proof.
  intros Ha. unfold uuid.String, pretty, pretty_N. case_decide.
  - pose proof (Ha 0%N) as H0. cbn [pretty_N_char] in H0.
    rewrite Contains_byte_cons. by rewrite H0.
  - by rewrite pretty_N_go_Contains.
Qed.

Lemma uuid_String_no_colon u : strings.Contains (uuid.String u) ":" = false.
Proof.
  apply uuid_String_Contains. intros n. unfold pretty_N_char.
  by repeat case_match.
Qed.

Lemma cacheKey_of_inj c l s c' l' s' :
  strings.Contains l ":" = false → strings.Contains l' ":" = false →
  cacheKey_of c l s = cacheKey_of c' l' s' → c = c' ∧ l = l' ∧ s = s'.
Proof.
  intros Hl Hl' H. unfold cacheKey_of, cache.TranslationKey in H.
  apply (inj (String.app _)) in H. rewrite !String_append_cons, !String_append_nil_l in H.
  apply app_byte_inj in H as [H H']; [|apply uuid_String_no_colon..].
  apply app_byte_inj in H' as [-> ->]; [|done..].
  by apply (inj pretty) in H as ->.
Qed.

Lemma cacheKey_of_ComponentKey c l s id : cacheKey_of c l s ≠ cache.ComponentKey id.
Proof. done. Qed.

(** What a read returns, on a store that answers. *)
Lemma GetTranslation_result c l s w :
  healthy w → store_ok (translation_versions w) →
  (GetTranslation c l s w).1
  = match redis w !! cacheKey_of c l s with
    | Some cached => inr cached
    | None =>
        match slot c l s 2 (translation_versions w) with
        | Some t => inr t
        | None =>
            match slot c l s 1 (translation_versions w) with
            | Some t => inr t
            | None => inl ErrRecordNotFound
            end
        end
    end.
Proof.
  intros Hw Hok.
  destruct (redis w !! cacheKey_of c l s) as [cached|] eqn:Hc.
  { by erewrite GetTranslation_hit. }
  destruct (slot c l s 2 (translation_versions w)) as [t|] eqn:H2.
  { by erewrite GetTranslation_slot2. }
  destruct (slot c l s 1 (translation_versions w)) as [t|] eqn:H1.
  { by erewrite GetTranslation_slot1. }
  by erewrite GetTranslation_not_found.
Qed.

(** X17: a save touches its own key only.  On a store that answers, a
    read of another component, locale or stage returns after the save what
    it returned before, provided the locales hold no colon. *)
Theorem save_leaves_other_keys c l s d u c' l' s' w :
  healthy w → store_ok (translation_versions w) →
  strings.Contains l ":" = false → strings.Contains l' ":" = false →
  ¬ (c' = c ∧ l' = l ∧ s' = s) →
  ∃ saved w1,
    SaveTranslation c l s d u w = (inr saved, w1)
    ∧ (GetTranslation c' l' s' w1).1 = (GetTranslation c' l' s' w).1.
Proof.
  intros Hw Hok Hl Hl' Hne.
  destruct (SaveTranslation_healthy c l s d u w Hw Hok)
    as (t & rows' & Hsave & Hok' & _ & _ & _ & Hother).
  eexists _, _. split; [exact Hsave|].
  rewrite !GetTranslation_result by done. world_simpl.
  rewrite lookup_delete_ne by (symmetry; apply cacheKey_of_ComponentKey).
  rewrite lookup_delete_ne.
  - by rewrite !Hother by (done || auto).
  - intros H. apply cacheKey_of_inj in H as (-> & -> & ->); [|done..].
    by destruct Hne.
Qed.

(** ** The bulk read, value by value *)

Lemma first_pass_values l s ids results missing w :
  ∃ results',
    first_pass l s ids (results, missing) w
    = ((results', missing ++ filter (fun c => ¬ cached w l s c) ids), w)
    ∧ ∀ c, results' !! uuid.String c
           = if decide (c ∈ ids ∧ cached w l s c) then redis w !! cacheKey_of c l s
             else results !! uuid.String c.
Proof.
  unfold first_pass.
  revert results missing. induction ids as [|c0 ids IH]; intros results missing.
  - exists results. cbn [foldM]. unfold ret. rewrite filter_nil, app_nil_r.
    split; [done|].
    intros c. rewrite decide_False; [done|]. by intros [?%elem_of_nil _].
  - cbn [foldM]. unfold bind at 1. unfold bind at 1. unfold cache.Get at 1.
    rewrite !filter_cons.
    destruct (decide (cached w l s c0)) as [[v Hv]|Hc].
    + rewrite decide_False by (intros []; by exists v).
      rewrite Hv. unfold ret at 1.
      destruct (IH (<[uuid.String c0 := v]> results) missing) as (res' & -> & Hval).
      exists res'. split; [done|]. intros c. rewrite Hval.
      destruct (decide (c = c0)) as [->|Hne].
      * rewrite (decide_True (P := c0 ∈ c0 :: ids ∧ _))
          by (split; [by left|by exists v]).
        destruct (decide (c0 ∈ ids ∧ _)); [done|]. by rewrite lookup_insert_eq.
      * rewrite lookup_insert_ne by (intros ?%(inj pretty); done).
        apply decide_ext. rewrite elem_of_cons. split; [tauto|].
        intros [[?|?] ?]; [done|tauto].
    + rewrite decide_True by done.
      destruct (redis w !! cacheKey_of c0 l s) as [v|] eqn:Hv;
        [destruct Hc; by exists v|].
      unfold ret at 1.
      destruct (IH results (missing ++ [c0])) as (res' & -> & Hval).
      exists res'. rewrite <- app_assoc. split; [done|]. intros c. rewrite Hval.
      apply decide_ext. rewrite elem_of_cons. split; [tauto|].
      intros [[->|?] ?]; [done|tauto].
Qed.

Lemma collect_values l s translations results w :
  ∃ results' rd',
    collect l s translations results w = (results', with_redis rd' w)
    ∧ ∀ c, results' !! uuid.String c
           = match last (filter (fun t => ComponentID t = c) translations) with
             | Some t => Some t
             | None => results !! uuid.String c
             end.
Proof.
  unfold collect.
  revert results w. induction translations as [|t ts IH]; intros results w.
  - exists results, (redis w). cbn [foldM]. unfold ret. split; [by destruct w|done].
  - cbn [foldM]. unfold bind at 1. unfold bind at 1. unfold cache.Set_ at 1, ret at 1.
    destruct (IH (<[uuid.String (ComponentID t) := t]> results)
                 (with_redis (<[cacheKey_of (ComponentID t) l s := t]> (redis w)) w))
      as (res' & rd' & -> & Hval).
    exists res', rd'. split; [done|]. intros c. rewrite Hval, filter_cons.
    destruct (decide (ComponentID t = c)) as [<-|Hne].
    + rewrite last_cons. rewrite lookup_insert_eq.
      by destruct (last (filter _ ts)).
    + rewrite lookup_insert_ne by (intros ?%(inj pretty); done). done.
Qed.

(** With one live row per slot, a lookup of the slot ranges over that
    row or over nothing. *)
Lemma select_slot_one c l s v rows :
  store_ok rows → one_row_per_slot rows →
  database.select (where_active_slot c l s v) rows
  = match slot c l s v rows with Some t => [t] | None => [] end.
Proof.
  intros Hok Hone. rewrite <- (active_slot_eq c l s v rows) by done.
  unfold active_slot.
  set (sel := database.select (where_active_slot c l s v) rows).
  assert (∀ r1 r2, r1 ∈ sel → r2 ∈ sel → r1 = r2) as Hsame.
  { intros r1 r2 (H1 & Hl1 & Hc1 & Hlo1 & Hs1 & _ & Hv1)%elem_of_select
                 (H2 & Hl2 & Hc2 & Hlo2 & Hs2 & _ & Hv2)%elem_of_select.
    apply Hone; congruence. }
  assert (NoDup sel) as Hnd.
  { apply NoDup_filter. destruct Hok as [Hnd _]. by apply NoDup_fmap_1 in Hnd. }
  clearbody sel. destruct sel as [|r1 [|r2 sel]]; [done|done|].
  assert (r1 = r2) as -> by (apply Hsame; [by left|by right; left]).
  apply NoDup_cons in Hnd as [Hnd _]. destruct Hnd. by left.
Qed.

Lemma filter_none {A} (P : A → Prop) `{!∀ x, Decision (P x)} (l : list A) :
  Forall (fun x => ¬ P x) l → filter P l = [].
Proof.
  induction 1 as [|x l Hx _ IH]; [done|]. by rewrite filter_cons, decide_False.
Qed.

Lemma filter_select_in c ids l s v rows :
  c ∈ ids →
  filter (fun t => ComponentID t = c)
         (database.select (where_active_slot_in ids l s v) rows)
  = database.select (where_active_slot c l s v) rows.
Proof.
  intros Hc. unfold database.select. rewrite list_filter_filter.
  apply list_filter_iff. intros r.
  unfold where_active_slot_in, where_active_slot. split.
  - intros (Hr & Hlive & _ & Hrest). done.
  - intros (Hlive & Hr & Hrest). subst c. done.
Qed.

Lemma filter_select_out c ids l s v rows :
  c ∉ ids →
  filter (fun t => ComponentID t = c)
         (database.select (where_active_slot_in ids l s v) rows) = [].
Proof.
  intros Hc. apply filter_none. apply Forall_forall.
  intros r (_ & _ & Hin & _)%elem_of_select_in Hr. by rewrite Hr in Hin.
Qed.

Lemma last_select_in c ids l s v rows :
  store_ok rows → one_row_per_slot rows →
  last (filter (fun t => ComponentID t = c)
               (database.select (where_active_slot_in ids l s v) rows))
  = if decide (c ∈ ids) then slot c l s v rows else None.
Proof.
  intros Hok Hone. case_decide as Hc.
  - rewrite filter_select_in, select_slot_one by done.
    by destruct (slot c l s v rows).
  - by rewrite filter_select_out.
Qed.

(** X18: the bulk read and the single read agree.  On a store that
    answers, with one live row per slot, the bulk read returns for every
    requested component the row that [GetTranslation] returns for it, and
    nothing for a component for which [GetTranslation] fails. *)
Theorem bulk_read_agrees_with_single_reads componentIDs l s w :
  healthy w → store_ok (translation_versions w) →
  one_row_per_slot (translation_versions w) →
  ∃ results w',
    GetMultipleTranslations componentIDs l s w = (inr results, w')
    ∧ ∀ c, c ∈ componentIDs →
        results !! uuid.String c
        = match (GetTranslation c l s w).1 with
          | inr t => Some t
          | inl _ => None
          end.
Proof.
  intros Hw Hok Hone.
  set (rows := translation_versions w) in *.
  assert (∀ c, match (GetTranslation c l s w).1 with
               | inr t => Some t
               | inl _ => None
               end
               = match redis w !! cacheKey_of c l s with
                 | Some cached => Some cached
                 | None => match slot c l s 2 rows with
                           | Some t => Some t
                           | None => slot c l s 1 rows
                           end
                 end) as Hsingle.
  { intros c. rewrite GetTranslation_result by done. fold rows.
    destruct (redis w !! _); [done|]. destruct (slot c l s 2 rows); [done|].
    by destruct (slot c l s 1 rows). }
  unfold GetMultipleTranslations. unfold bind at 1.
  destruct (first_pass_values l s componentIDs ∅ [] w) as (res1 & -> & Hres1).
  rewrite app_nil_l.
  set (missing := filter (fun c => ¬ cached w l s c) componentIDs).
  assert (∀ c, c ∈ missing ↔ c ∈ componentIDs ∧ redis w !! cacheKey_of c l s = None)
    as Hmissing.
  { intros c. unfold missing. rewrite list_elem_of_filter. unfold cached.
    rewrite <- eq_None_not_Some. tauto. }
  assert (∀ c, c ∈ componentIDs →
               res1 !! uuid.String c = redis w !! cacheKey_of c l s) as Hhit.
  { intros c Hc. rewrite Hres1. case_decide as Hd; [done|].
    rewrite lookup_empty. symmetry. apply eq_None_not_Some. intros ?. by destruct Hd. }
  destruct missing as [|m0 missing'] eqn:Hmiss_eq.
  { exists res1, w. split; [done|]. intros c Hc. rewrite Hsingle, Hhit by done.
    destruct (redis w !! cacheKey_of c l s) eqn:E; [done|].
    assert (c ∈ []) as []%elem_of_nil. by apply Hmissing. }
  rewrite <- Hmiss_eq in *. clear Hmiss_eq m0 missing'.
  unfold bind at 1. rewrite Find_healthy by done. fold rows.
  set (found2 := database.select (where_active_slot_in missing l s 2) rows).
  unfold bind at 1.
  destruct (collect_values l s found2 res1 w) as (res2 & rd2 & -> & Hres2).
  set (stillMissing :=
         filter (fun id => uuid.String id ∉ (fun t => uuid.String (ComponentID t)) <$> found2)
                missing).
  assert (∀ c, c ∈ componentIDs →
               res2 !! uuid.String c
               = match redis w !! cacheKey_of c l s with
                 | Some cached => Some cached
                 | None => slot c l s 2 rows
                 end) as Hval2.
  { intros c Hc. rewrite Hres2. unfold found2. rewrite last_select_in by done.
    rewrite Hhit by done. case_decide as Hm.
    - apply Hmissing in Hm as [_ ->]. by destruct (slot c l s 2 rows).
    - destruct (redis w !! cacheKey_of c l s) eqn:E; [done|].
      destruct Hm. by apply Hmissing. }
  assert (∀ c, c ∈ stillMissing ↔ c ∈ missing ∧ slot c l s 2 rows = None) as Hstill.
  { intros c. unfold stillMissing. rewrite list_elem_of_filter. split.
    - intros [Hfound Hm]. split; [done|].
      destruct (slot c l s 2 rows) as [t|] eqn:Ht; [|done]. destruct Hfound.
      apply list_elem_of_fmap. exists t.
      apply slot_Some in Ht as (Hin & Hlive & Hc & Hl & Hs & Hv).
      split; [by rewrite Hc|]. apply elem_of_select_in.
      destruct Hok as [_ Hall]. rewrite Forall_forall in Hall.
      destruct (Hall t Hin) as [_ Hact].
      rewrite Hc. split_and!; done.
    - intros [Hm Hnone]. split; [|done].
      intros (t & Ht & Hsel)%list_elem_of_fmap.
      apply (inj pretty) in Ht.
      assert (t ∈ filter (fun t => ComponentID t = c) found2) as Hin
        by (apply list_elem_of_filter; done).
      unfold found2 in Hin. rewrite filter_select_in, select_slot_one in Hin by done.
      rewrite Hnone in Hin. by apply elem_of_nil in Hin. }
  destruct stillMissing as [|s0 still'] eqn:Hstill_eq.
  { unfold ret. eexists res2, _. split; [reflexivity|]. intros c Hc.
    rewrite Hsingle, Hval2 by done.
    destruct (redis w !! cacheKey_of c l s) eqn:E; [done|].
    destruct (slot c l s 2 rows) eqn:E2; [done|].
    assert (c ∈ []) as []%elem_of_nil. apply Hstill. split; [|done]. by apply Hmissing. }
  rewrite <- Hstill_eq in *. clear Hstill_eq s0 still'.
  unfold bind at 1. rewrite Find_healthy by done. world_simpl. fold rows.
  set (found1 := database.select (where_active_slot_in stillMissing l s 1) rows).
  unfold bind at 1.
  destruct (collect_values l s found1 res2 (with_redis rd2 w)) as (res3 & rd3 & -> & Hres3).
  unfold ret. eexists res3, _. split; [reflexivity|]. intros c Hc.
  rewrite Hsingle, Hres3. unfold found1. rewrite last_select_in by done.
  rewrite Hval2 by done. case_decide as Hs.
  - apply Hstill in Hs as [[_ ->]%Hmissing ->]. by destruct (slot c l s 1 rows).
  - destruct (redis w !! cacheKey_of c l s) eqn:E; [done|].
    destruct (slot c l s 2 rows) eqn:E2; [done|].
    destruct Hs. apply Hstill. split; [|done]. by apply Hmissing.
Qed.

(** ** One live row per slot *)

Lemma one_row_per_slot_update rows e e' :
  store_ok rows → e ∈ rows → same_slot e e' →
  one_row_per_slot rows → one_row_per_slot (update e' <$> rows).
Proof.
  intros Hok He (Hid & Hc & Hl & Hs & Hv & _ & Hd) Hone.
  assert (∀ r, r ∈ rows →
            database.live (update e' r) = database.live r
            ∧ ComponentID (update e' r) = ComponentID r
            ∧ Locale (update e' r) = Locale r ∧ Stage (update e' r) = Stage r
            ∧ Version (update e' r) = Version r) as Hsame.
  { intros r Hr. unfold update. case_decide as Hr'; [|done].
    assert (r = e) as -> by (eapply store_ok_unique; [done..|congruence]).
    unfold database.live. rewrite Hd, Hc, Hl, Hs, Hv. done. }
  intros ? ? (r1 & -> & H1)%list_elem_of_fmap (r2 & -> & H2)%list_elem_of_fmap.
  destruct (Hsame r1 H1) as (-> & -> & -> & -> & ->).
  destruct (Hsame r2 H2) as (-> & -> & -> & -> & ->).
  intros. f_equal. by apply Hone.
Qed.

Lemma one_row_per_slot_new_row rows c l s v d u :
  slot c l s v rows = None →
  one_row_per_slot rows → one_row_per_slot (rows ++ [new_row c l s v d u rows]).
Proof.
  intros Hnone Hone. unfold slot in Hnone. rewrite first_None in Hnone.
  assert (∀ r, r ∈ rows → database.live r →
            ComponentID r = c → Locale r = l → Stage r = s → Version r = v → False)
    as Hno by (intros r Hr ? ? ? ? ?; by apply (Hnone r Hr)).
  intros r1 r2 [H1|H1%list_elem_of_singleton]%elem_of_app
               [H2|H2%list_elem_of_singleton]%elem_of_app; subst; simpl; intros.
  - by apply Hone.
  - by destruct (Hno r1).
  - destruct (Hno r2); done.
  - done.
Qed.

Lemma one_row_per_slot_cleaned rows :
  one_row_per_slot rows → one_row_per_slot (cleaned <$> rows).
Proof.
  intros Hone ? ? (r1 & -> & H1)%list_elem_of_fmap (r2 & -> & H2)%list_elem_of_fmap.
  unfold cleaned. do 2 case_decide; try done. apply Hone; done.
Qed.

(** The table after a revert, on a store that answers. *)
Lemma RevertTranslation_table c l s w version1 :
  healthy w → store_ok (translation_versions w) →
  slot c l s 1 (translation_versions w) = Some version1 →
  let rows := translation_versions w in
  RevertTranslation c l s w
  = (inr tt,
     match slot c l s 2 rows with
     | Some e =>
         with_redis (delete (cacheKey_of c l s) (redis w))
           (with_translation_versions (update (with_Data (Data version1) e) <$> rows) w)
     | None =>
         with_translation_versions
           (rows ++ [new_row c l s 2 (Data version1) uuid.Nil rows]) w
     end).
Proof.
  intros Hw Hok H1. destruct w as [rows comps apps rd fs key].
  unfold healthy in Hw. simpl in Hw, Hok, H1 |- *. subst fs.
  unfold RevertTranslation, bind.
  rewrite First_healthy by done. world_simpl. fold (slot c l s 1 rows). rewrite H1.
  rewrite First_healthy by done. world_simpl. fold (slot c l s 2 rows).
  destruct (slot c l s 2 rows) as [e|] eqn:He.
  - pose proof (slot_Some _ _ _ _ _ _ He) as (Hin & _).
    rewrite Save_healthy; [done|done| |].
    + destruct Hok as [_ Hall]. rewrite Forall_forall in Hall. by destruct (Hall e Hin).
    + change (ID (with_Data (Data version1) e)) with (ID e).
      by apply list_elem_of_fmap_2.
  - by rewrite Create_healthy.
Qed.

(** X19: the service keeps one live row per slot.  On a store that
    answers, a table with at most one live row for each component,
    locale, stage and version is still such a table after a save and after
    a revert. *)
Theorem one_row_per_slot_is_kept c l s d u w :
  healthy w → store_ok (translation_versions w) →
  one_row_per_slot (translation_versions w) →
  one_row_per_slot (translation_versions (SaveTranslation c l s d u w).2)
  ∧ one_row_per_slot (translation_versions (RevertTranslation c l s w).2).
Proof.
  intros Hw Hok Hone. split.
  - rewrite SaveTranslation_table by done. world_simpl.
    apply one_row_per_slot_cleaned.
    set (rows := translation_versions w) in *.
    destruct (slot c l s 2 rows) as [e|] eqn:H2.
    + pose proof (slot_Some _ _ _ _ _ _ H2) as (Hin & _).
      set (e' := with_UpdatedBy u (with_Data d e)).
      assert (same_slot e e') as Hsame by done.
      assert (one_row_per_slot (update e' <$> rows)) as Hone1
        by by eapply one_row_per_slot_update.
      destruct (slot c l s 1 rows) eqn:H1; [done|].
      apply one_row_per_slot_new_row; [|done].
      rewrite <- H1. eapply slot_update_other; [done..|]. intros (_ & _ & _ & [=]).
    + assert (one_row_per_slot (rows ++ [new_row c l s 2 d u rows])) as Hone1
        by by apply one_row_per_slot_new_row.
      destruct (slot c l s 1 rows) eqn:H1; [done|].
      apply one_row_per_slot_new_row; [|done].
      rewrite <- H1. apply slot_new_row_other. intros (_ & _ & _ & [=]).
  - destruct (slot c l s 1 (translation_versions w)) as [version1|] eqn:H1.
    + rewrite (RevertTranslation_table c l s w version1) by done.
      destruct (slot c l s 2 (translation_versions w)) as [e|] eqn:H2; world_simpl.
      * pose proof (slot_Some _ _ _ _ _ _ H2) as (Hin & _).
        by eapply one_row_per_slot_update.
      * by apply one_row_per_slot_new_row.
    + by rewrite RevertTranslation_no_slot1.
Qed.

(** ** The bulk read by codes *)

Section foldl_insert.
Context {K V A : Type} `{Countable K} (key : A → K) (val : A → V).

Abbreviation index m l := (foldl (fun m a => <[key a := val a]> m) m l).

Lemma foldl_insert_lookup_ne (m : gmap K V) l k :
  k ∉ key <$> l → index m l !! k = m !! k.
Proof.
  revert m. induction l as [|a l IH]; intros m Hk; [done|].
  cbn [foldl]. rewrite fmap_cons, not_elem_of_cons in Hk. destruct Hk as [Hne Hk].
  rewrite IH by done. by rewrite lookup_insert_ne.
Qed.

Lemma foldl_insert_lookup_None (m : gmap K V) l k :
  index m l !! k = None ↔ m !! k = None ∧ k ∉ key <$> l.
Proof.
  revert m. induction l as [|a l IH]; intros m.
  - cbn [foldl]. rewrite fmap_nil.
    split; [intros ?; split; [done|apply not_elem_of_nil]|by intros [? _]].
  - cbn [foldl]. rewrite IH, fmap_cons, not_elem_of_cons, lookup_insert_None.
    split; [intros [[? ?] ?]|intros [? [? ?]]]; split_and!; done.
Qed.

Lemma foldl_insert_lookup_Some (m : gmap K V) l k v :
  index m l !! k = Some v → m !! k = Some v ∨ ∃ a, a ∈ l ∧ key a = k ∧ val a = v.
Proof.
  revert m. induction l as [|a l IH]; intros m; [by left|].
  cbn [foldl]. intros [Hm|(a' & Ha' & Hk & Hv)]%IH.
  - apply lookup_insert_Some in Hm as [[<- <-]|[_ Hm]]; [|by left].
    right. exists a. split; [by left|done].
  - right. exists a'. split; [by right|done].
Qed.

Lemma foldl_insert_lookup_NoDup (m : gmap K V) l a :
  NoDup (key <$> l) → a ∈ l → index m l !! key a = Some (val a).
Proof.
  revert m. induction l as [|a0 l IH]; intros m Hnd Ha; [by apply elem_of_nil in Ha|].
  rewrite fmap_cons in Hnd. apply NoDup_cons in Hnd as [Hfresh Hnd]. cbn [foldl].
  apply elem_of_cons in Ha as [->|Ha]; [|by apply IH].
  rewrite foldl_insert_lookup_ne by done. apply lookup_insert_eq.
Qed.

End foldl_insert.

Lemma filter_ext_in {A} (P Q : A → Prop) `{!∀ x, Decision (P x)} `{!∀ x, Decision (Q x)}
    (l : list A) :
  (∀ x, x ∈ l → P x ↔ Q x) → filter P l = filter Q l.
Proof.
  induction l as [|x l IH]; intros Hext; [done|]. rewrite !filter_cons.
  rewrite IH by (intros y Hy; apply Hext; by right).
  destruct (decide (P x)) as [HP|HP], (decide (Q x)) as [HQ|HQ]; try done.
  - destruct HQ. apply Hext; [by left|done].
  - destruct HP. apply Hext; [by left|done].
Qed.

Lemma cacheKey_of_component c l s c' l' s' :
  cacheKey_of c l s = cacheKey_of c' l' s' → c = c'.
Proof.
  unfold cacheKey_of, cache.TranslationKey. intros H.
  apply (inj (String.app _)) in H. rewrite !String_append_cons, !String_append_nil_l in H.
  apply app_byte_inj in H as [H _]; [|apply uuid_String_no_colon..].
  by apply (inj pretty) in H.
Qed.

Lemma first_pass_coherent l s ids results missing w :
  cache_ok w → coherent results →
  coherent (first_pass l s ids (results, missing) w).1.1.
Proof.
  intros Hcache. unfold first_pass.
  revert results missing. induction ids as [|c0 ids IH]; intros results missing Hres.
  - done.
  - cbn [foldM]. unfold bind at 1. unfold bind at 1. unfold cache.Get at 1.
    destruct (redis w !! cacheKey_of c0 l s) as [v|] eqn:Hv; unfold ret at 1.
    + apply IH. intros k t [[<- <-]|[_ Hk]]%lookup_insert_Some; [|by apply Hres].
      by rewrite (Hcache _ _ _ _ Hv).
    + by apply IH.
Qed.

Lemma collect_coherent l s translations results w :
  coherent results → coherent (collect l s translations results w).1.
Proof.
  unfold collect.
  revert results w. induction translations as [|t ts IH]; intros results w Hres.
  - done.
  - cbn [foldM]. unfold bind at 1. unfold bind at 1. unfold cache.Set_ at 1, ret at 1.
    apply IH. intros k t' [[<- <-]|[_ Hk]]%lookup_insert_Some; [done|by apply Hres].
Qed.

Lemma GetMultipleTranslations_coherent ids l s w bulk w' :
  cache_ok w →
  GetMultipleTranslations ids l s w = (inr bulk, w') → coherent bulk.
Proof.
  intros Hcache. unfold GetMultipleTranslations. unfold bind at 1.
  pose proof (first_pass_coherent l s ids ∅ [] w Hcache) as Hfp.
  destruct (first_pass l s ids (∅, []) w) as [[results missing] w0].
  simpl in Hfp. assert (coherent results) as Hres by (apply Hfp; by intros ? ? ?).
  clear Hfp.
  destruct missing as [|m missing]; [unfold ret; by intros [= <- <-]|].
  unfold bind at 1.
  destruct (database.Find _ w0) as [[err|found] w1]; [unfold ret; by intros [= <- <-]|].
  unfold bind at 1.
  pose proof (collect_coherent l s found results w1 Hres) as Hres1.
  destruct (collect l s found results w1) as [results1 w2]. simpl in Hres1.
  destruct (filter _ (m :: missing)) as [|m' still]; [unfold ret; by intros [= <- <-]|].
  unfold bind at 1.
  destruct (database.Find _ w2) as [found1 w3].
  unfold bind at 1.
  match goal with
  | |- (let (_, _) := collect l s ?ts results1 w3 in _) = _ → _ =>
      pose proof (collect_coherent l s ts results1 w3 Hres1) as Hres3;
      destruct (collect l s ts results1 w3) as [results3 w4]
  end.
  simpl in Hres3. unfold ret. by intros [= <- <-].
Qed.

(** A map keyed anew: the entry under a new key is the entry whose value
    is sent to it, when there is one such entry at most. *)
Lemma map_fold_rekey (f : TranslationVersion → option string)
    (m : gmap string TranslationVersion) code k0 :
  (∀ k t, m !! k = Some t → f t = Some code → k = k0) →
  (∀ t, m !! k0 = Some t → f t = Some code) →
  map_fold (fun _ t (result : gmap string TranslationVersion) =>
              match f t with
              | Some code' => <[code' := t]> result
              | None => result
              end) ∅ m !! code
  = m !! k0.
Proof.
  induction m as [|i x m Hi Hfirst IH] using map_first_key_ind; intros H1 H2.
  - by rewrite map_fold_empty, !lookup_empty.
  - rewrite map_fold_insert_first_key by done.
    assert (map_fold (fun _ t (result : gmap string TranslationVersion) =>
                        match f t with
                        | Some code' => <[code' := t]> result
                        | None => result
                        end) ∅ m !! code = m !! k0) as IH'.
    { apply IH.
      - intros k t Hk. apply H1. rewrite lookup_insert_ne; [done|]. by intros ->; congruence.
      - intros t Hk. apply H2. rewrite lookup_insert_ne; [done|]. by intros ->; congruence. }
    destruct (decide (f x = Some code)) as [Hx|Hx].
    + rewrite Hx. assert (i = k0) as -> by (apply (H1 i x); [apply lookup_insert_eq|done]).
      by rewrite !lookup_insert_eq.
    + assert (i ≠ k0) as Hne.
      { intros ->. apply Hx, H2, lookup_insert_eq. }
      rewrite (lookup_insert_ne m) by done. rewrite <- IH'.
      destruct (f x) as [code'|]; [|done].
      rewrite lookup_insert_ne; [done|]. by intros ->.
Qed.

Lemma map_fold_rekey_Some (f : TranslationVersion → option string)
    (m : gmap string TranslationVersion) code t :
  map_fold (fun _ t (result : gmap string TranslationVersion) =>
              match f t with
              | Some code' => <[code' := t]> result
              | None => result
              end) ∅ m !! code = Some t →
  f t = Some code.
Proof.
  induction m as [|i x m Hi Hfirst IH] using map_first_key_ind.
  - by rewrite map_fold_empty, lookup_empty.
  - rewrite map_fold_insert_first_key by done.
    destruct (f x) as [code'|] eqn:Hx; [|done].
    intros [[<- <-]|[_ H]]%lookup_insert_Some; [done|by apply IH].
Qed.

Section Codes_properties.

Variable application_Code : Application → string.
Variable component_Code : Component → string.

Abbreviation resolves' := (resolves component_Code).
Abbreviation ByCodes :=
  (GetMultipleTranslationsByCodes application_Code component_Code).

Lemma FindComponentsByCodes_healthy codes appID w :
  healthy w →
  FindComponentsByCodes component_Code codes appID w
  = (inr (filter (fun c => component_DeletedAt c = false
                           ∧ component_Code c ∈ codes
                           ∧ component_ApplicationID c = appID) (components w)), w).
Proof.
  intros Hw. unfold FindComponentsByCodes, bind. by rewrite fault_healthy.
Qed.

Lemma resolves_found (codes : list string) appID w code :
  code ∈ codes →
  resolves' w appID code ↔
  code ∈ component_Code
         <$> filter (fun c => component_DeletedAt c = false
                              ∧ component_Code c ∈ codes
                              ∧ component_ApplicationID c = appID) (components w).
Proof.
  intros Hcode. unfold resolves. rewrite Exists_exists, list_elem_of_fmap. split.
  - intros (c & Hc & Hd & <- & Happ). exists c. split; [done|].
    apply list_elem_of_filter. done.
  - intros (c & -> & [(Hd & _ & Happ) Hc]%list_elem_of_filter). by exists c.
Qed.

(** X20: the bulk read by codes resolves every code or nothing.  On a
    store that answers, when some requested code is not the code of a live
    component of the application, the call fails, the error lists those
    codes in the order of the request, and neither the table nor the cache
    is touched. *)
Theorem unknown_codes_are_reported applicationCode componentCodes l s w application :
  healthy w →
  FirstApplicationByCode application_Code applicationCode w = (inr application, w) →
  let missing :=
    filter (fun code => ¬ resolves component_Code w (application_ID application) code)
           componentCodes in
  missing ≠ [] →
  GetMultipleTranslationsByCodes application_Code component_Code
    applicationCode componentCodes l s w
  = (inl (ErrNew ("component codes not found: ["
                  +:+ strings.Join missing " " +:+ "]")), w).
Proof.
  intros Hw Happ missing Hmissing.
  unfold GetMultipleTranslationsByCodes. unfold bind at 1. rewrite Happ.
  unfold bind at 1. rewrite FindComponentsByCodes_healthy by done.
  set (found := filter _ (components w)). cbv zeta.
  assert (filter (fun code =>
                    foldl (fun m component =>
                             <[component_Code component := component_ID component]> m)
                          (∅ : gmap string N) found !! code = None)
                 componentCodes = missing) as ->.
  { apply filter_ext_in. intros code Hcode.
    rewrite foldl_insert_lookup_None, lookup_empty.
    rewrite (resolves_found componentCodes) by done. fold found. tauto. }
  destruct missing; done.
Qed.

Lemma NoDup_fmap_filter {A B} (f : A → B) (P : A → Prop) `{!∀ x, Decision (P x)}
    (l : list A) :
  NoDup (f <$> l) → NoDup (f <$> filter P l).
Proof.
  intros Hnd. pose proof (sublist_filter P l) as Hs.
  apply (fmap_sublist f) in Hs. by eapply sublist_NoDup.
Qed.

(** X21: the bulk read by codes is the bulk read of the components the
    codes stand for, keyed by code.  On a store that answers, when every
    requested code is the code of a live component of the application, the
    call succeeds with what [GetMultipleTranslations] returns for those
    components: the entry under a code is the entry of its component, and
    every key is a requested code. *)
Theorem bulk_read_by_codes applicationCode componentCodes l s w application :
  healthy w → components_ok component_Code w → cache_ok w →
  FirstApplicationByCode application_Code applicationCode w = (inr application, w) →
  Forall (resolves component_Code w (application_ID application)) componentCodes →
  ∃ componentIDs bulk result w',
    GetMultipleTranslations componentIDs l s w = (inr bulk, w')
    ∧ GetMultipleTranslationsByCodes application_Code component_Code
        applicationCode componentCodes l s w = (inr result, w')
    ∧ (∀ component,
         component ∈ components w → component_DeletedAt component = false →
         component_ApplicationID component = application_ID application →
         component_Code component ∈ componentCodes →
         component_ID component ∈ componentIDs
         ∧ result !! component_Code component
           = bulk !! uuid.String (component_ID component))
    ∧ ∀ code t, result !! code = Some t → code ∈ componentCodes.
Proof.
  intros Hw [Hids Hcodes] Hcache Happ Hall.
  unfold GetMultipleTranslationsByCodes. unfold bind at 1. rewrite Happ.
  unfold bind at 1. rewrite FindComponentsByCodes_healthy by done.
  set (found := filter _ (components w)). cbv zeta.
  assert (∀ c, c ∈ found ↔
               c ∈ components w ∧ component_DeletedAt c = false
               ∧ component_Code c ∈ componentCodes
               ∧ component_ApplicationID c = application_ID application) as Hfound.
  { intros c. unfold found. rewrite list_elem_of_filter. tauto. }
  set (codeToID := foldl (fun m component =>
                            <[component_Code component := component_ID component]> m)
                         (∅ : gmap string N) found).
  set (idToCode := foldl (fun m component =>
                            <[component_ID component := component_Code component]> m)
                         (∅ : gmap N string) found).
  assert (filter (fun code => codeToID !! code = None) componentCodes = []) as ->.
  { apply filter_none. eapply Forall_impl; [apply Forall_forall; intros code Hc; exact Hc|].
    intros code Hcode. simpl. unfold codeToID.
    rewrite foldl_insert_lookup_None, lookup_empty.
    intros [_ Hno]. apply Hno. unfold found.
    rewrite <- (resolves_found componentCodes) by done.
    rewrite Forall_forall in Hall. by apply Hall. }
  unfold bind at 1.
  destruct (GetMultipleTranslations (component_ID <$> found) l s w) as [got w'] eqn:Hbulk.
  pose proof (GetMultipleTranslations_rows _ _ _ _ _ _ Hbulk) as [_ [bulk ->]].
  pose proof (GetMultipleTranslations_coherent _ _ _ _ _ _ Hcache Hbulk) as Hcoh.
  unfold ret. eexists (component_ID <$> found), bulk, _, w'.
  split; [done|]. split; [reflexivity|]. split.
  - intros comp Hin Hlive Hcapp Hcode.
    assert (comp ∈ found) as Hcomp by by apply Hfound.
    split; [by apply list_elem_of_fmap_2|].
    assert (idToCode !! component_ID comp = Some (component_Code comp)) as Hid.
    { unfold idToCode. apply (foldl_insert_lookup_NoDup component_ID component_Code);
        [|done]. by apply NoDup_fmap_filter. }
    apply map_fold_rekey.
    + intros k t Hk Ht. rewrite (Hcoh k t Hk). f_equal.
      apply foldl_insert_lookup_Some in Ht as [Ht|(comp' & Hc' & Hid' & Hcode')];
        [by rewrite lookup_empty in Ht|].
      apply Hfound in Hc' as (Hin' & Hlive' & _ & Happ').
      assert (comp' = comp) as -> by (apply Hcodes; congruence). done.
    + intros t Hk. apply Hcoh in Hk. apply (inj pretty) in Hk. by rewrite <- Hk.
  - intros code t Ht%map_fold_rekey_Some.
    apply foldl_insert_lookup_Some in Ht as [Ht|(comp' & Hc' & _ & <-)];
      [by rewrite lookup_empty in Ht|].
    by apply Hfound in Hc' as (_ & _ & ? & _).
Qed.

End Codes_properties.

(** ** The invariants, for every sequence of calls *)

Lemma adds_no_entry_ret {A} (a : A) : adds_no_entry (ret a).
Proof. by intros w k v. Qed.

Lemma adds_no_entry_bind {A B} (m : M A) (f : A → M B) :
  adds_no_entry m → (∀ a, adds_no_entry (f a)) → adds_no_entry (bind m f).
Proof.
  intros Hm Hf w k v. unfold bind. specialize (Hm w k v).
  destruct (m w) as [a w1]. intros H. by apply Hm, (Hf a).
Qed.

Lemma adds_no_entry_operation {A} (body : M (Result A)) :
  adds_no_entry body →
  adds_no_entry (let* failed := database.fault in
                 if failed : bool then ret (inl ErrDriver) else body).
Proof.
  intros Hbody. apply adds_no_entry_bind.
  - intros w k v. unfold database.fault. by destruct (db_faults w).
  - intros []; [apply adds_no_entry_ret|done].
Qed.

Ltac adds_no_entry_tac :=
  intros w k v;
  cbv beta delta [database.insert cache.Delete ret]; world_simpl;
  repeat case_match; cbn [fst snd]; world_simpl; try done.

Lemma adds_no_entry_First (P : TranslationVersion → Prop) `{!∀ r, Decision (P r)} :
  adds_no_entry (database.First P).
Proof. apply adds_no_entry_operation. adds_no_entry_tac. Qed.

Lemma adds_no_entry_Create row : adds_no_entry (database.Create row).
Proof. apply adds_no_entry_operation. adds_no_entry_tac. Qed.

Lemma adds_no_entry_Save row : adds_no_entry (database.Save row).
Proof.
  unfold database.Save. apply adds_no_entry_bind.
  - intros w k v. unfold database.fault. by destruct (db_faults w).
  - intros []; [apply adds_no_entry_ret|]. case_decide; adds_no_entry_tac.
Qed.

Lemma adds_no_entry_CleanupOldVersions : adds_no_entry database.CleanupOldVersions.
Proof. apply adds_no_entry_operation. adds_no_entry_tac. Qed.

Lemma adds_no_entry_cache_Delete key : adds_no_entry (cache.Delete key).
Proof.
  intros w k v. unfold cache.Delete. cbn [snd]. world_simpl.
  by intros [_ ?]%lookup_delete_Some.
Qed.

Ltac adds_no_entry_steps :=
  repeat first
    [ apply adds_no_entry_ret
    | apply adds_no_entry_First
    | apply adds_no_entry_Create
    | apply adds_no_entry_Save
    | apply adds_no_entry_CleanupOldVersions
    | apply adds_no_entry_cache_Delete
    | apply adds_no_entry_bind; [|intros ?]
    | match goal with
      | |- adds_no_entry (match ?x with _ => _ end) => destruct x
      end ].

Lemma adds_no_entry_SaveTranslation c l s d u : adds_no_entry (SaveTranslation c l s d u).
Proof. unfold SaveTranslation. adds_no_entry_steps. Qed.

Lemma adds_no_entry_RevertTranslation c l s : adds_no_entry (RevertTranslation c l s).
Proof. unfold RevertTranslation. adds_no_entry_steps. Qed.

Lemma cache_ok_adds_no_entry {A} (m : M A) w :
  adds_no_entry m → cache_ok w → cache_ok (m w).2.
Proof. intros Hm Hw c l s t Ht. by apply (Hw c l s), Hm. Qed.

Lemma cache_ok_insert c l s t w :
  ComponentID t = c → cache_ok w →
  cache_ok (with_redis (<[cacheKey_of c l s := t]> (redis w)) w).
Proof.
  intros Ht Hw c' l' s' t'. world_simpl.
  intros [[Hk <-]|[_ Hk]]%lookup_insert_Some; [|by apply (Hw c' l' s')].
  apply cacheKey_of_component in Hk. congruence.
Qed.

Lemma First_where (P : TranslationVersion → Prop) `{!∀ r, Decision (P r)} w r w' :
  database.First P w = (inr r, w') → P r.
Proof.
  unfold database.First, bind.
  destruct (database.fault w) as [[] w1]; [by unfold ret|].
  destruct (database.least_id _) as [x|] eqn:Hx; intros [= <- <-].
  by apply first_Some in Hx as (_ & _ & ?).
Qed.

Lemma same_data_cache_ok w w' : same_data w w' → cache_ok w → cache_ok w'.
Proof. intros (_ & Hr & _) Hw c l s t. rewrite Hr. apply Hw. Qed.

Lemma GetTranslation_cache_ok c l s w :
  cache_ok w → cache_ok (GetTranslation c l s w).2.
Proof.
  intros Hok. unfold GetTranslation, bind, cache.Get.
  destruct (redis w !! cacheKey_of c l s); [done|].
  destruct (database.First (where_active_slot c l s 2) w) as [r2 w2] eqn:H2.
  pose proof (First_same_data _ _ _ _ H2) as Hd2.
  pose proof (same_data_cache_ok _ _ Hd2 Hok) as Hok2.
  destruct r2 as [[]|t]; try done.
  - destruct (database.First (where_active_slot c l s 1) w2) as [[e|t] w1] eqn:H1;
      pose proof (First_same_data _ _ _ _ H1) as Hd1;
      pose proof (same_data_cache_ok _ _ Hd1 Hok2) as Hok1; [done|].
    unfold cache.Set_, ret. cbn [snd]. apply cache_ok_insert; [|done].
    by apply First_where in H1 as (? & _).
  - unfold cache.Set_, ret. cbn [snd]. apply cache_ok_insert; [|done].
    by apply First_where in H2 as (? & _).
Qed.

Lemma collect_cache_ok l s translations results w :
  cache_ok w → cache_ok (collect l s translations results w).2.
Proof.
  unfold collect.
  revert results w. induction translations as [|t ts IH]; intros results w Hok; [done|].
  cbn [foldM]. unfold bind at 1. unfold bind at 1. unfold cache.Set_ at 1, ret at 1.
  apply IH. by apply cache_ok_insert.
Qed.

Lemma GetMultipleTranslations_cache_ok ids l s w :
  cache_ok w → cache_ok (GetMultipleTranslations ids l s w).2.
Proof.
  intros Hok. unfold GetMultipleTranslations. unfold bind at 1.
  pose proof (first_pass_rows l s ids (∅, []) w) as Hfp.
  destruct (first_pass l s ids (∅, []) w) as [[results missing] w0].
  simpl in Hfp. subst w0.
  destruct missing as [|m missing]; [done|].
  unfold bind at 1.
  destruct (database.Find _ w) as [[err|found] w1] eqn:Hfind;
    apply Find_same_data in Hfind;
    pose proof (same_data_cache_ok _ _ Hfind Hok) as Hok1; [done|].
  unfold bind at 1.
  pose proof (collect_cache_ok l s found results w1 Hok1) as Hok2.
  destruct (collect l s found results w1) as [results1 w2]. simpl in Hok2.
  destruct (filter _ (m :: missing)) as [|m' still]; [done|].
  unfold bind at 1.
  destruct (database.Find _ w2) as [found1 w3] eqn:Hfind1.
  apply Find_same_data in Hfind1.
  pose proof (same_data_cache_ok _ _ Hfind1 Hok2) as Hok3.
  unfold bind at 1.
  match goal with
  | |- cache_ok (let (_, _) := collect l s ?ts results1 w3 in _).2 =>
      pose proof (collect_cache_ok l s ts results1 w3 Hok3) as Hok4;
      destruct (collect l s ts results1 w3) as [results3 w4]
  end.
  done.
Qed.

Lemma run_call_cache_ok k w : cache_ok w → cache_ok (run_call k w).2.
Proof.
  intros Hok. destruct k as [c l s|cs l s|c l s d u|c l s|c l s s' u];
    unfold run_call, bind, ret.
  - pose proof (GetTranslation_cache_ok c l s w Hok).
    by destruct (GetTranslation c l s w).
  - pose proof (GetMultipleTranslations_cache_ok cs l s w Hok).
    by destruct (GetMultipleTranslations cs l s w).
  - pose proof (cache_ok_adds_no_entry _ w (adds_no_entry_SaveTranslation c l s d u) Hok).
    by destruct (SaveTranslation c l s d u w).
  - pose proof (cache_ok_adds_no_entry _ w (adds_no_entry_RevertTranslation c l s) Hok).
    by destruct (RevertTranslation c l s w).
  - unfold DeployToStage, bind.
    pose proof (GetTranslation_cache_ok c l s w Hok) as H1.
    destruct (GetTranslation c l s w) as [[err|source] w1]; [done|].
    pose proof (cache_ok_adds_no_entry _ w1
                  (adds_no_entry_SaveTranslation c l s' (Data source) u) H1).
    destruct (SaveTranslation c l s' (Data source) u w1) as [[]]; done.
Qed.

Lemma cache_exact_adds_no_entry {A} (m : M A) w :
  adds_no_entry m → cache_exact w → cache_exact (m w).2.
Proof. intros Hm Hw c l s t Hl Ht. by apply (Hw c l s), Hm. Qed.

Lemma cache_exact_insert c l s t w :
  strings.Contains l ":" = false →
  ComponentID t = c → Locale t = l → Stage t = s → cache_exact w →
  cache_exact (with_redis (<[cacheKey_of c l s := t]> (redis w)) w).
Proof.
  intros Hl Hc Hlt Hs Hw c' l' s' t' Hl'. world_simpl.
  intros [[Hk <-]|[_ Hk]]%lookup_insert_Some; [|by apply (Hw c' l' s')].
  apply cacheKey_of_inj in Hk as (-> & -> & ->); done.
Qed.

Lemma same_data_cache_exact w w' : same_data w w' → cache_exact w → cache_exact w'.
Proof. intros (_ & Hr & _) Hw c l s t. rewrite Hr. apply Hw. Qed.

Lemma GetTranslation_cache_exact c l s w :
  strings.Contains l ":" = false →
  cache_exact w → cache_exact (GetTranslation c l s w).2.
Proof.
  intros Hl Hok. unfold GetTranslation, bind, cache.Get.
  destruct (redis w !! cacheKey_of c l s); [done|].
  destruct (database.First (where_active_slot c l s 2) w) as [r2 w2] eqn:H2.
  pose proof (First_same_data _ _ _ _ H2) as Hd2.
  pose proof (same_data_cache_exact _ _ Hd2 Hok) as Hok2.
  destruct r2 as [[]|t]; try done.
  - destruct (database.First (where_active_slot c l s 1) w2) as [[e|t] w1] eqn:H1;
      pose proof (First_same_data _ _ _ _ H1) as Hd1;
      pose proof (same_data_cache_exact _ _ Hd1 Hok2) as Hok1; [done|].
    unfold cache.Set_, ret. cbn [snd].
    apply First_where in H1 as (? & ? & ? & _). by apply cache_exact_insert.
  - unfold cache.Set_, ret. cbn [snd].
    apply First_where in H2 as (? & ? & ? & _). by apply cache_exact_insert.
Qed.

Lemma Find_where (P : TranslationVersion → Prop) `{!∀ r, Decision (P r)} w rows w' :
  database.Find P w = (inr rows, w') → Forall P rows.
Proof.
  unfold database.Find, bind.
  destruct (database.fault w) as [[] w1]; [by unfold ret|].
  intros [= <- <-]. apply Forall_forall. unfold database.select.
  by intros r [[_ ?] _]%list_elem_of_filter.
Qed.

Lemma collect_cache_exact l s translations results w :
  strings.Contains l ":" = false →
  Forall (fun t => Locale t = l ∧ Stage t = s) translations →
  cache_exact w → cache_exact (collect l s translations results w).2.
Proof.
  intros Hl. unfold collect.
  revert results w. induction translations as [|t ts IH]; intros results w Hall Hok;
    [done|].
  apply Forall_cons in Hall as [[Hlt Hs] Hall].
  cbn [foldM]. unfold bind at 1. unfold bind at 1. unfold cache.Set_ at 1, ret at 1.
  apply IH; [done|]. by apply cache_exact_insert.
Qed.

Lemma GetMultipleTranslations_cache_exact ids l s w :
  strings.Contains l ":" = false →
  cache_exact w → cache_exact (GetMultipleTranslations ids l s w).2.
Proof.
  intros Hl Hok. unfold GetMultipleTranslations. unfold bind at 1.
  pose proof (first_pass_rows l s ids (∅, []) w) as Hfp.
  destruct (first_pass l s ids (∅, []) w) as [[results missing] w0].
  simpl in Hfp. subst w0.
  destruct missing as [|m missing]; [done|].
  unfold bind at 1.
  destruct (database.Find _ w) as [[err|found] w1] eqn:Hfind;
    pose proof (Find_same_data _ _ _ _ Hfind) as Hsame;
    pose proof (same_data_cache_exact _ _ Hsame Hok) as Hok1; [done|].
  apply Find_where in Hfind.
  unfold bind at 1.
  assert (cache_exact (collect l s found results w1).2) as Hok2.
  { apply collect_cache_exact; [done| |done].
    eapply Forall_impl; [exact Hfind|]. by intros t (_ & ? & ? & _). }
  destruct (collect l s found results w1) as [results1 w2]. simpl in Hok2.
  destruct (filter _ (m :: missing)) as [|m' still]; [done|].
  unfold bind at 1.
  destruct (database.Find _ w2) as [found1 w3] eqn:Hfind1.
  pose proof (Find_same_data _ _ _ _ Hfind1) as Hsame1.
  pose proof (same_data_cache_exact _ _ Hsame1 Hok2) as Hok3.
  unfold bind at 1.
  match goal with
  | |- cache_exact (let (_, _) := collect l s ?ts results1 w3 in _).2 =>
      assert (cache_exact (collect l s ts results1 w3).2) as Hok4;
      [|destruct (collect l s ts results1 w3) as [results3 w4]; done]
  end.
  apply collect_cache_exact; [done| |done].
  destruct found1 as [err|rows]; [done|].
  apply Find_where in Hfind1.
  eapply Forall_impl; [exact Hfind1|]. by intros t (_ & ? & ? & _).
Qed.

Lemma run_call_cache_exact k w :
  strings.Contains (call_locale k) ":" = false →
  cache_exact w → cache_exact (run_call k w).2.
Proof.
  intros Hl Hok. destruct k as [c l s|cs l s|c l s d u|c l s|c l s s' u];
    cbn [call_locale] in Hl; unfold run_call, bind, ret.
  - pose proof (GetTranslation_cache_exact c l s w Hl Hok).
    by destruct (GetTranslation c l s w).
  - pose proof (GetMultipleTranslations_cache_exact cs l s w Hl Hok).
    by destruct (GetMultipleTranslations cs l s w).
  - pose proof (cache_exact_adds_no_entry _ w (adds_no_entry_SaveTranslation c l s d u) Hok).
    by destruct (SaveTranslation c l s d u w).
  - pose proof (cache_exact_adds_no_entry _ w (adds_no_entry_RevertTranslation c l s) Hok).
    by destruct (RevertTranslation c l s w).
  - unfold DeployToStage, bind.
    pose proof (GetTranslation_cache_exact c l s w Hl Hok) as H1.
    destruct (GetTranslation c l s w) as [[err|source] w1]; [done|].
    pose proof (cache_exact_adds_no_entry _ w1
                  (adds_no_entry_SaveTranslation c l s' (Data source) u) H1).
    destruct (SaveTranslation c l s' (Data source) u w1) as [[]]; done.
Qed.

(** X22: whatever calls are made and whatever the store does, the primary
    keys of the table stay unique and set, no inactive row is stored, and
    every cache entry holds a row of the component its key names.  When
    the locales of the calls hold no colon, an entry under the key of a
    component, such a locale and a stage also holds a row of that locale
    and stage, if that was so at the start. *)
Theorem store_and_cache_invariant ks w :
  store_ok (translation_versions w) → cache_ok w →
  store_ok (translation_versions (run_calls ks w).2)
  ∧ cache_ok (run_calls ks w).2
  ∧ (Forall (fun k => strings.Contains (call_locale k) ":" = false) ks →
     cache_exact w → cache_exact (run_calls ks w).2).
Proof.
  unfold run_calls. revert w. induction ks as [|k ks IH]; intros w Hok Hc; [done|].
  cbn [foldM]. unfold bind.
  pose proof (run_call_store_ok k w Hok) as Hk.
  pose proof (run_call_cache_ok k w Hc) as Hkc.
  pose proof (run_call_cache_exact k w) as Hke.
  destruct (run_call k w) as [[] w1].
  destruct (IH w1 Hk Hkc) as (? & ? & Hexact). split_and!; [done..|].
  intros [Hl Hks]%Forall_cons He. apply Hexact; [done|]. by apply Hke.
Qed.

(** ** The bulk route *)

Section bulk_route.

Variable Parse : string → Result UUID.
Variable application_Code : Application → string.
Variable component_Code : Component → string.

(** X23: the bulk route never answers 500.  Whatever the request and
    whatever the store does, the status is 200 or 400: a failure of the
    store shows as 400 on the way by codes, and on the way by identifiers
    as 200 with the components it could not read left out. *)
Theorem bulk_route_never_answers_500
    componentIDsStr componentCodesStr applicationCode locale stageStr w :
  let answered :=
    (handlers.GetMultipleTranslations Parse application_Code component_Code
       componentIDsStr componentCodesStr applicationCode locale stageStr w).1 in
  answer_code answered = StatusOK ∨ answer_code answered = StatusBadRequest.
Proof.
  unfold handlers.GetMultipleTranslations.
  destruct (String.eqb componentIDsStr "" && String.eqb componentCodesStr "");
    [by right|].
  cbv zeta. destruct (negb (String.eqb componentCodesStr "")).
  - destruct (String.eqb applicationCode ""); [by right|].
    destruct (handlers.componentCodes_of _ _); [by right|].
    unfold bind.
    destruct (GetMultipleTranslationsByCodes _ _ _ _ _ _ _) as [[err|translations] w'];
      [by right|by left].
  - destruct (handlers.componentIDs_of _ _ _) as [idStr|componentIDs]; [by right|].
    case_decide; [by right|]. unfold bind.
    destruct (GetMultipleTranslations componentIDs _ _ w) as [got w'] eqn:Hbulk.
    apply GetMultipleTranslations_rows in Hbulk as [_ [results ->]]. by left.
Qed.

End bulk_route.

(** ** The codes of a request *)

Lemma componentCodes_of_spec strs codes :
  handlers.componentCodes_of strs codes
  = codes ++ filter (fun code => code ≠ EmptyString) (strings.TrimSpace <$> strs).
Proof.
  revert codes. induction strs as [|str strs IH]; intros codes.
  - by rewrite app_nil_r.
  - cbn [handlers.componentCodes_of fmap list_fmap]. rewrite filter_cons.
    destruct (String.eqb_spec (strings.TrimSpace str) "") as [->|Hne].
    + by rewrite decide_False by (by intros []).
    + rewrite decide_True by done. rewrite IH. by rewrite <- app_assoc.
Qed.

(** X24: the codes of a bulk request.  For a [component_codes] parameter
    made of pieces separated by commas, the codes the route passes on are
    the pieces with the white space around them removed, without the blank
    ones, in the order of the parameter. *)
Theorem component_codes_are_the_trimmed_pieces (pieces : list string) :
  Forall (fun piece => strings.Contains piece "," = false) pieces →
  handlers.componentCodes_of (strings.Split (strings.Join pieces ",") ",") []
  = filter (fun code => code ≠ EmptyString) (strings.TrimSpace <$> pieces).
Proof.
  intros Hall. rewrite componentCodes_of_spec, app_nil_l.
  destruct pieces as [|piece pieces]; [done|].
  by rewrite Split_Join.
Qed.

Lemma component_codes_are_the_trimmed_pieces_witness :
  handlers.componentCodes_of
    (strings.Split (strings.Join ["pdp_form"; " checkout "; ""; "cart page"] ",") ",") []
  = ["pdp_form"; "checkout"; "cart page"].
Proof.
  etrans; [apply component_codes_are_the_trimmed_pieces|reflexivity].
  repeat constructor.
Defined.

(** ** Import, export, comparison *)

(** X25: what is imported can be exported.  On a store that answers, an
    import for a locale answers 200 with the saved row, and then both the
    export of that locale and the read of the translation return the
    imported data, provided they name the stage of the import.  The stage
    of an import defaults to draft and the stage of an export and of a read
    to production, so with both stages left out the data is imported into
    one stage and looked for in the other. *)
Theorem import_then_export c l stageIn stageOut data u w :
  healthy w → store_ok (translation_versions w) →
  l ≠ EmptyString →
  stage_or StageDraft stageIn = stage_or StageProduction stageOut →
  ∃ saved w1 w2,
    handlers.ImportComponent (inr c) l stageIn (inr data) u w
    = ({| answer_code := StatusOK; answer := of_TranslationVersion saved |}, w1)
    ∧ Data saved = data
    ∧ handlers.ExportComponent (inr c) l stageOut w1
      = ({| answer_code := StatusOK;
            answer := attachment ("component_" +:+ l +:+ ".json") (JObj data) |}, w2)
    ∧ handlers.GetTranslation (inr c) l stageOut w1
      = ({| answer_code := StatusOK; answer := of_TranslationVersion saved |}, w2).
Proof.
  intros Hw Hok Hl Hstage.
  assert (String.eqb l "" = false) as Hl' by by apply String.eqb_neq.
  unfold handlers.ImportComponent, handlers.ExportComponent, handlers.GetTranslation.
  rewrite Hl'. cbn [negb]. cbv zeta. rewrite <- Hstage.
  set (s := stage_or StageDraft stageIn).
  destruct (SaveTranslation_healthy c l s data u w Hw Hok)
    as (t & rows' & Hsave & Hok' & H2 & Hdata & _).
  unfold bind. rewrite Hsave.
  set (w1 := with_redis _ _).
  assert (GetTranslation c l s w1
          = (inr t, with_redis (<[cacheKey_of c l s := t]> (redis w1)) w1)) as Hget.
  { apply GetTranslation_slot2; [done|done| |done]. apply lookup_delete_delete. }
  eexists t, w1, _. rewrite Hget. unfold ret. rewrite Hdata. done.
Qed.

Lemma import_then_export_witness :
  ∃ saved w1 w2,
    handlers.ImportComponent (inr 7%N) "id" "" (inr demo_payload) 1%N
      (demo_world [] ∅ [])
    = ({| answer_code := StatusOK; answer := of_TranslationVersion saved |}, w1)
    ∧ Data saved = demo_payload
    ∧ handlers.ExportComponent (inr 7%N) "id" "draft" w1
      = ({| answer_code := StatusOK;
            answer := attachment ("component_" +:+ "id" +:+ ".json")
                                 (JObj demo_payload) |}, w2)
    ∧ handlers.GetTranslation (inr 7%N) "id" "draft" w1
      = ({| answer_code := StatusOK; answer := of_TranslationVersion saved |}, w2).
Proof.
  apply import_then_export; [done|apply store_ok_nil|done|done].
Defined.

(** X26: the comparison shows the first and the last save.  On a store
    that answers, for a key without rows, after two saves the comparison
    answers 200 with the payload of the first save as version 1 and the
    payload of the second as version 2; then the route of the revert
    answers 200, and the comparison shows the payload of the first save
    twice. *)
Theorem comparison_after_saves_and_revert c l stageStr P1 P2 u1 u2 w :
  let s := stage_or StageDraft stageStr in
  healthy w → store_ok (translation_versions w) →
  l ≠ EmptyString → fresh_key c l s (translation_versions w) →
  ∃ saved1 w1 saved2 w2 w3,
    SaveTranslation c l s P1 u1 w = (inr saved1, w1)
    ∧ SaveTranslation c l s P2 u2 w1 = (inr saved2, w2)
    ∧ handlers.GetVersionComparison (inr c) l stageStr w2
      = ({| answer_code := StatusOK; answer := of_versions (Some P1) (Some P2) |}, w2)
    ∧ handlers.RevertTranslation (inr c) l stageStr w2
      = ({| answer_code := StatusOK; answer := H_message "Translation reverted" |}, w3)
    ∧ handlers.GetVersionComparison (inr c) l stageStr w3
      = ({| answer_code := StatusOK; answer := of_versions (Some P1) (Some P1) |}, w3).
Proof.
  intros s Hw Hok Hl Hfresh.
  assert (String.eqb l "" = false) as Hl' by by apply String.eqb_neq.
  destruct (SaveTranslation_healthy c l s P1 u1 w Hw Hok)
    as (t1 & rows1 & Hsave1 & Hok1 & _ & _ & Hslot1 & _).
  rewrite (fresh_key_slot c l s 1) in Hslot1 by done.
  destruct Hslot1 as (r1 & Hr1 & Hdata1).
  set (w1 := with_redis _ (with_translation_versions rows1 w)) in Hsave1.
  destruct (SaveTranslation_healthy c l s P2 u2 w1 Hw Hok1)
    as (t2 & rows2 & Hsave2 & Hok2 & Ht2 & Hdata2 & Hslot1' & _).
  change (translation_versions w1) with rows1 in Hslot1'. rewrite Hr1 in Hslot1'.
  set (w2 := with_redis _ (with_translation_versions rows2 w1)) in Hsave2.
  assert (healthy w2) as Hw2 by done.
  destruct (RevertTranslation_healthy c l s w2 r1 Hw2 Hok2 Hslot1')
    as (t3 & rows3 & Hrev & Hok3 & Ht3 & Hdata3 & Hslot1'' & _).
  set (w3 := with_redis _ (with_translation_versions rows3 w2)) in Hrev.
  assert (healthy w3) as Hw3 by done.
  assert (∀ w' rows' ra rb,
            healthy w' → translation_versions w' = rows' →
            slot c l s 1 rows' = Some ra → slot c l s 2 rows' = Some rb →
            handlers.GetVersionComparison (inr c) l stageStr w'
            = ({| answer_code := StatusOK;
                  answer := of_versions (Some (Data ra)) (Some (Data rb)) |}, w'))
    as Hcompare.
  { intros w' rows' ra rb Hw' <- Ha Hb. unfold handlers.GetVersionComparison.
    rewrite Hl'. fold s. unfold bind.
    rewrite First_healthy by done. fold (slot c l s 1 (translation_versions w')).
    rewrite Ha. rewrite First_healthy by done.
    fold (slot c l s 2 (translation_versions w')). by rewrite Hb. }
  exists t1, w1, t2, w2, w3. split_and!; [done|done| | |].
  - rewrite <- Hdata1, <- Hdata2. by apply (Hcompare w2 rows2).
  - unfold handlers.RevertTranslation. rewrite Hl'. fold s. unfold bind.
    by rewrite Hrev.
  - rewrite <- Hdata1. rewrite <- Hdata3 at 2. by apply (Hcompare w3 rows3).
Qed.

Lemma comparison_after_saves_and_revert_witness :
  ∃ saved1 w1 saved2 w2 w3,
    SaveTranslation 7%N "id" StageDraft demo_payload 1%N (demo_world [] ∅ [])
    = (inr saved1, w1)
    ∧ SaveTranslation 7%N "id" StageDraft ∅ 2%N w1 = (inr saved2, w2)
    ∧ handlers.GetVersionComparison (inr 7%N) "id" "" w2
      = ({| answer_code := StatusOK;
            answer := of_versions (Some demo_payload) (Some ∅) |}, w2)
    ∧ handlers.RevertTranslation (inr 7%N) "id" "" w2
      = ({| answer_code := StatusOK; answer := H_message "Translation reverted" |}, w3)
    ∧ handlers.GetVersionComparison (inr 7%N) "id" "" w3
      = ({| answer_code := StatusOK;
            answer := of_versions (Some demo_payload) (Some demo_payload) |}, w3).
Proof.
  apply (comparison_after_saves_and_revert 7%N "id" "" demo_payload ∅ 1%N 2%N
           (demo_world [] ∅ []));
    [done|apply store_ok_nil|done|].
  intros r Hr. by apply elem_of_nil in Hr.
Defined.

(** ** The further properties on concrete states *)

Lemma TranslateJSON_translates_each_entry_witness :
  let result : gmap string JSON :=
    {[ "greeting" := JStr "Halo [name]!";
       "form" := JObj {[ "label" := JStr "Halo [name]!"; "max" := JNum 64 ]} ]} in
  dom result = dom demo_payload
  ∧ ∀ key v, demo_payload !! key = Some v →
      ∃ v', result !! key = Some v'
            ∧ translated_entry demo_engine (NewOpenAIService "sk-test") "en" "id" v v'.
Proof.
  apply TranslateJSON_translates_each_entry. vm_compute. reflexivity.
Defined.

Lemma TranslateJSON_without_text_witness :
  TranslateJSON forgetful_engine (NewOpenAIService "") limits_payload "en" "es"
  = inr limits_payload.
Proof.
  apply TranslateJSON_without_text. intros H.
  inversion H as [|m key v Hkey Hv]; subst.
  unfold limits_payload in Hkey.
  apply lookup_insert_Some in Hkey as [[_ <-]|[_ Hkey]]; [inversion Hv|].
  apply lookup_singleton_Some in Hkey as [_ <-]. inversion Hv.
Defined.

Lemma read_is_repeated_from_cache_witness :
  let w1 := (GetTranslation 7%N "en" StageDraft (demo_world demo_rows ∅ [])).2 in
  GetTranslation 7%N "en" StageDraft (with_db_faults [true; true] w1)
  = (inr (demo_row 1 "en" 2), with_db_faults [true; true] w1).
Proof.
  apply (read_is_repeated_from_cache 7%N "en" StageDraft (demo_world demo_rows ∅ [])).
  vm_compute. reflexivity.
Defined.

Lemma deploy_copies_the_source_witness :
  ∃ w1 deployed w2,
    DeployToStage 7%N "en" StageDraft StageStaging 1%N (demo_world demo_rows ∅ [])
    = (inr tt, w1)
    ∧ GetTranslation 7%N "en" StageStaging w1 = (inr deployed, w2)
    ∧ Data deployed = Data (demo_row 1 "en" 2).
Proof.
  eapply (deploy_copies_the_source 7%N "en" StageDraft StageStaging 1%N
            (demo_world demo_rows ∅ []) (demo_row 1 "en" 2));
    [done|apply store_ok_demo|vm_compute; reflexivity].
Defined.

Lemma deploy_without_source_writes_nothing_witness :
  let w := demo_world [] ∅ [] in
  DeployToStage 7%N "en" StageDraft StageStaging 1%N w
  = (inl (Errorf "source translation not found" ErrRecordNotFound), w)
  ∧ Error (Errorf "source translation not found" ErrRecordNotFound)
    = "source translation not found: " +:+ Error ErrRecordNotFound
  ∧ same_data w w.
Proof.
  apply deploy_without_source_writes_nothing. vm_compute. reflexivity.
Defined.

Lemma revert_with_both_slots_witness :
  ∃ w1 read w2,
    RevertTranslation 7%N "en" StageDraft (demo_world demo_rows ∅ []) = (inr tt, w1)
    ∧ slot 7%N "en" StageDraft 1 (translation_versions w1) = Some (demo_row 2 "en" 1)
    ∧ GetTranslation 7%N "en" StageDraft w1 = (inr read, w2)
    ∧ Data read = Data (demo_row 2 "en" 1)
    ∧ ID read = ID (demo_row 1 "en" 2)
    ∧ ∃ w3 read' w4,
        RevertTranslation 7%N "en" StageDraft w2 = (inr tt, w3)
        ∧ GetTranslation 7%N "en" StageDraft w3 = (inr read', w4)
        ∧ Data read' = Data (demo_row 2 "en" 1)
        ∧ ID read' = ID (demo_row 1 "en" 2).
Proof.
  apply revert_with_both_slots; [done|apply store_ok_demo|..]; vm_compute; reflexivity.
Defined.

Lemma save_writes_in_place_witness :
  let w := demo_world demo_rows ∅ [] in
  ∃ saved w1,
    SaveTranslation 7%N "en" StageDraft limits_payload 5%N w = (inr saved, w1)
    ∧ length (translation_versions w1)
      = length (translation_versions w)
        + (match slot 7%N "en" StageDraft 2 (translation_versions w) with
           | Some _ => 0 | None => 1 end)
        + (match slot 7%N "en" StageDraft 1 (translation_versions w) with
           | Some _ => 0 | None => 1 end)
    ∧ Data saved = limits_payload ∧ UpdatedBy saved = 5%N
    ∧ (∀ e, slot 7%N "en" StageDraft 2 (translation_versions w) = Some e →
         ID saved = ID e ∧ CreatedBy saved = CreatedBy e)
    ∧ (slot 7%N "en" StageDraft 2 (translation_versions w) = None →
       CreatedBy saved = 5%N)
    ∧ ∀ r, r ∈ translation_versions w1 → database.live r → (Version r ≤ 2)%Z.
Proof. apply save_writes_in_place; [done|apply store_ok_demo]. Defined.

Lemma save_leaves_other_keys_witness :
  let w := demo_world demo_rows ∅ [] in
  ∃ saved w1,
    SaveTranslation 7%N "id" StageDraft limits_payload 5%N w = (inr saved, w1)
    ∧ (GetTranslation 7%N "en" StageDraft w1).1 = (GetTranslation 7%N "en" StageDraft w).1.
Proof.
  apply save_leaves_other_keys; [done|apply store_ok_demo|done|done|].
  by intros (_ & [=] & _).
Defined.

Lemma one_row_per_slot_demo : one_row_per_slot demo_rows.
Proof.
  intros r1 r2 H1 H2.
  apply elem_of_cons in H1 as [->|H1]; [|apply list_elem_of_singleton in H1 as ->];
    (apply elem_of_cons in H2 as [->|H2]; [|apply list_elem_of_singleton in H2 as ->]);
    done.
Qed.

Lemma bulk_read_agrees_with_single_reads_witness :
  let w := demo_world demo_rows ∅ [] in
  ∃ results w',
    GetMultipleTranslations [7%N; 8%N] "en" StageDraft w = (inr results, w')
    ∧ ∀ c, c ∈ [7%N; 8%N] →
        results !! uuid.String c
        = match (GetTranslation c "en" StageDraft w).1 with
          | inr t => Some t
          | inl _ => None
          end.
Proof.
  apply bulk_read_agrees_with_single_reads;
    [done|apply store_ok_demo|apply one_row_per_slot_demo].
Defined.

Lemma one_row_per_slot_is_kept_witness :
  let w := demo_world demo_rows ∅ [] in
  one_row_per_slot
    (translation_versions (SaveTranslation 7%N "id" StageDraft limits_payload 5%N w).2)
  ∧ one_row_per_slot (translation_versions (RevertTranslation 7%N "id" StageDraft w).2).
Proof.
  apply one_row_per_slot_is_kept; [done|apply store_ok_demo|apply one_row_per_slot_demo].
Defined.

Lemma cache_ok_empty rows faults : cache_ok (demo_world rows ∅ faults).
Proof.
  intros c l s t H. change (redis _) with (∅ : gmap string TranslationVersion) in H.
  by rewrite lookup_empty in H.
Qed.

Lemma cache_exact_empty rows faults : cache_exact (demo_world rows ∅ faults).
Proof.
  intros c l s t _ H. change (redis _) with (∅ : gmap string TranslationVersion) in H.
  by rewrite lookup_empty in H.
Qed.

Lemma store_and_cache_invariant_witness :
  let w := demo_world demo_rows ∅ [false; true; false; false; true] in
  let ks := [ call_SaveTranslation 7%N "id" StageDraft limits_payload 5%N;
              call_GetTranslation 7%N "id" StageDraft;
              call_RevertTranslation 7%N "en" StageDraft;
              call_GetMultipleTranslations [7%N; 8%N] "en" StageDraft;
              call_DeployToStage 7%N "en" StageDraft StageStaging 5%N ] in
  store_ok (translation_versions (run_calls ks w).2)
  ∧ cache_ok (run_calls ks w).2
  ∧ cache_exact (run_calls ks w).2.
Proof.
  intros w ks.
  destruct (store_and_cache_invariant ks w) as (H1 & H2 & H3);
    [apply store_ok_demo|apply cache_ok_empty|].
  split_and!; [done..|]. apply H3; [|apply cache_exact_empty].
  repeat constructor.
Defined.

Lemma unknown_codes_are_reported_witness :
  let w := demo_world demo_rows ∅ [] in
  GetMultipleTranslationsByCodes demo_application_Code demo_component_Code
    "whatsapp" ["cart"; "pdp_form"; "checkout"] "en" StageDraft w
  = (inl (ErrNew ("component codes not found: ["
                  +:+ strings.Join ["cart"; "checkout"] " " +:+ "]")), w).
Proof.
  apply (unknown_codes_are_reported demo_application_Code demo_component_Code
           "whatsapp" ["cart"; "pdp_form"; "checkout"] "en" StageDraft
           (demo_world demo_rows ∅ [])
           {| application_ID := 3; application_OpenAIKey := "sk-test";
              application_DeletedAt := false |});
    [done|vm_compute; reflexivity|vm_compute; discriminate].
Defined.

Lemma components_ok_demo rows entries faults :
  components_ok demo_component_Code (demo_world rows entries faults).
Proof.
  split.
  - simpl. apply NoDup_singleton.
  - simpl. by intros c1 c2 ->%list_elem_of_singleton ->%list_elem_of_singleton.
Qed.

Lemma bulk_read_by_codes_witness :
  let w := demo_world demo_rows ∅ [] in
  ∃ componentIDs bulk result w',
    GetMultipleTranslations componentIDs "en" StageDraft w = (inr bulk, w')
    ∧ GetMultipleTranslationsByCodes demo_application_Code demo_component_Code
        "whatsapp" ["pdp_form"] "en" StageDraft w = (inr result, w')
    ∧ (∀ component,
         component ∈ components w → component_DeletedAt component = false →
         component_ApplicationID component = 3%N →
         demo_component_Code component ∈ ["pdp_form"] →
         component_ID component ∈ componentIDs
         ∧ result !! demo_component_Code component
           = bulk !! uuid.String (component_ID component))
    ∧ ∀ code t, result !! code = Some t → code ∈ ["pdp_form"].
Proof.
  apply (bulk_read_by_codes demo_application_Code demo_component_Code
           "whatsapp" ["pdp_form"] "en" StageDraft (demo_world demo_rows ∅ [])
           {| application_ID := 3; application_OpenAIKey := "sk-test";
              application_DeletedAt := false |});
    [done|apply components_ok_demo|apply cache_ok_empty|vm_compute; reflexivity|].
  repeat constructor.
Defined.
